(** * Average-Image-CLI: the per-pixel outlier-rejecting mean of [main.go]

    The program merges a stack of equally sized images: at every coordinate
    it computes, per channel, the mean and the sample standard deviation of
    the stack's pixels, drops every pixel that has a channel further than
    [N] standard deviations from that channel's mean, and writes the mean of
    the pixels that are left.

    The development has three layers.
    - [Float64Ops]: the [float64] operations [main.go] uses, as an interface
      with two instances: [binary64] (the kernel's IEEE-754 binary64 floats,
      which is what Go's [float64] is; it evaluates) and [exact] (real
      numbers, the arithmetic without rounding).
    - the code: [stats.Mean], [stats.StandardDeviationSample], [colors],
      [meanColor] and [main], written once over the interface.
    - the theorems: those on the structure of the code hold over every
      instance; those on the numbers the program computes (the band of the
      filter, its monotonicity in [N], stacks of identical pixels) are
      proved over [binary64], rounding included, from the specification of
      the IEEE operations ([SpecFloat]); the property of the sample
      standard deviation as a real-valued formula is proved over [exact]. *)

From Stdlib Require Import ZArith List Bool Lia String.
From Stdlib Require Import Reals Lra.
From Stdlib Require Import Floats.
From Stdlib Require Uint63.
Import ListNotations.

Set Implicit Arguments.

(** ** [float64] as an interface *)

Class Float64Ops (F : Type) : Type := {
  fadd : F -> F -> F;          (* x + y *)
  fsub : F -> F -> F;          (* x - y *)
  fmul : F -> F -> F;          (* x * y *)
  fdiv : F -> F -> F;          (* x / y *)
  fsqrt : F -> F;              (* math.Sqrt(x) *)
  flt : F -> F -> bool;        (* x < y; [y > x] is the same test *)
  of_int : Z -> F;             (* float64(n), n an integer *)
  to_uint16 : F -> Z           (* uint16(x) *)
}.

Declare Scope f64_scope.
Delimit Scope f64_scope with f64.
Infix "+" := fadd : f64_scope.
Infix "-" := fsub : f64_scope.
Infix "*" := fmul : f64_scope.
Infix "/" := fdiv : f64_scope.
Infix "<" := flt : f64_scope.
Notation "x > y" := (flt y x) : f64_scope.

(** *** IEEE-754 binary64 *)

Module Binary64.

(** [float64(n)] for an integer that a [uint32] or a slice length holds:
    exact below 2^53. *)
Definition of_int (n : Z) : float := PrimFloat.of_uint63 (Uint63.of_Z n).

(** Truncation toward zero of a finite float; 0 on zeros.  On NaN and on
    infinities Go leaves the converted value to the implementation; 0 here. *)
Definition trunc (x : spec_float) : Z :=
  match x with
  | S754_finite s m e =>
      let a := if (0 <=? e)%Z then Z.shiftl (Zpos m) e
               else Z.shiftr (Zpos m) (- e) in
      if s then (- a)%Z else a
  | _ => 0%Z
  end.

(** [uint16(x)]: truncate, keep the low 16 bits. *)
Definition to_uint16 (x : float) : Z := (trunc (Prim2SF x) mod 65536)%Z.

End Binary64.

#[export] Instance binary64 : Float64Ops float := {
  fadd := PrimFloat.add;
  fsub := PrimFloat.sub;
  fmul := PrimFloat.mul;
  fdiv := PrimFloat.div;
  fsqrt := PrimFloat.sqrt;
  flt := PrimFloat.ltb;
  of_int := Binary64.of_int;
  to_uint16 := Binary64.to_uint16
}.

(** *** Exact real arithmetic *)

Module Exact.

Definition ltb (x y : R) : bool := if Rlt_dec x y then true else false.

(** Truncation toward zero. *)
Definition trunc (x : R) : Z :=
  if Rle_dec 0 x then Int_part x else (- Int_part (- x))%Z.

Definition to_uint16 (x : R) : Z := (trunc x mod 65536)%Z.

End Exact.

#[export] Instance exact : Float64Ops R := {
  fadd := Rplus;
  fsub := Rminus;
  fmul := Rmult;
  fdiv := Rdiv;
  fsqrt := R_sqrt.sqrt;
  flt := Exact.ltb;
  of_int := IZR;
  to_uint16 := Exact.to_uint16
}.

(** ** Errors and results *)

Inductive result (E A : Type) : Type :=
| Ok (a : A)
| Err (e : E).
Arguments Ok {E A} a.
Arguments Err {E A} e.

(** ** Package [image/color]: a colour is what its [RGBA()] method returns,
    four [uint32] values, each within [0, 0xffff]. *)

Module color.

Record Color : Type := mkColor { red : Z; green : Z; blue : Z; alpha : Z }.

Definition RGBA (c : Color) : Z * Z * Z * Z := (red c, green c, blue c, alpha c).

(** [color.RGBA64{r, g, b, a}]: its [RGBA()] returns the four fields. *)
Definition RGBA64 (r g b a : Z) : Color := mkColor r g b a.

(** The range the [Color] interface promises for every channel. *)
Definition in_range (c : Color) : Prop :=
  (0 <= red c <= 65535 /\ 0 <= green c <= 65535 /\
   0 <= blue c <= 65535 /\ 0 <= alpha c <= 65535)%Z.

End color.

(** ** Package [image]: bounds and pixel access *)

Module image.

Record Point : Type := mkPoint { X : Z; Y : Z }.
Record Rectangle : Type := mkRectangle { Min : Point; Max : Point }.

(** An [image.Image]: [Bounds()] and [At(x, y)]. *)
Record Image : Type := mkImage { Bounds : Rectangle; At : Z -> Z -> color.Color }.

Definition Point_eqb (p q : Point) : bool :=
  (X p =? X q)%Z && (Y p =? Y q)%Z.

(** [r == s] on rectangles: field by field. *)
Definition Rectangle_eqb (r s : Rectangle) : bool :=
  Point_eqb (Min r) (Min s) && Point_eqb (Max r) (Max s).

End image.

(** ** Package [github.com/montanaflynn/stats] *)

Module stats.

(** [stats.EmptyInputErr]. *)
Inductive error : Type := EmptyInputErr.

Section Stats.
Context {F : Type} `{Float64Ops F}.
Local Open Scope f64_scope.

(** The loop of [Sum]: [sum += n] over the input, from 0. *)
Definition sum (input : list F) : F := fold_left fadd input (of_int 0).

(** The value [Mean] returns on a non-empty input. *)
Definition mean (input : list F) : F :=
  sum input / of_int (Z.of_nat (List.length input)).

(** Modelled from the spec: [stats.Mean] of the imported package
    [github.com/montanaflynn/stats], whose source is not among the
    repository's files.  The arithmetic mean (the sum divided by the
    count); an empty input is the error [EmptyInputErr]. *)
Definition Mean (input : list F) : result error F :=
  match input with
  | [] => Err EmptyInputErr
  | _ => Ok (mean input)
  end.

(** The sum of the squared deviations from [m]: [variance += (n - m) * (n - m)]. *)
Definition squares (m : F) (input : list F) : F :=
  fold_left (fun variance n => variance + (n - m) * (n - m)) input (of_int 0).

(** The sample variance of a non-empty input: the sum of squared
    deviations from the mean, divided by [count - 1]. *)
Definition variance (input : list F) : F :=
  squares (mean input) input / of_int (Z.of_nat (List.length input) - 1).

(** The value [StandardDeviationSample] returns on a non-empty input. *)
Definition stddev (input : list F) : F := fsqrt (variance input).

(** Modelled from the spec: [stats.StandardDeviationSample] of the same
    package.  The formula is that of the spec: the square root of the sum
    of squared deviations from the mean divided by [count - 1].  The
    errors are those of the package itself, not of the spec's words: the
    only error is [EmptyInputErr] on an empty input; the package has no
    guard for a single value, where the division is [0 / 0]. *)
Definition StandardDeviationSample (input : list F) : result error F :=
  match input with
  | [] => Err EmptyInputErr
  | _ => Ok (stddev input)
  end.

End Stats.

End stats.

(** ** The values [fmt] formats and the errors of the program

    A formatted message is kept as its format string and its arguments. *)

Inductive value (F : Type) : Type :=
| VInt (n : Z)
| VString (s : string)
| VRect (r : image.Rectangle)
| VFloats (l : list F)
| VError (e : error F)
with error (F : Type) : Type :=
| StatsError (e : stats.error)
| Errorf (format : string) (args : list (value F)).
Arguments VInt {F} n.
Arguments VString {F} s.
Arguments VRect {F} r.
Arguments VFloats {F} l.
Arguments VError {F} e.
Arguments StatsError {F} e.
Arguments Errorf {F} format args.

(** How a run ends: [log.Fatalf(format, args...)], which exits at once, or
    the end of the pixel loop, after which [out] goes to [os.Create] and
    [jpeg.Encode] (outside the model). *)
Inductive exit (F : Type) : Type :=
| Fatalf (format : string) (args : list (value F))
| Saved.
Arguments Fatalf {F} format args.
Arguments Saved {F}.

(** One call [out.Set(x, y, c)]. *)
Definition set_call : Type := (Z * Z) * color.Color.

(** ** [main.go] *)

Section Program.
Context {F : Type} `{Float64Ops F}.

(** The flags [--path] and [--N]. *)
Variable pathFlag : string.
Variable nFlag : F.

Local Open Scope string_scope.
Local Open Scope list_scope.
Local Open Scope f64_scope.

(** The four slices [rs, gs, bs, as] (and [rsFilt, ...]). *)
Definition slices : Type := list F * list F * list F * list F.

(** [colors(x, y, images)]: the pixel of every image at [(x, y)], in the
    images' order. *)
Definition colors (x y : Z) (images : list image.Image) : list color.Color :=
  fold_left (fun out i => out ++ [image.At i x y]) images [].

(** Lines 105-113: the four per-channel slices, in the order R, G, B, A. *)
Definition channels_of (colors : list color.Color) : list (list F) :=
  let '(rs, gs, bs, as_) :=
    fold_left
      (fun '(rs, gs, bs, as_) c =>
         let '(r, g, b, a) := color.RGBA c in
         (rs ++ [of_int r], gs ++ [of_int g], bs ++ [of_int b], as_ ++ [of_int a]))
      colors (([], [], [], []) : slices) in
  [rs; gs; bs; as_].

(** Lines 117-131: the mean and the sample standard deviation of every
    channel, appended to [means] and [stddevs]; the first error returns. *)
Fixpoint channel_stats (channels : list (list F)) (means stddevs : list F)
  : result (error F) (list F * list F) :=
  match channels with
  | [] => Ok (means, stddevs)
  | c :: rest =>
      match stats.Mean c with
      | Err err =>
          Err (Errorf "failed to compute mean for %v: %v"
                 [VFloats c; VError (StatsError err)])
      | Ok m =>
          match stats.StandardDeviationSample c with
          | Err err =>
              Err (Errorf "failed to compute sample standard deviation %v: %v"
                     [VFloats c; VError (StatsError err)])
          | Ok s => channel_stats rest (means ++ [m]) (stddevs ++ [s])
          end
      end
  end.

(** [means[i]], [stddevs[i]]: both slices hold four values when read. *)
Definition at_index (l : list F) (i : nat) : F := nth i l (of_int 0).

(** The test of lines 138, 141, 144 and 147 on the channel of index [i]:
    [v > means[i]+N*stddevs[i] || v < means[i]-N*stddevs[i]], with
    [N := *nFlag]. *)
Definition outside (means stddevs : list F) (i : nat) (v : F) : bool :=
  let N := nFlag in
  (v > at_index means i + N * at_index stddevs i)
  || (v < at_index means i - N * at_index stddevs i).

(** Lines 135-154, one iteration: [continue] on the first channel outside
    its band, else append the pixel's four values. *)
Definition filter_step (means stddevs : list F) (filt : slices) (c : color.Color)
  : slices :=
  let '(rsFilt, gsFilt, bsFilt, asFilt) := filt in
  let '(r, g, b, a) := color.RGBA c in
  if outside means stddevs 0 (of_int r) then filt
  else if outside means stddevs 1 (of_int g) then filt
  else if outside means stddevs 2 (of_int b) then filt
  else if outside means stddevs 3 (of_int a) then filt
  else (rsFilt ++ [of_int r], gsFilt ++ [of_int g],
        bsFilt ++ [of_int b], asFilt ++ [of_int a]).

Definition filter_loop (means stddevs : list F) (colors : list color.Color)
  : slices :=
  fold_left (filter_step means stddevs) colors ([], [], [], []).

(** Line 155: [len(rsFilt) == 0 || len(gsFilt) == 0 || len(bsFilt) == 0 ||
    len(asFilt) == 0]. *)
Definition none_left (filt : slices) : bool :=
  let '(rsFilt, gsFilt, bsFilt, asFilt) := filt in
  (List.length rsFilt =? 0)%nat || (List.length gsFilt =? 0)%nat
  || (List.length bsFilt =? 0)%nat || (List.length asFilt =? 0)%nat.

Definition removed_all : error F :=
  Errorf "standard deviation filter removed all pixels; use a higher --N value to make the filter more permissive" [].

(** Lines 159-175: the mean of every filtered slice, converted to [uint16]. *)
Definition output (filt : slices) : result (error F) color.Color :=
  let '(rsFilt, gsFilt, bsFilt, asFilt) := filt in
  match stats.Mean rsFilt with
  | Err err =>
      Err (Errorf "failed to compute red output using pixels %v: %v"
             [VFloats rsFilt; VError (StatsError err)])
  | Ok rMean =>
  match stats.Mean gsFilt with
  | Err err =>
      Err (Errorf "failed to compute green output using pixels %v: %v"
             [VFloats gsFilt; VError (StatsError err)])
  | Ok gMean =>
  match stats.Mean bsFilt with
  | Err err =>
      Err (Errorf "failed to compute blue output using pixels %v: %v"
             [VFloats bsFilt; VError (StatsError err)])
  | Ok bMean =>
  match stats.Mean asFilt with
  | Err err =>
      Err (Errorf "failed to compute alpha output using pixels %v: %v"
             [VFloats asFilt; VError (StatsError err)])
  | Ok aMean =>
      Ok (color.RGBA64 (to_uint16 rMean) (to_uint16 gMean)
            (to_uint16 bMean) (to_uint16 aMean))
  end end end end.

(** [meanColor(colors)]. *)
Definition meanColor (colors : list color.Color) : result (error F) color.Color :=
  match channel_stats (channels_of colors) [] [] with
  | Err e => Err e
  | Ok (means, stddevs) =>
      let filt := filter_loop means stddevs colors in
      if none_left filt then Err removed_all else output filt
  end.

(** The values a [for v := lo; v < hi; v++] loop takes. *)
Definition range (lo hi : Z) : list Z :=
  map (fun k => (lo + Z.of_nat k)%Z) (seq 0 (Z.to_nat (hi - lo))).

(** Lines 71-78: one row of the pixel loop.  [out] is the list of the
    [out.Set] calls made so far; a failing [meanColor] exits the run. *)
Fixpoint row_loop (images : list image.Image) (y : Z) (xs : list Z)
  (out : list set_call) : list set_call * option (exit F) :=
  match xs with
  | [] => (out, None)
  | x :: xs' =>
      match meanColor (colors x y images) with
      | Err err =>
          (out, Some (Fatalf "failed to get mean pixel color at x=%v y=%v: %v"
                        [VInt x; VInt y; VError err]))
      | Ok c => row_loop images y xs' (out ++ [((x, y), c)])
      end
  end.

(** Lines 70-79: the rows, outer loop on [y]. *)
Fixpoint pixel_loop (images : list image.Image) (bounds : image.Rectangle)
  (ys : list Z) (out : list set_call) : list set_call * option (exit F) :=
  match ys with
  | [] => (out, None)
  | y :: ys' =>
      match row_loop images y
              (range (image.X (image.Min bounds)) (image.X (image.Max bounds))) out with
      | (out', Some e) => (out', Some e)
      | (out', None) => pixel_loop images bounds ys' out'
      end
  end.

(** Lines 65-79 and the end of [main]. *)
Definition process (images : list image.Image) (bounds : image.Rectangle)
  : list set_call * exit F :=
  match pixel_loop images bounds
          (range (image.Y (image.Min bounds)) (image.Y (image.Max bounds))) [] with
  | (out, Some e) => (out, e)
  | (out, None) => (out, Saved)
  end.

(** [main], from the files found: [images] holds the decoded image of
    every path that [filepath.Glob] returned, in order (a path that fails
    to open or to decode has already ended the run at lines 48 and 54).
    The result is the list of [out.Set] calls made and how the run ended. *)
Definition main (images : list image.Image) : list set_call * exit F :=
  match images with
  | [] => ([], Fatalf "no files found for path: %v" [VString pathFlag])
  | first :: _ =>
      let bounds := image.Bounds first in
      match find (fun i => negb (image.Rectangle_eqb (image.Bounds i) bounds)) images with
      | Some i =>
          ([], Fatalf "unsupported operation; cannot merge images of different sizes: %v, %v"
                 [VRect (image.Bounds i); VRect bounds])
      | None => process images bounds
      end
  end.

(** ** The notions the statements below are written in *)

(** The value of the channel of index [i] (R=0, G=1, B=2, A=3) of a pixel. *)
Definition channel_value (i : nat) (c : color.Color) : Z :=
  match i with
  | 0%nat => color.red c
  | 1%nat => color.green c
  | 2%nat => color.blue c
  | _ => color.alpha c
  end.

(** The same as a [float64], as the code compares and averages it. *)
Definition sample (i : nat) (c : color.Color) : F := of_int (channel_value i c).

(** A pixel is rejected when one of its four channels is outside its band. *)
Definition rejected (means stddevs : list F) (c : color.Color) : bool :=
  outside means stddevs 0 (sample 0 c) || outside means stddevs 1 (sample 1 c)
  || outside means stddevs 2 (sample 2 c) || outside means stddevs 3 (sample 3 c).

(** The pixels the filter keeps, in the order of the stack. *)
Definition survivors (means stddevs : list F) (colors : list color.Color)
  : list color.Color :=
  filter (fun c => negb (rejected means stddevs c)) colors.

(** The means and standard deviations [meanColor] computes for a stack. *)
Definition stack_stats (colors : list color.Color)
  : result (error F) (list F * list F) :=
  channel_stats (channels_of colors) [] [].

(** What [means] and [stddevs] hold for a stack of at least one pixel. *)
Definition stack_means (colors : list color.Color) : list F :=
  map stats.mean (channels_of colors).

Definition stack_stddevs (colors : list color.Color) : list F :=
  map stats.stddev (channels_of colors).

(** Every pixel of the stack is rejected. *)
Definition all_rejected (colors : list color.Color) : bool :=
  match stack_stats colors with
  | Ok (means, stddevs) => forallb (rejected means stddevs) colors
  | Err _ => false
  end.

(** The coordinates of a rectangle in the order the pixel loop visits them:
    row by row, each row from [Min.X] to [Max.X - 1]. *)
Definition coords (bounds : image.Rectangle) : list (Z * Z) :=
  flat_map
    (fun y => map (fun x => (x, y))
                (range (image.X (image.Min bounds)) (image.X (image.Max bounds))))
    (range (image.Y (image.Min bounds)) (image.Y (image.Max bounds))).

(** The sum of the values of the channel of index [i] over a list of pixels. *)
Definition channel_total (i : nat) (colors : list color.Color) : Z :=
  fold_right (fun c total => (channel_value i c + total)%Z) 0%Z colors.

(** The pixel loop as one loop over a list of coordinates: [pixel_loop] is
    [visit] over [coords] (lemma [pixel_loop_visit]). *)
Fixpoint visit (images : list image.Image) (cs : list (Z * Z))
  (out : list set_call) : list set_call * option (exit F) :=
  match cs with
  | [] => (out, None)
  | (x, y) :: cs' =>
      match meanColor (colors x y images) with
      | Err err =>
          (out, Some (Fatalf "failed to get mean pixel color at x=%v y=%v: %v"
                        [VInt x; VInt y; VError err]))
      | Ok c => visit images cs' (out ++ [((x, y), c)])
      end
  end.

End Program.

(** ** Inputs the examples run on *)

Module Examples.

(** The default of [--N]: the [float64] nearest to 1.3. *)
Definition N_default : float := 0x1.4cccccccccccdp+0%float.

(** The 8-bit grey (10, 10, 10) at full alpha, as [RGBA()] returns it. *)
Definition grey : color.Color := color.mkColor 2570 2570 2570 65535.

Definition unit_bounds : image.Rectangle :=
  image.mkRectangle (image.mkPoint 0 0) (image.mkPoint 1 1).

(** A 1x1 image, grey. *)
Definition one_pixel_image : image.Image :=
  image.mkImage unit_bounds (fun _ _ => grey).

(** A 2x1 image, grey. *)
Definition two_pixel_image : image.Image :=
  image.mkImage (image.mkRectangle (image.mkPoint 0 0) (image.mkPoint 2 1))
    (fun _ _ => grey).

(** 1x1 images, black and white. *)
Definition black : color.Color := color.mkColor 0 0 0 65535.
Definition white : color.Color := color.mkColor 65535 65535 65535 65535.
Definition two_black_one_white : list color.Color := [black; black; white].
Definition black_image : image.Image := image.mkImage unit_bounds (fun _ _ => black).
Definition white_image : image.Image := image.mkImage unit_bounds (fun _ _ => white).

End Examples.

(** * Properties that hold over every arithmetic *)

Section Structure.
Context {F : Type} `{Float64Ops F}.
Variable nFlag : F.

Local Open Scope list_scope.

Lemma channels_of_acc (colors : list color.Color) (rs gs bs as_ : list F) :
  fold_left
    (fun '(rs, gs, bs, as_) c =>
       let '(r, g, b, a) := color.RGBA c in
       (rs ++ [of_int r], gs ++ [of_int g], bs ++ [of_int b], as_ ++ [of_int a]))
    colors (rs, gs, bs, as_)
  = (rs ++ map (sample 0) colors, gs ++ map (sample 1) colors,
     bs ++ map (sample 2) colors, as_ ++ map (sample 3) colors).
Proof.
  revert rs gs bs as_.
  induction colors as [|c colors IH]; intros rs gs bs as_; simpl.
  - now rewrite !app_nil_r.
  - rewrite IH. unfold sample; simpl. now rewrite <- !app_assoc.
Qed.

Lemma channels_of_maps (colors : list color.Color) :
  channels_of colors
  = [map (sample 0) colors; map (sample 1) colors;
     map (sample 2) colors; map (sample 3) colors].
Proof.
  unfold channels_of, slices. now rewrite channels_of_acc.
Qed.

Lemma filter_step_rejected means stddevs (filt : slices) c :
  filter_step nFlag means stddevs filt c
  = if rejected nFlag means stddevs c then filt
    else let '(rsFilt, gsFilt, bsFilt, asFilt) := filt in
         (rsFilt ++ [sample 0 c], gsFilt ++ [sample 1 c],
          bsFilt ++ [sample 2 c], asFilt ++ [sample 3 c]).
Proof.
  destruct filt as [[[rsFilt gsFilt] bsFilt] asFilt].
  unfold filter_step, rejected, sample; simpl.
  destruct (outside nFlag means stddevs 0 _); [reflexivity|].
  destruct (outside nFlag means stddevs 1 _); [reflexivity|].
  destruct (outside nFlag means stddevs 2 _); [reflexivity|].
  destruct (outside nFlag means stddevs 3 _); reflexivity.
Qed.

Lemma filter_loop_acc means stddevs colors (rs gs bs as_ : list F) :
  fold_left (filter_step nFlag means stddevs) colors (rs, gs, bs, as_)
  = (rs ++ map (sample 0) (survivors nFlag means stddevs colors),
     gs ++ map (sample 1) (survivors nFlag means stddevs colors),
     bs ++ map (sample 2) (survivors nFlag means stddevs colors),
     as_ ++ map (sample 3) (survivors nFlag means stddevs colors)).
Proof.
  revert rs gs bs as_.
  induction colors as [|c colors IH]; intros rs gs bs as_.
  - simpl. now rewrite !app_nil_r.
  - cbn [fold_left]. rewrite filter_step_rejected.
    unfold survivors in *. cbn [filter].
    destruct (rejected nFlag means stddevs c); cbn [negb].
    + apply IH.
    + rewrite IH. cbn [map]. now rewrite <- !app_assoc.
Qed.

Lemma filter_loop_survivors means stddevs colors :
  filter_loop nFlag means stddevs colors
  = (map (sample 0) (survivors nFlag means stddevs colors),
     map (sample 1) (survivors nFlag means stddevs colors),
     map (sample 2) (survivors nFlag means stddevs colors),
     map (sample 3) (survivors nFlag means stddevs colors)).
Proof.
  unfold filter_loop. now rewrite filter_loop_acc.
Qed.

Lemma survivors_In means stddevs colors c :
  In c (survivors nFlag means stddevs colors)
  <-> In c colors /\ rejected nFlag means stddevs c = false.
Proof.
  unfold survivors. rewrite filter_In.
  now destruct (rejected nFlag means stddevs c).
Qed.

Lemma rejected_some_channel means stddevs c :
  rejected nFlag means stddevs c = true
  <-> exists i, (i < 4)%nat /\ outside nFlag means stddevs i (sample i c) = true.
Proof.
  unfold rejected. rewrite !orb_true_iff. split.
  - intros [[[H0|H1]|H2]|H3];
      [exists 0%nat | exists 1%nat | exists 2%nat | exists 3%nat]; split; auto; lia.
  - intros [i [Hi Ho]].
    destruct i as [|[|[|[|i]]]]; try lia; tauto.
Qed.

Lemma Mean_nonempty (input : list F) :
  input <> [] -> stats.Mean input = Ok (stats.mean input).
Proof. destruct input; [congruence | reflexivity]. Qed.

Lemma StandardDeviationSample_nonempty (input : list F) :
  input <> [] -> stats.StandardDeviationSample input = Ok (stats.stddev input).
Proof. destruct input; [congruence | reflexivity]. Qed.

Lemma channel_stats_nonempty (channels : list (list F)) (means stddevs : list F) :
  Forall (fun c => c <> []) channels ->
  channel_stats channels means stddevs
  = Ok (means ++ map stats.mean channels, stddevs ++ map stats.stddev channels).
Proof.
  intros Hne. revert means stddevs.
  induction Hne as [|c channels Hc _ IH]; intros means stddevs.
  - simpl. now rewrite !app_nil_r.
  - cbn [channel_stats].
    rewrite (Mean_nonempty Hc), (StandardDeviationSample_nonempty Hc), IH.
    cbn [map]. now rewrite <- !app_assoc.
Qed.

Lemma stack_stats_nonempty (colors : list color.Color) :
  colors <> [] ->
  stack_stats colors = Ok (stack_means colors, stack_stddevs colors).
Proof.
  intros Hne. unfold stack_stats, stack_means, stack_stddevs.
  rewrite channel_stats_nonempty; [reflexivity|].
  rewrite channels_of_maps.
  repeat constructor; destruct colors; simpl; congruence.
Qed.

Lemma none_left_survivors means stddevs colors :
  none_left (filter_loop nFlag means stddevs colors)
  = match survivors nFlag means stddevs colors with [] => true | _ => false end.
Proof.
  rewrite filter_loop_survivors. unfold none_left.
  now destruct (survivors nFlag means stddevs colors).
Qed.

Lemma output_survivors (surv : list color.Color) :
  surv <> [] ->
  output (map (sample 0) surv, map (sample 1) surv,
          map (sample 2) surv, map (sample 3) surv)
  = Ok (color.RGBA64
          (to_uint16 (stats.mean (map (sample 0) surv)))
          (to_uint16 (stats.mean (map (sample 1) surv)))
          (to_uint16 (stats.mean (map (sample 2) surv)))
          (to_uint16 (stats.mean (map (sample 3) surv)))).
Proof.
  intros Hne. unfold output.
  rewrite !Mean_nonempty; [reflexivity | ..]; destruct surv; simpl; congruence.
Qed.

(** What [meanColor] returns on a stack of at least one pixel. *)
Lemma meanColor_nonempty (colors : list color.Color) :
  colors <> [] ->
  meanColor nFlag colors
  = match survivors nFlag (stack_means colors) (stack_stddevs colors) colors with
    | [] => Err (removed_all (F:=F))
    | surv =>
        Ok (color.RGBA64
              (to_uint16 (stats.mean (map (sample 0) surv)))
              (to_uint16 (stats.mean (map (sample 1) surv)))
              (to_uint16 (stats.mean (map (sample 2) surv)))
              (to_uint16 (stats.mean (map (sample 3) surv))))
    end.
Proof.
  intros Hne. unfold meanColor.
  fold (stack_stats colors). rewrite (stack_stats_nonempty Hne).
  rewrite none_left_survivors, filter_loop_survivors.
  destruct (survivors nFlag (stack_means colors) (stack_stddevs colors) colors)
    as [|c surv] eqn:E; [reflexivity|].
  apply output_survivors. congruence.
Qed.

(** C1: on a stack of at least one pixel of which at least one survives the
    filter, [meanColor] returns a pixel, and each of its channels is the
    arithmetic mean ([stats.mean]: the sum over the count) of the surviving
    pixels' values on that channel, each channel on its own, converted to
    [uint16]. *)
Theorem meanColor_mean_of_survivors (colors : list color.Color) :
  colors <> [] ->
  survivors nFlag (stack_means colors) (stack_stddevs colors) colors <> [] ->
  stack_stats colors = Ok (stack_means colors, stack_stddevs colors)
  /\ meanColor nFlag colors
     = Ok (color.RGBA64
             (to_uint16 (stats.mean (map (sample 0)
                (survivors nFlag (stack_means colors) (stack_stddevs colors) colors))))
             (to_uint16 (stats.mean (map (sample 1)
                (survivors nFlag (stack_means colors) (stack_stddevs colors) colors))))
             (to_uint16 (stats.mean (map (sample 2)
                (survivors nFlag (stack_means colors) (stack_stddevs colors) colors))))
             (to_uint16 (stats.mean (map (sample 3)
                (survivors nFlag (stack_means colors) (stack_stddevs colors) colors))))).
Proof.
  intros Hne Hsurv. split; [now apply stack_stats_nonempty|].
  rewrite (meanColor_nonempty Hne).
  destruct (survivors nFlag (stack_means colors) (stack_stddevs colors) colors);
    [congruence | reflexivity].
Qed.

(** C2: the filter loop leaves, in each of the four slices, the channel
    values of one and the same list of pixels, the survivors; and a pixel of
    the stack is missing from the survivors exactly when one of its four
    channels is outside its band. *)
Theorem rejection_is_per_pixel (means stddevs : list F) (colors : list color.Color) :
  filter_loop nFlag means stddevs colors
  = (map (sample 0) (survivors nFlag means stddevs colors),
     map (sample 1) (survivors nFlag means stddevs colors),
     map (sample 2) (survivors nFlag means stddevs colors),
     map (sample 3) (survivors nFlag means stddevs colors))
  /\ forall c, In c colors ->
       (~ In c (survivors nFlag means stddevs colors)
        <-> exists i, (i < 4)%nat
                      /\ outside nFlag means stddevs i (sample i c) = true).
Proof.
  split; [apply filter_loop_survivors|].
  intros c Hc. rewrite <- rejected_some_channel, survivors_In.
  destruct (rejected nFlag means stddevs c); split; intros; try tauto; try congruence.
  intros [_ ?]; congruence.
Qed.

(** C10: after the filter loop the four slices have the same length, so one
    is empty exactly when another is, and the test of line 155 over the four
    is the test of any one of them. *)
Theorem filtered_slices_same_length (means stddevs : list F) (colors : list color.Color) :
  let '(rsFilt, gsFilt, bsFilt, asFilt) := filter_loop nFlag means stddevs colors in
  (List.length rsFilt = List.length gsFilt
   /\ List.length gsFilt = List.length bsFilt
   /\ List.length bsFilt = List.length asFilt)
  /\ ((rsFilt = [] <-> gsFilt = []) /\ (gsFilt = [] <-> bsFilt = [])
      /\ (bsFilt = [] <-> asFilt = []))
  /\ (none_left (rsFilt, gsFilt, bsFilt, asFilt) = (List.length rsFilt =? 0)%nat
      /\ none_left (rsFilt, gsFilt, bsFilt, asFilt) = (List.length gsFilt =? 0)%nat
      /\ none_left (rsFilt, gsFilt, bsFilt, asFilt) = (List.length bsFilt =? 0)%nat
      /\ none_left (rsFilt, gsFilt, bsFilt, asFilt) = (List.length asFilt =? 0)%nat).
Proof.
  rewrite filter_loop_survivors.
  unfold none_left. rewrite !length_map.
  destruct (survivors nFlag means stddevs colors) as [|c surv]; simpl.
  - repeat split; reflexivity.
  - repeat split; intros; congruence.
Qed.

End Structure.

(** * The run: [main] *)

Section Run.
Context {F : Type} `{Float64Ops F}.
Variable pathFlag : string.
Variable nFlag : F.

Local Open Scope string_scope.
Local Open Scope list_scope.

Lemma colors_map (x y : Z) (images : list image.Image) :
  colors x y images = map (fun i => image.At i x y) images.
Proof.
  unfold colors.
  enough (forall acc, fold_left (fun out i => out ++ [image.At i x y]) images acc
                      = acc ++ map (fun i => image.At i x y) images) as E
      by apply (E []).
  induction images as [|i images IH]; intros acc; simpl.
  - now rewrite app_nil_r.
  - rewrite IH. now rewrite <- app_assoc.
Qed.

Lemma colors_nonempty (x y : Z) (images : list image.Image) :
  images <> [] -> colors x y images <> [].
Proof. rewrite colors_map. destruct images; simpl; congruence. Qed.

Lemma Rectangle_eqb_eq (r s : image.Rectangle) :
  image.Rectangle_eqb r s = true <-> r = s.
Proof.
  destruct r as [[x1 y1] [x2 y2]], s as [[x3 y3] [x4 y4]].
  unfold image.Rectangle_eqb, image.Point_eqb; simpl.
  rewrite !andb_true_iff, !Z.eqb_eq. split.
  - intros [[-> ->] [-> ->]]. reflexivity.
  - intros E. inversion E. auto.
Qed.

Lemma row_loop_visit images y xs out :
  row_loop nFlag images y xs out
  = visit nFlag images (map (fun x => (x, y)) xs) out.
Proof.
  revert out. induction xs as [|x xs IH]; intros out; simpl; [reflexivity|].
  destruct (meanColor nFlag (colors x y images)); [apply IH | reflexivity].
Qed.

Lemma visit_app images cs1 cs2 out :
  visit nFlag images (cs1 ++ cs2) out
  = match visit nFlag images cs1 out with
    | (out', Some e) => (out', Some e)
    | (out', None) => visit nFlag images cs2 out'
    end.
Proof.
  revert out. induction cs1 as [|[x y] cs1 IH]; intros out; simpl; [reflexivity|].
  destruct (meanColor nFlag (colors x y images)); [apply IH | reflexivity].
Qed.

Lemma pixel_loop_visit images bounds ys out :
  pixel_loop nFlag images bounds ys out
  = visit nFlag images
      (flat_map
         (fun y => map (fun x => (x, y))
                     (range (image.X (image.Min bounds)) (image.X (image.Max bounds))))
         ys) out.
Proof.
  revert out. induction ys as [|y ys IH]; intros out; simpl; [reflexivity|].
  rewrite visit_app, row_loop_visit.
  destruct (visit nFlag images _ out) as [out' [e|]]; [reflexivity | apply IH].
Qed.

Lemma process_visit images bounds :
  process nFlag images bounds
  = match visit nFlag images (coords bounds) [] with
    | (out, Some e) => (out, e)
    | (out, None) => (out, Saved)
    end.
Proof. unfold process, coords. now rewrite pixel_loop_visit. Qed.

Lemma survivors_nil_forallb means stddevs colors :
  survivors nFlag means stddevs colors = []
  <-> forallb (rejected nFlag means stddevs) colors = true.
Proof.
  unfold survivors. induction colors as [|c colors IH]; simpl; [tauto|].
  destruct (rejected nFlag means stddevs c); simpl; [exact IH|].
  split; congruence.
Qed.

Lemma meanColor_all_rejected (colors : list color.Color) :
  all_rejected nFlag colors = true ->
  meanColor nFlag colors = Err (removed_all (F:=F)).
Proof.
  intros Hall. destruct colors as [|c colors].
  - discriminate Hall.
  - assert (Hne : c :: colors <> []) by congruence.
    unfold all_rejected in Hall. rewrite (stack_stats_nonempty Hne) in Hall.
    rewrite (meanColor_nonempty nFlag Hne).
    apply survivors_nil_forallb in Hall. now rewrite Hall.
Qed.

Lemma meanColor_some_kept (colors : list color.Color) :
  colors <> [] -> all_rejected nFlag colors = false ->
  exists c, meanColor nFlag colors = Ok c.
Proof.
  intros Hne Hall.
  unfold all_rejected in Hall. rewrite (stack_stats_nonempty Hne) in Hall.
  rewrite (meanColor_nonempty nFlag Hne).
  destruct (survivors nFlag (stack_means colors) (stack_stddevs colors) colors) eqn:E.
  - apply survivors_nil_forallb in E. congruence.
  - eauto.
Qed.

Lemma visit_all_kept images cs out :
  images <> [] ->
  Forall (fun p => all_rejected nFlag (colors (fst p) (snd p) images) = false) cs ->
  exists sets, visit nFlag images cs out = (out ++ sets, None)
               /\ map fst sets = cs
               /\ Forall (fun s => meanColor nFlag
                                     (colors (fst (fst s)) (snd (fst s)) images)
                                   = Ok (snd s)) sets.
Proof.
  intros Hne Hcs. revert out.
  induction Hcs as [|[x y] cs Hp _ IH]; intros out.
  - exists []. simpl. rewrite app_nil_r. auto.
  - simpl in Hp. cbn [visit].
    destruct (meanColor_some_kept (colors_nonempty x y Hne) Hp) as [c Hc].
    rewrite Hc.
    destruct (IH (out ++ [((x, y), c)])) as [sets (E & Hsets & Hmean)].
    exists (((x, y), c) :: sets). rewrite E, <- app_assoc. simpl.
    rewrite Hsets. repeat split; auto.
Qed.

Lemma first_true (A : Type) (P : A -> bool) (l : list A) (a : A) :
  In a l -> P a = true ->
  exists pre b post,
    l = pre ++ b :: post /\ P b = true /\ Forall (fun p => P p = false) pre.
Proof.
  induction l as [|h l IH]; intros Hin Ha; [destruct Hin|].
  destruct (P h) eqn:Hh.
  - exists [], h, l. auto.
  - destruct Hin as [->|Hin]; [congruence|].
    destruct (IH Hin Ha) as (pre & b & post & -> & Hb & Hpre).
    exists (h :: pre), b, post. auto.
Qed.

Lemma same_bounds_find (first : image.Image) (images : list image.Image) :
  (forall i, In i images -> image.Bounds i = image.Bounds first) ->
  find (fun i => negb (image.Rectangle_eqb (image.Bounds i) (image.Bounds first)))
    images = None.
Proof.
  intros Hsame. induction images as [|i images IH]; [reflexivity|].
  simpl. rewrite (proj2 (Rectangle_eqb_eq _ _) (Hsame i (or_introl eq_refl))).
  simpl. apply IH. intros j Hj. apply Hsame. now right.
Qed.

(** C4, as amended: with no image at all the run ends in the fatal
    [no files found] before any pixel is processed; a single image passes
    the bounds check and goes through the pixel loop like any other stack. *)
Theorem main_checks_only_for_no_image :
  main pathFlag nFlag []
  = ([], Fatalf "no files found for path: %v" [VString pathFlag])
  /\ forall i : image.Image,
       main pathFlag nFlag [i] = process nFlag [i] (image.Bounds i).
Proof.
  split; [reflexivity|].
  intros i. unfold main. rewrite (@same_bounds_find i [i]); [reflexivity|].
  intros j [<-|[]]. reflexivity.
Qed.

(** C5: when the pixels of all images are rejected at some coordinate of
    the bounds, [meanColor] returns the removed-all-pixels error there, and
    the run ends at the first such coordinate of the loop's order: the
    [out.Set] calls made are those of the coordinates before it, and the
    fatal message carries that coordinate and the error whose text asks for
    a higher [--N]. *)
Theorem main_halts_at_first_all_rejected
  (first : image.Image) (rest : list image.Image) (x y : Z) :
  (forall i, In i (first :: rest) -> image.Bounds i = image.Bounds first) ->
  In (x, y) (coords (image.Bounds first)) ->
  all_rejected nFlag (colors x y (first :: rest)) = true ->
  meanColor nFlag (colors x y (first :: rest))
  = Err (Errorf "standard deviation filter removed all pixels; use a higher --N value to make the filter more permissive" [])
  /\ exists pre x0 y0 post sets,
       coords (image.Bounds first) = pre ++ (x0, y0) :: post
       /\ all_rejected nFlag (colors x0 y0 (first :: rest)) = true
       /\ Forall (fun p => all_rejected nFlag (colors (fst p) (snd p) (first :: rest)) = false) pre
       /\ map fst sets = pre
       /\ main pathFlag nFlag (first :: rest)
          = (sets,
             Fatalf "failed to get mean pixel color at x=%v y=%v: %v"
               [VInt x0; VInt y0;
                VError (Errorf "standard deviation filter removed all pixels; use a higher --N value to make the filter more permissive" [])]).
Proof.
  intros Hsame Hin Hall.
  split; [now apply meanColor_all_rejected|].
  destruct (first_true
              (fun p => all_rejected nFlag (colors (fst p) (snd p) (first :: rest)))
              _ _ Hin Hall)
    as (pre & [x0 y0] & post & Hsplit & Hall0 & Hpre).
  simpl in Hall0.
  assert (Hne : first :: rest <> []) by congruence.
  destruct (visit_all_kept [] Hne Hpre) as [sets (Hvisit & Hsets & _)].
  exists pre, x0, y0, post, sets. repeat split; auto.
  unfold main. rewrite (@same_bounds_find first (first :: rest) Hsame).
  rewrite process_visit, Hsplit, visit_app, Hvisit.
  cbn [visit app]. now rewrite (meanColor_all_rejected _ Hall0).
Qed.

(** C6: when the bounds of some image differ from those of the first, the
    run ends in the fatal [cannot merge images of different sizes], whose
    arguments are the differing bounds and the first image's bounds, and no
    [out.Set] call has been made. *)
Theorem main_rejects_different_bounds
  (first : image.Image) (rest : list image.Image) (j : image.Image) :
  In j (first :: rest) -> image.Bounds j <> image.Bounds first ->
  exists i,
    In i (first :: rest) /\ image.Bounds i <> image.Bounds first
    /\ main pathFlag nFlag (first :: rest)
       = ([], Fatalf "unsupported operation; cannot merge images of different sizes: %v, %v"
                [VRect (image.Bounds i); VRect (image.Bounds first)]).
Proof.
  intros Hj Hdiff. unfold main.
  destruct (find (fun i => negb (image.Rectangle_eqb (image.Bounds i) (image.Bounds first)))
              (first :: rest)) as [i|] eqn:E.
  - apply find_some in E. destruct E as [Hi Hb].
    exists i. repeat split; auto.
    intros Heq. apply Rectangle_eqb_eq in Heq. rewrite Heq in Hb. discriminate.
  - exfalso. apply (find_none _ _ E) in Hj.
    apply negb_false_iff, Rectangle_eqb_eq in Hj. contradiction.
Qed.

(** [colors] returns the pixel of every image at the coordinate, in the
    order of the images. *)
Theorem colors_in_image_order (x y : Z) (images : list image.Image) :
  colors x y images = map (fun i => image.At i x y) images
  /\ List.length (colors x y images) = List.length images.
Proof.
  rewrite colors_map. split; [reflexivity | apply length_map].
Qed.

(** On an empty stack [meanColor] returns the error of the first mean. *)
Theorem meanColor_empty_stack :
  meanColor nFlag []
  = Err (Errorf "failed to compute mean for %v: %v"
           [VFloats []; VError (StatsError stats.EmptyInputErr)]).
Proof. reflexivity. Qed.

(** On a stack of at least one pixel [meanColor] has two outcomes: the
    removed-all-pixels error, when every pixel is rejected, and a pixel
    otherwise; the errors of the statistics cannot occur. *)
Theorem meanColor_fails_only_when_all_rejected (colors : list color.Color) :
  colors <> [] ->
  (all_rejected nFlag colors = true
   /\ meanColor nFlag colors = Err (removed_all (F:=F)))
  \/ (all_rejected nFlag colors = false
      /\ exists c, meanColor nFlag colors = Ok c).
Proof.
  intros Hne. destruct (all_rejected nFlag colors) eqn:E.
  - left. split; [reflexivity | now apply meanColor_all_rejected].
  - right. split; [reflexivity | now apply meanColor_some_kept].
Qed.

(** When the images share their bounds and no coordinate has all its pixels
    rejected, the run reaches the end of the loop, and [out.Set] has been
    called once for every coordinate of the bounds, in the loop's order,
    each time with what [meanColor] returns for that coordinate. *)
Theorem main_sets_every_coordinate
  (first : image.Image) (rest : list image.Image) :
  (forall i, In i (first :: rest) -> image.Bounds i = image.Bounds first) ->
  Forall (fun p => all_rejected nFlag (colors (fst p) (snd p) (first :: rest)) = false)
    (coords (image.Bounds first)) ->
  exists sets,
    main pathFlag nFlag (first :: rest) = (sets, Saved)
    /\ map fst sets = coords (image.Bounds first)
    /\ Forall (fun s => meanColor nFlag
                          (colors (fst (fst s)) (snd (fst s)) (first :: rest))
                        = Ok (snd s)) sets.
Proof.
  intros Hsame Hkept.
  assert (Hne : first :: rest <> []) by congruence.
  destruct (visit_all_kept [] Hne Hkept) as [sets (Hvisit & Hsets & Hmean)].
  exists sets. repeat split; auto.
  unfold main. rewrite (@same_bounds_find first (first :: rest) Hsame).
  now rewrite process_visit, Hvisit.
Qed.

End Run.

(** * The sample standard deviation, over the real numbers *)

Section ExactArithmetic.

Local Open Scope R_scope.






Lemma two_nonempty (A : Type) (l : list A) :
  (2 <= List.length l)%nat -> l <> [].
Proof. destruct l; simpl; [lia | congruence]. Qed.



End ExactArithmetic.

(** * The theorems at concrete inputs *)

Section Instances.

Local Open Scope string_scope.
Local Open Scope list_scope.

(** A run on one 1x1 image is not refused: the pixel is processed and the
    run reaches the end of the loop, with the image's own pixel as output
    (the standard deviation of a single value is [0/0], a NaN, and no
    comparison with a NaN holds, so the pixel is kept). *)
Lemma single_image_run_is_processed :
  (List.length [Examples.one_pixel_image] < 2)%nat
  /\ main "Demo/Input/*.jpeg" Examples.N_default [Examples.one_pixel_image]
     = ([((0, 0)%Z, Examples.grey)], Saved).
Proof. split; [simpl; lia | vm_compute; reflexivity]. Qed.

Lemma meanColor_mean_of_survivors_witness :
  ([Examples.black; Examples.black; Examples.black; Examples.black; Examples.white] <> []
   /\ survivors Examples.N_default
        (stack_means [Examples.black; Examples.black; Examples.black; Examples.black; Examples.white])
        (stack_stddevs [Examples.black; Examples.black; Examples.black; Examples.black; Examples.white])
        [Examples.black; Examples.black; Examples.black; Examples.black; Examples.white] <> [])
  /\ meanColor Examples.N_default [Examples.black; Examples.black; Examples.black; Examples.black; Examples.white]
     = Ok Examples.black.
Proof.
  assert (Hne : [Examples.black; Examples.black; Examples.black; Examples.black; Examples.white] <> [])
    by discriminate.
  assert (Hsurv : survivors Examples.N_default
            (stack_means [Examples.black; Examples.black; Examples.black; Examples.black; Examples.white])
            (stack_stddevs [Examples.black; Examples.black; Examples.black; Examples.black; Examples.white])
            [Examples.black; Examples.black; Examples.black; Examples.black; Examples.white] <> [])
    by (vm_compute; discriminate).
  split; [split; assumption|].
  destruct (meanColor_mean_of_survivors Examples.N_default Hne Hsurv) as [_ ->].
  vm_compute. reflexivity.
Defined.

Lemma main_halts_at_first_all_rejected_witness :
  ((forall i, In i [Examples.black_image; Examples.white_image] ->
      image.Bounds i = image.Bounds Examples.black_image)
   /\ In (0, 0)%Z (coords (image.Bounds Examples.black_image))
   /\ all_rejected 0.5%float
        (colors 0 0 [Examples.black_image; Examples.white_image]) = true)
  /\ (meanColor 0.5%float (colors 0 0 [Examples.black_image; Examples.white_image])
      = Err (Errorf "standard deviation filter removed all pixels; use a higher --N value to make the filter more permissive" [])
      /\ exists pre x0 y0 post sets,
           coords (image.Bounds Examples.black_image) = pre ++ (x0, y0) :: post
           /\ all_rejected 0.5%float
                (colors x0 y0 [Examples.black_image; Examples.white_image]) = true
           /\ Forall (fun p => all_rejected 0.5%float
                                 (colors (fst p) (snd p)
                                    [Examples.black_image; Examples.white_image]) = false) pre
           /\ map fst sets = pre
           /\ main "Demo/Input/*.jpeg" 0.5%float
                [Examples.black_image; Examples.white_image]
              = (sets,
                 Fatalf "failed to get mean pixel color at x=%v y=%v: %v"
                   [VInt x0; VInt y0;
                    VError (Errorf "standard deviation filter removed all pixels; use a higher --N value to make the filter more permissive" [])])).
Proof.
  assert (Hsame : forall i, In i [Examples.black_image; Examples.white_image] ->
            image.Bounds i = image.Bounds Examples.black_image)
    by (intros i [<-|[<-|[]]]; reflexivity).
  assert (Hin : In (0, 0)%Z (coords (image.Bounds Examples.black_image)))
    by (left; reflexivity).
  assert (Hall : all_rejected 0.5%float
            (colors 0 0 [Examples.black_image; Examples.white_image]) = true)
    by (vm_compute; reflexivity).
  split; [repeat split; assumption|].
  exact (@main_halts_at_first_all_rejected float binary64 "Demo/Input/*.jpeg"
           0.5%float Examples.black_image [Examples.white_image] 0%Z 0%Z
           Hsame Hin Hall).
Defined.

Lemma main_rejects_different_bounds_witness :
  (In Examples.two_pixel_image [Examples.one_pixel_image; Examples.two_pixel_image]
   /\ image.Bounds Examples.two_pixel_image <> image.Bounds Examples.one_pixel_image)
  /\ exists i,
       In i [Examples.one_pixel_image; Examples.two_pixel_image]
       /\ image.Bounds i <> image.Bounds Examples.one_pixel_image
       /\ main "Demo/Input/*.jpeg" Examples.N_default
            [Examples.one_pixel_image; Examples.two_pixel_image]
          = ([], Fatalf "unsupported operation; cannot merge images of different sizes: %v, %v"
                   [VRect (image.Bounds i); VRect (image.Bounds Examples.one_pixel_image)]).
Proof.
  assert (Hin : In Examples.two_pixel_image
                  [Examples.one_pixel_image; Examples.two_pixel_image])
    by (right; left; reflexivity).
  assert (Hdiff : image.Bounds Examples.two_pixel_image
                  <> image.Bounds Examples.one_pixel_image)
    by (simpl; discriminate).
  split; [split; assumption|].
  exact (@main_rejects_different_bounds float binary64 "Demo/Input/*.jpeg"
           Examples.N_default Examples.one_pixel_image [Examples.two_pixel_image]
           Examples.two_pixel_image Hin Hdiff).
Defined.


(** Two identical pixels in binary64 at the default [N]: the standard
    deviation is 0, nothing is divided by zero, and the pixel comes back. *)
Theorem binary64_identical_pixels :
  stack_stddevs (F:=float) [Examples.grey; Examples.grey]
  = [0%float; 0%float; 0%float; 0%float]
  /\ meanColor Examples.N_default [Examples.grey; Examples.grey] = Ok Examples.grey.
Proof. split; vm_compute; reflexivity. Qed.

(** Three pixels in binary64 whose red values are 0, 100 and 200, with
    [N = 2]: all survive and the red output is 100. *)
Theorem binary64_three_reds :
  meanColor 2%float
    [color.mkColor 0 0 0 65535; color.mkColor 100 0 0 65535;
     color.mkColor 200 0 0 65535]
  = Ok (color.mkColor 100 0 0 65535).
Proof. vm_compute. reflexivity. Qed.

Lemma meanColor_fails_only_when_all_rejected_witness :
  [Examples.black; Examples.white] <> []
  /\ ((all_rejected 0.5%float [Examples.black; Examples.white] = true
       /\ meanColor 0.5%float [Examples.black; Examples.white]
          = Err (removed_all (F:=float)))
      \/ (all_rejected 0.5%float [Examples.black; Examples.white] = false
          /\ exists c, meanColor 0.5%float [Examples.black; Examples.white] = Ok c)).
Proof.
  assert (Hne : [Examples.black; Examples.white] <> []) by discriminate.
  split; [assumption|].
  exact (@meanColor_fails_only_when_all_rejected float binary64 0.5%float
           [Examples.black; Examples.white] Hne).
Defined.

Lemma main_sets_every_coordinate_witness :
  ((forall i, In i [Examples.two_pixel_image; Examples.two_pixel_image] ->
      image.Bounds i = image.Bounds Examples.two_pixel_image)
   /\ Forall (fun p => all_rejected Examples.N_default
                         (colors (fst p) (snd p)
                            [Examples.two_pixel_image; Examples.two_pixel_image]) = false)
        (coords (image.Bounds Examples.two_pixel_image)))
  /\ exists sets,
       main "Demo/Input/*.jpeg" Examples.N_default
         [Examples.two_pixel_image; Examples.two_pixel_image] = (sets, Saved)
       /\ map fst sets = coords (image.Bounds Examples.two_pixel_image)
       /\ Forall (fun s => meanColor Examples.N_default
                             (colors (fst (fst s)) (snd (fst s))
                                [Examples.two_pixel_image; Examples.two_pixel_image])
                           = Ok (snd s)) sets.
Proof.
  assert (Hsame : forall i, In i [Examples.two_pixel_image; Examples.two_pixel_image] ->
            image.Bounds i = image.Bounds Examples.two_pixel_image)
    by (intros i [<-|[<-|[]]]; reflexivity).
  assert (Hkept : Forall (fun p => all_rejected Examples.N_default
                         (colors (fst p) (snd p)
                            [Examples.two_pixel_image; Examples.two_pixel_image]) = false)
        (coords (image.Bounds Examples.two_pixel_image)))
    by (repeat constructor).
  split; [split; assumption|].
  exact (@main_sets_every_coordinate float binary64 "Demo/Input/*.jpeg"
           Examples.N_default Examples.two_pixel_image [Examples.two_pixel_image]
           Hsame Hkept).
Defined.

End Instances.

(** * The coordinates the pixel loop visits *)

From Stdlib Require Import Permutation.

Section Bounds.

Local Open Scope Z_scope.

Lemma range_In (lo hi v : Z) : In v (range lo hi) <-> lo <= v < hi.
Proof.
  unfold range. rewrite in_map_iff. split.
  - intros [k [<- Hk]]. apply in_seq in Hk. lia.
  - intros Hv. exists (Z.to_nat (v - lo)). split; [lia|].
    apply in_seq. lia.
Qed.

Lemma range_NoDup (lo hi : Z) : NoDup (range lo hi).
Proof.
  unfold range. apply Finite.Injective_map_NoDup; [|apply seq_NoDup].
  intros a b E. lia.
Qed.

Lemma coords_In (bounds : image.Rectangle) (x y : Z) :
  In (x, y) (coords bounds)
  <-> image.X (image.Min bounds) <= x < image.X (image.Max bounds)
      /\ image.Y (image.Min bounds) <= y < image.Y (image.Max bounds).
Proof.
  unfold coords. rewrite in_flat_map. split.
  - intros [y' [Hy Hx]]. apply in_map_iff in Hx. destruct Hx as [x' [E Hx]].
    inversion E; subst. apply range_In in Hy, Hx. tauto.
  - intros [Hx Hy]. exists y. split; [now apply range_In|].
    apply in_map_iff. exists x. split; [reflexivity | now apply range_In].
Qed.

Lemma rows_NoDup (xs ys : list Z) :
  NoDup xs -> NoDup ys ->
  NoDup (flat_map (fun y => map (fun x => (x, y)) xs) ys).
Proof.
  intros Hxs Hys. induction Hys as [|y ys Hy _ IH]; [constructor|].
  cbn [flat_map]. apply NoDup_app.
  - apply Finite.Injective_map_NoDup; [|assumption].
    intros a b E. now inversion E.
  - exact IH.
  - intros [x' y'] Hrow Hrest.
    apply in_map_iff in Hrow. destruct Hrow as [x0 [E _]]. inversion E; subst.
    apply in_flat_map in Hrest. destruct Hrest as [y0 [Hy0 Hin]].
    apply in_map_iff in Hin. destruct Hin as [x1 [E1 _]]. inversion E1; subst.
    contradiction.
Qed.

Lemma coords_NoDup (bounds : image.Rectangle) : NoDup (coords bounds).
Proof. unfold coords. apply rows_NoDup; apply range_NoDup. Qed.

End Bounds.

Section Coverage.
Context {F : Type} `{Float64Ops F}.
Variable pathFlag : string.
Variable nFlag : F.

Local Open Scope list_scope.

(** What a loop over [cs] has done when it stops: it has called [out.Set]
    for a prefix of [cs], in order, and for all of [cs] when it stops
    without a fatal error. *)
Lemma visit_prefix (images : list image.Image) (cs : list (Z * Z))
  (out : list set_call) :
  exists sets rest,
    fst (visit nFlag images cs out) = out ++ sets
    /\ cs = map fst sets ++ rest
    /\ (snd (visit nFlag images cs out) = None -> rest = [])
    /\ snd (visit nFlag images cs out) <> Some Saved.
Proof.
  revert out. induction cs as [|[x y] cs IH]; intros out.
  - exists [], []. simpl. rewrite app_nil_r. repeat split; auto. discriminate.
  - cbn [visit]. destruct (meanColor nFlag (colors x y images)) as [c|err].
    + destruct (IH (out ++ [((x, y), c)])) as (sets & rest & E & Hcs & Hrest & Hf).
      exists (((x, y), c) :: sets), rest. rewrite E, <- app_assoc.
      simpl. rewrite Hcs at 1. auto.
    + exists [], ((x, y) :: cs). simpl. rewrite app_nil_r.
      repeat split; auto; discriminate.
Qed.

(** Whatever the pixels and however the run ends, [out.Set] is only called
    on coordinates within the first image's bounds, never twice on the same
    coordinate; and when the run reaches the end of the loop, it has been
    called on every coordinate of the bounds. *)
Theorem main_sets_within_bounds_once
  (first : image.Image) (rest : list image.Image) :
  NoDup (map fst (fst (main pathFlag nFlag (first :: rest))))
  /\ (forall x y,
        In (x, y) (map fst (fst (main pathFlag nFlag (first :: rest)))) ->
        (image.X (image.Min (image.Bounds first)) <= x
           < image.X (image.Max (image.Bounds first))
         /\ image.Y (image.Min (image.Bounds first)) <= y
              < image.Y (image.Max (image.Bounds first)))%Z)
  /\ (snd (main pathFlag nFlag (first :: rest)) = Saved ->
      forall x y,
        (image.X (image.Min (image.Bounds first)) <= x
           < image.X (image.Max (image.Bounds first))
         /\ image.Y (image.Min (image.Bounds first)) <= y
              < image.Y (image.Max (image.Bounds first)))%Z ->
        In (x, y) (map fst (fst (main pathFlag nFlag (first :: rest))))).
Proof.
  unfold main.
  destruct (find _ (first :: rest)) as [i|].
  - simpl. split; [constructor | split; [intros x y [] | discriminate]].
  - rewrite process_visit.
    destruct (visit_prefix (first :: rest) (coords (image.Bounds first)) [])
      as (sets & tl & E & Hcs & Htl & Hf).
    destruct (visit nFlag (first :: rest) (coords (image.Bounds first)) [])
      as [out [e|]]; simpl in *; subst out.
    + split; [|split].
      * pose proof (coords_NoDup (image.Bounds first)) as Hnd.
        rewrite Hcs in Hnd. now apply NoDup_app_remove_r in Hnd.
      * intros x y Hin. apply coords_In. rewrite Hcs. apply in_or_app. now left.
      * intros Hs. subst e. now contradiction Hf.
    + rewrite (Htl eq_refl), app_nil_r in Hcs.
      split; [|split].
      * rewrite <- Hcs. apply coords_NoDup.
      * intros x y Hin. apply coords_In. now rewrite Hcs.
      * intros _ x y Hxy. rewrite <- Hcs. now apply coords_In.
Qed.

End Coverage.

(** * The statistics of a stack, channel by channel *)

Section StackStatistics.
Context {F : Type} `{Float64Ops F}.

(** [means[i]] and [stddevs[i]] of a stack, for the four channels. *)
Lemma at_index_stack_means (colors : list color.Color) (i : nat) :
  (i < 4)%nat ->
  at_index (stack_means colors) i = stats.mean (map (sample i) colors).
Proof.
  intros Hi. unfold stack_means, at_index. rewrite channels_of_maps.
  destruct i as [|[|[|[|i]]]]; try lia; reflexivity.
Qed.

Lemma at_index_stack_stddevs (colors : list color.Color) (i : nat) :
  (i < 4)%nat ->
  at_index (stack_stddevs colors) i = stats.stddev (map (sample i) colors).
Proof.
  intros Hi. unfold stack_stddevs, at_index. rewrite channels_of_maps.
  destruct i as [|[|[|[|i]]]]; try lia; reflexivity.
Qed.

End StackStatistics.

(** * The whole of [main]: files in, file out

    Lines 36-57 and 81-90 of [main] call [filepath.Glob], [os.Open],
    [image.Decode], [os.Create] and [jpeg.Encode].  What these return is
    taken as given (the variables of the section); the order of the calls,
    the tests on their results and the fatal messages are those of [main]. *)

(** What the run does outside its own memory, in order. *)
Inductive event : Type :=
| EGlob (pattern : string)
| EOpen (path : string)
| EDecode (path : string)
| ESet (call : set_call)
| ECreate (name : string)
| EEncode (name : string) (out : list set_call).

Section Files.
Context {F : Type} `{Float64Ops F}.

(** The errors of [filepath], [os], [image] and [jpeg]. *)
Variable OSError : Type.

(** [filepath.Glob(pattern)]. *)
Variable Glob : string -> result OSError (list string).
(** [os.Open(p)]: the error, if there is one. *)
Variable Open : string -> option OSError.
(** [image.Decode(f)] of the file opened at a path. *)
Variable Decode : string -> result OSError image.Image.
(** [os.Create(name)]: the error, if there is one. *)
Variable Create : string -> option OSError.
(** [jpeg.Encode(f, out, ...)] into the file created at a name. *)
Variable Encode : string -> list set_call -> option OSError.

(** The flags [--path], [--output] and [--N]. *)
Variable pathFlag : string.
Variable outFlag : string.
Variable nFlag : F.

Local Open Scope string_scope.
Local Open Scope list_scope.

(** An argument of a fatal message of the whole run: a value of the pixel
    part, the file [f] opened at a path, or an error of the system. *)
Inductive operand : Type :=
| OValue (v : value F)
| OFile (path : string)
| OError (e : OSError).

(** How the whole run ends. *)
Inductive ending : Type :=
| EFatalf (format : string) (args : list operand)
| EDone.

(** Lines 44-57: open and decode every path, in order; the first failure
    exits the run. *)
Fixpoint load (paths : list string) (images : list image.Image)
  (trace : list event)
  : list event * result (string * list operand) (list image.Image) :=
  match paths with
  | [] => (trace, Ok images)
  | p :: paths' =>
      match Open p with
      | Some err =>
          (trace ++ [EOpen p],
           Err ("failed opening %v: %v", [OValue (VString p); OError err]))
      | None =>
          match Decode p with
          | Err err =>
              (trace ++ [EOpen p; EDecode p],
               Err ("failed decoding image %v: %v", [OFile p; OError err]))
          | Ok i => load paths' (images ++ [i]) (trace ++ [EOpen p; EDecode p])
          end
      end
  end.

(** Lines 81-90: create the output file and encode [out] into it. *)
Definition save (trace : list event) (out : list set_call)
  : list event * ending :=
  match Create outFlag with
  | Some err =>
      (trace ++ [ECreate outFlag],
       EFatalf "failed to create output file %v: %v"
         [OValue (VString outFlag); OError err])
  | None =>
      match Encode outFlag out with
      | Some err =>
          (trace ++ [ECreate outFlag; EEncode outFlag out],
           EFatalf "failed to save image to output file %v: %v"
             [OValue (VString outFlag); OError err])
      | None => (trace ++ [ECreate outFlag; EEncode outFlag out], EDone)
      end
  end.

(** The whole of [main].  After the images are loaded, lines 59-79 are
    [main] above (its own test for no image cannot fire here: there is one
    image per path, and the paths are not empty). *)
Definition run : list event * ending :=
  match Glob pathFlag with
  | Err err => ([EGlob pathFlag], EFatalf "failed to parse path: %v" [OError err])
  | Ok [] =>
      ([EGlob pathFlag],
       EFatalf "no files found for path: %v" [OValue (VString pathFlag)])
  | Ok paths =>
      match load paths [] [EGlob pathFlag] with
      | (trace, Err (format, args)) => (trace, EFatalf format args)
      | (trace, Ok images) =>
          match main pathFlag nFlag images with
          | (sets, Fatalf format args) =>
              (trace ++ map ESet sets, EFatalf format (map OValue args))
          | (sets, Saved) => save (trace ++ map ESet sets) sets
          end
      end
  end.

(** The events of opening and decoding a list of paths. *)
Definition loading (paths : list string) : list event :=
  flat_map (fun p => [EOpen p; EDecode p]) paths.

(** A path opens and decodes to an image. *)
Definition loads (p : string) (i : image.Image) : Prop :=
  Open p = None /\ Decode p = Ok i.

Definition is_create (e : event) : bool :=
  match e with ECreate _ => true | _ => false end.

Lemma load_no_create (paths : list string) (images : list image.Image)
  (trace : list event) :
  existsb is_create (fst (load paths images trace)) = existsb is_create trace.
Proof.
  revert images trace. induction paths as [|p paths IH]; intros images trace.
  - reflexivity.
  - cbn [load]. destruct (Open p) as [err|].
    + simpl. rewrite existsb_app. simpl. now rewrite !orb_false_r.
    + destruct (Decode p) as [i|err].
      * rewrite IH, existsb_app. simpl. now rewrite !orb_false_r.
      * simpl. rewrite existsb_app. simpl. now rewrite !orb_false_r.
Qed.

Lemma load_good (paths : list string) (new images : list image.Image)
  (trace : list event) :
  Forall2 loads paths new ->
  load paths images trace = (trace ++ loading paths, Ok (images ++ new)).
Proof.
  intros Hl. revert images trace.
  induction Hl as [|p i paths new [Ho Hd] _ IH]; intros images trace.
  - simpl. now rewrite !app_nil_r.
  - cbn [load]. rewrite Ho, Hd, IH. unfold loading. cbn [flat_map].
    now rewrite <- !app_assoc.
Qed.

Lemma load_Ok_inv (paths : list string) (images : list image.Image)
  (trace trace' : list event) (loaded : list image.Image) :
  load paths images trace = (trace', Ok loaded) ->
  exists new,
    loaded = images ++ new /\ Forall2 loads paths new
    /\ trace' = trace ++ loading paths.
Proof.
  revert images trace. induction paths as [|p paths IH]; intros images trace Hl.
  - simpl in Hl. injection Hl as <- <-. exists []. rewrite !app_nil_r.
    repeat split; constructor.
  - cbn [load] in Hl. destruct (Open p) as [err|] eqn:Ho; [discriminate|].
    destruct (Decode p) as [i|err] eqn:Hd; [|discriminate].
    destruct (IH _ _ Hl) as (new & -> & Hnew & ->).
    exists (i :: new). rewrite <- !app_assoc. repeat split.
    constructor; [split; assumption | assumption].
Qed.

Lemma load_first_bad (good rest : list string) (p : string)
  (new images : list image.Image) (trace : list event) :
  Forall2 loads good new ->
  load (good ++ p :: rest) images trace
  = match Open p with
    | Some err =>
        (trace ++ loading good ++ [EOpen p],
         Err ("failed opening %v: %v", [OValue (VString p); OError err]))
    | None =>
        match Decode p with
        | Err err =>
            (trace ++ loading good ++ [EOpen p; EDecode p],
             Err ("failed decoding image %v: %v", [OFile p; OError err]))
        | Ok i => load rest (images ++ new ++ [i])
                    (trace ++ loading good ++ [EOpen p; EDecode p])
        end
    end.
Proof.
  intros Hl. revert images trace.
  induction Hl as [|q i good new [Ho Hd] _ IH]; intros images trace.
  - cbn [app load loading flat_map].
    destruct (Open p); [reflexivity|]. destruct (Decode p); reflexivity.
  - cbn [app load]. rewrite Ho, Hd, IH. unfold loading. cbn [flat_map].
    destruct (Open p); [|destruct (Decode p)];
      rewrite <- !app_assoc; reflexivity.
Qed.

(** When some file fails to open or to decode, the run ends at the first
    such file, in the order [filepath.Glob] returned: the files before it
    have been opened and decoded, no later file is opened, no pixel is
    computed and no output file is created; the fatal message carries the
    path (the opened file, for a decoding error) and the error. *)
Theorem run_stops_at_first_bad_file
  (good rest : list string) (p : string) (loaded : list image.Image) :
  Glob pathFlag = Ok (good ++ p :: rest) ->
  Forall2 loads good loaded ->
  (forall err, Open p = Some err ->
     run = (EGlob pathFlag :: loading good ++ [EOpen p],
            EFatalf "failed opening %v: %v" [OValue (VString p); OError err]))
  /\ (forall err, Open p = None -> Decode p = Err err ->
        run = (EGlob pathFlag :: loading good ++ [EOpen p; EDecode p],
               EFatalf "failed decoding image %v: %v" [OFile p; OError err])).
Proof.
  intros Hg Hl.
  assert (Hrun : run = match load (good ++ p :: rest) [] [EGlob pathFlag] with
                       | (trace, Err (format, args)) => (trace, EFatalf format args)
                       | (trace, Ok images) =>
                           match main pathFlag nFlag images with
                           | (sets, Fatalf format args) =>
                               (trace ++ map ESet sets, EFatalf format (map OValue args))
                           | (sets, Saved) => save (trace ++ map ESet sets) sets
                           end
                       end).
  { unfold run. rewrite Hg. destruct good; reflexivity. }
  rewrite Hrun, (load_first_bad rest p [] [EGlob pathFlag] Hl).
  split; intros err Ho.
  - rewrite Ho. reflexivity.
  - intros Hd. rewrite Ho, Hd. reflexivity.
Qed.

(** What it takes for the run to end well, and what it then did.  The run
    ends without a fatal error exactly when the pattern matched at least
    one path, every path opened and decoded, the pixel loop reached its
    end, and the output file was created and encoded.  And whenever these
    conditions hold, the run is determined: its events are the glob, the
    files in order, the [out.Set] calls, the creation of the output file
    and its encoding with exactly those calls. *)
Theorem run_done_iff :
  (snd run = EDone
   <-> exists paths images sets,
         Glob pathFlag = Ok paths /\ paths <> []
         /\ Forall2 loads paths images
         /\ main pathFlag nFlag images = (sets, Saved)
         /\ Create outFlag = None /\ Encode outFlag sets = None)
  /\ (forall paths images sets,
        Glob pathFlag = Ok paths -> paths <> [] ->
        Forall2 loads paths images ->
        main pathFlag nFlag images = (sets, Saved) ->
        Create outFlag = None -> Encode outFlag sets = None ->
        run = (EGlob pathFlag :: loading paths ++ map ESet sets
                 ++ [ECreate outFlag; EEncode outFlag sets],
               EDone)).
Proof.
  assert (Hdone : forall paths images sets,
            Glob pathFlag = Ok paths -> paths <> [] ->
            Forall2 loads paths images ->
            main pathFlag nFlag images = (sets, Saved) ->
            Create outFlag = None -> Encode outFlag sets = None ->
            run = (EGlob pathFlag :: loading paths ++ map ESet sets
                     ++ [ECreate outFlag; EEncode outFlag sets],
                   EDone)).
  { intros paths images sets Hg Hne Hl Hm Hc He.
    unfold run. rewrite Hg. destruct paths as [|p paths]; [congruence|].
    rewrite (load_good [] [EGlob pathFlag] Hl). cbn [app].
    rewrite Hm. unfold save. rewrite Hc, He.
    cbn [app]. rewrite <- ?app_assoc. reflexivity. }
  split; [|exact Hdone]. split.
  - unfold run. destruct (Glob pathFlag) as [[|p paths]|err] eqn:Hg;
      [discriminate | | discriminate].
    destruct (load (p :: paths) [] [EGlob pathFlag]) as [trace [images|[fmt args]]]
      eqn:Hl; [|discriminate].
    destruct (load_Ok_inv _ _ _ Hl) as (new & -> & Hnew & ->).
    destruct (main pathFlag nFlag ([] ++ new)) as [sets [fmt args|]] eqn:Hm;
      [discriminate|].
    unfold save. destruct (Create outFlag) eqn:Hc; [discriminate|].
    destruct (Encode outFlag sets) eqn:He; [discriminate|].
    intros _. exists (p :: paths), new, sets.
    repeat split; auto; discriminate.
  - intros (paths & images & sets & Hg & Hne & Hl & Hm & Hc & He).
    now rewrite (Hdone paths images sets Hg Hne Hl Hm Hc He).
Qed.

(** The output file is created only once every pixel has been computed:
    if [os.Create] is called at all, it is on [--output], every file has
    been loaded and the pixel loop has reached its end.  A run that ends
    fatally before that leaves an existing output file alone. *)
Theorem run_creates_output_last (name : string) :
  In (ECreate name) (fst run) ->
  name = outFlag
  /\ exists paths images sets,
       Glob pathFlag = Ok paths /\ paths <> []
       /\ Forall2 loads paths images
       /\ main pathFlag nFlag images = (sets, Saved).
Proof.
  assert (Hex : forall l, In (ECreate name) l -> existsb is_create l = true).
  { intros l Hin. apply existsb_exists. exists (ECreate name). auto. }
  assert (Hsets : forall sets, existsb is_create (map ESet sets) = false).
  { induction sets; simpl; auto. }
  unfold run. destruct (Glob pathFlag) as [[|p paths]|err] eqn:Hg.
  - intros [E|[]]; discriminate E.
  - pose proof (load_no_create (p :: paths) [] [EGlob pathFlag]) as Hnc.
    destruct (load (p :: paths) [] [EGlob pathFlag]) as [trace [images|[fmt args]]]
      eqn:Hl; cbn [fst] in Hnc.
    + destruct (load_Ok_inv _ _ _ Hl) as (new & -> & Hnew & Htrace).
      destruct (main pathFlag nFlag ([] ++ new)) as [sets [fmt args|]] eqn:Hm.
      * cbn [fst]. intros Hin. apply Hex in Hin.
        rewrite existsb_app, Hnc, Hsets in Hin. discriminate Hin.
      * intros Hin.
        assert (Hname : name = outFlag).
        { unfold save in Hin.
          destruct (Create outFlag); [|destruct (Encode outFlag sets)];
            cbn [fst] in Hin; apply in_app_or in Hin;
            destruct Hin as [Hin|Hin];
            try (apply Hex in Hin; rewrite existsb_app, Hnc, Hsets in Hin;
                 discriminate Hin);
            simpl in Hin; intuition congruence. }
        split; [assumption|].
        exists (p :: paths), new, sets. repeat split; auto. discriminate.
    + cbn [fst]. intros Hin. apply Hex in Hin. rewrite Hnc in Hin.
      discriminate Hin.
  - intros [E|[]]; discriminate E.
Qed.

End Files.

(** * Stacks of one pixel and of two equal pixels, in binary64

    The 65536 values a channel can take are checked one by one by
    evaluation; the statements then hold for every pixel within the range
    of [RGBA()]. *)

(** [f] on every integer of [n] bits above the prefix [acc]. *)
Fixpoint forall_bits (n : nat) (f : Z -> bool) (acc : Z) : bool :=
  match n with
  | O => f acc
  | S n' => forall_bits n' f (2 * acc) && forall_bits n' f (2 * acc + 1)
  end.

Definition is_nan_sf (x : spec_float) : bool :=
  match x with S754_nan => true | _ => false end.

(** A channel of a stack of one pixel: its standard deviation is a NaN and
    its mean converts back to the value. *)
Definition single_check (v : Z) : bool :=
  is_nan_sf (Prim2SF (stats.stddev [Binary64.of_int v]))
  && (to_uint16 (stats.mean [Binary64.of_int v]) =? v)%Z.

(** A channel of a stack of two equal pixels, at the default [N]: the value
    is inside the band and the mean converts back to the value. *)
Definition pair_check (v : Z) : bool :=
  negb (outside Examples.N_default
          [stats.mean [Binary64.of_int v; Binary64.of_int v]]
          [stats.stddev [Binary64.of_int v; Binary64.of_int v]]
          0 (Binary64.of_int v))
  && (to_uint16 (stats.mean [Binary64.of_int v; Binary64.of_int v]) =? v)%Z.

Section Binary64Stacks.

Local Open Scope list_scope.

Lemma forall_bits_spec (n : nat) (f : Z -> bool) (acc v : Z) :
  forall_bits n f acc = true ->
  (acc * 2 ^ Z.of_nat n <= v < (acc + 1) * 2 ^ Z.of_nat n)%Z ->
  f v = true.
Proof.
  revert acc. induction n as [|n IH]; intros acc Hall Hv.
  - simpl in *. replace v with acc by lia. exact Hall.
  - cbn [forall_bits] in Hall. apply andb_true_iff in Hall. destruct Hall as [H0 H1].
    rewrite Nat2Z.inj_succ, Z.pow_succ_r in Hv by lia.
    destruct (Z_lt_ge_dec v ((2 * acc + 1) * 2 ^ Z.of_nat n)).
    + apply (IH (2 * acc)%Z); [assumption | lia].
    + apply (IH (2 * acc + 1)%Z); [assumption | lia].
Qed.

Lemma single_checked : forall_bits 16 single_check 0 = true.
Proof. vm_compute. reflexivity. Qed.

Lemma pair_checked : forall_bits 16 pair_check 0 = true.
Proof. vm_compute. reflexivity. Qed.

Lemma channel_in_range (c : color.Color) (i : nat) :
  color.in_range c -> (0 <= channel_value i c <= 65535)%Z.
Proof.
  intros (Hr & Hg & Hb & Ha). destruct i as [|[|[|i]]]; simpl; assumption.
Qed.

(** The test on a channel reads [means] and [stddevs] at its index only. *)
Lemma outside_at_index (F : Type) (H : Float64Ops F) (N : F)
  (means stddevs : list F) (i : nat) (x : F) :
  outside N means stddevs i x
  = outside N [at_index means i] [at_index stddevs i] 0 x.
Proof. reflexivity. Qed.

(** No value is outside a band whose standard deviation is a NaN. *)
Lemma nan_stddev_outside (N : float) (means stddevs : list float) (i : nat)
  (x : float) :
  Prim2SF (at_index stddevs i) = S754_nan ->
  outside N means stddevs i x = false.
Proof.
  intros Hs. unfold outside. cbn [fadd fsub fmul flt binary64].
  rewrite !ltb_spec, add_spec, sub_spec, !mul_spec, Hs.
  assert (Hm : SF64mul (Prim2SF N) S754_nan = S754_nan)
    by (destruct (Prim2SF N); reflexivity).
  rewrite Hm.
  assert (Ha : SF64add (Prim2SF (at_index means i)) S754_nan = S754_nan)
    by (destruct (Prim2SF (at_index means i)); reflexivity).
  assert (Hb : SF64sub (Prim2SF (at_index means i)) S754_nan = S754_nan)
    by (destruct (Prim2SF (at_index means i)); reflexivity).
  rewrite Ha, Hb.
  unfold SFltb. destruct (Prim2SF x); reflexivity.
Qed.

Lemma single_channel (c : color.Color) (i : nat) :
  color.in_range c ->
  Prim2SF (stats.stddev [sample (F:=float) i c]) = S754_nan
  /\ to_uint16 (stats.mean [sample (F:=float) i c]) = channel_value i c.
Proof.
  intros Hc. pose proof (channel_in_range i Hc) as Hv.
  assert (Hchk : single_check (channel_value i c) = true).
  { apply (@forall_bits_spec 16 single_check 0 _ single_checked).
    change (2 ^ Z.of_nat 16)%Z with 65536%Z. lia. }
  unfold single_check in Hchk. apply andb_true_iff in Hchk.
  destruct Hchk as [Hnan Hmean]. apply Z.eqb_eq in Hmean.
  split; [|exact Hmean].
  unfold sample. cbn [of_int binary64].
  destruct (Prim2SF (stats.stddev [Binary64.of_int (channel_value i c)]));
    try discriminate Hnan; reflexivity.
Qed.

Lemma single_pixel_kept (N : float) (c : color.Color) :
  color.in_range c ->
  rejected N (stack_means [c]) (stack_stddevs [c]) c = false.
Proof.
  intros Hc. apply not_true_is_false. rewrite rejected_some_channel.
  intros [i [Hi Ho]].
  rewrite nan_stddev_outside in Ho; [discriminate|].
  rewrite (at_index_stack_stddevs [c] Hi). cbn [map].
  now apply single_channel.
Qed.

Lemma single_pixel_returned (N : float) (c : color.Color) :
  color.in_range c -> meanColor N [c] = Ok c.
Proof.
  intros Hc.
  assert (Hne : [c] <> []) by discriminate.
  rewrite (meanColor_nonempty N Hne).
  unfold survivors. cbn [filter]. rewrite (single_pixel_kept N Hc). cbn [negb map].
  rewrite !(proj2 (single_channel _ Hc)). now destruct c.
Qed.

(** In binary64, for every [N] (a NaN or an infinity included), a stack of
    one pixel within the range of [RGBA()] has a NaN for standard deviation
    on every channel, loses nothing to the filter, and [meanColor] returns
    the pixel itself. *)
Theorem binary64_single_pixel_comes_back (N : float) (c : color.Color) :
  color.in_range c ->
  Forall (fun s => Prim2SF s = S754_nan) (stack_stddevs (F:=float) [c])
  /\ survivors N (stack_means [c]) (stack_stddevs [c]) [c] = [c]
  /\ meanColor N [c] = Ok c.
Proof.
  intros Hc. split; [|split].
  - unfold stack_stddevs. rewrite channels_of_maps. cbn [map].
    repeat constructor; now apply single_channel.
  - unfold survivors. cbn [filter]. now rewrite (single_pixel_kept N Hc).
  - now apply single_pixel_returned.
Qed.

Lemma visit_all_ok (F : Type) (H : Float64Ops F) (nFlag : F)
  (images : list image.Image) (g : Z * Z -> color.Color) (cs : list (Z * Z))
  (out : list set_call) :
  (forall p, In p cs -> meanColor nFlag (colors (fst p) (snd p) images) = Ok (g p)) ->
  visit nFlag images cs out = (out ++ map (fun p => (p, g p)) cs, None).
Proof.
  revert out. induction cs as [|[x y] cs IH]; intros out Hall.
  - simpl. now rewrite app_nil_r.
  - cbn [visit]. pose proof (Hall (x, y) (or_introl eq_refl)) as Hxy.
    cbn [fst snd] in Hxy. rewrite Hxy. cbn [map].
    rewrite IH by (intros p Hp; apply Hall; now right).
    now rewrite <- app_assoc.
Qed.

(** In binary64, for every [N], a run on a single image whose pixels are
    within the range of [RGBA()] reaches the end of the pixel loop and has
    called [out.Set] on every coordinate with the image's own pixel: the
    output is a copy of the input. *)
Theorem binary64_single_image_is_copied (pathFlag : string) (N : float)
  (i : image.Image) :
  (forall x y, color.in_range (image.At i x y)) ->
  main pathFlag N [i]
  = (map (fun p => (p, image.At i (fst p) (snd p))) (coords (image.Bounds i)),
     Saved).
Proof.
  intros Hrange. unfold main.
  rewrite (@same_bounds_find i [i]) by (intros j [<-|[]]; reflexivity).
  rewrite process_visit.
  rewrite (@visit_all_ok float binary64 N [i]
             (fun p => image.At i (fst p) (snd p))); [reflexivity|].
  intros [x y] _. cbn [fst snd]. rewrite colors_map. cbn [map].
  now apply single_pixel_returned.
Qed.

Lemma pair_channel (c : color.Color) (i : nat) :
  color.in_range c ->
  outside Examples.N_default
    [stats.mean [sample i c; sample i c]] [stats.stddev [sample i c; sample i c]]
    0 (sample i c) = false
  /\ to_uint16 (stats.mean [sample (F:=float) i c; sample i c]) = channel_value i c.
Proof.
  intros Hc. pose proof (channel_in_range i Hc) as Hv.
  assert (Hchk : pair_check (channel_value i c) = true).
  { apply (@forall_bits_spec 16 pair_check 0 _ pair_checked).
    change (2 ^ Z.of_nat 16)%Z with 65536%Z. lia. }
  unfold pair_check in Hchk. apply andb_true_iff in Hchk.
  destruct Hchk as [Hin Hmean]. apply Z.eqb_eq in Hmean.
  apply negb_true_iff in Hin. split; assumption.
Qed.

(** In binary64, at the default [N = 1.3], a stack of two equal pixels
    within the range of [RGBA()] loses nothing to the filter and
    [meanColor] returns the pixel: no rounding gets in the way. *)
Theorem binary64_identical_pair_comes_back (c : color.Color) :
  color.in_range c ->
  survivors Examples.N_default (stack_means [c; c]) (stack_stddevs [c; c]) [c; c]
  = [c; c]
  /\ meanColor Examples.N_default [c; c] = Ok c.
Proof.
  intros Hc.
  assert (Hkept : rejected Examples.N_default (stack_means [c; c])
                    (stack_stddevs [c; c]) c = false).
  { apply not_true_is_false. rewrite rejected_some_channel.
    intros [i [Hi Ho]]. rewrite outside_at_index in Ho.
    rewrite (at_index_stack_means [c; c] Hi),
            (at_index_stack_stddevs [c; c] Hi) in Ho.
    cbn [map] in Ho. rewrite (proj1 (pair_channel i Hc)) in Ho. discriminate. }
  assert (Hsurv : survivors Examples.N_default (stack_means [c; c])
                    (stack_stddevs [c; c]) [c; c] = [c; c]).
  { unfold survivors. cbn [filter]. now rewrite Hkept. }
  split; [assumption|].
  assert (Hne : [c; c] <> []) by discriminate.
  rewrite (meanColor_nonempty Examples.N_default Hne), Hsurv. cbn [map].
  rewrite !(proj2 (pair_channel _ Hc)). now destruct c.
Qed.

End Binary64Stacks.

(** * Rounding in binary64

    The theorems on the numbers the program computes are proved on the
    floats themselves.  The kernel's floats come with the specification of
    the IEEE-754 operations ([SpecFloat]: the operations on sign, mantissa
    and exponent, and the axioms of [FloatAxioms] that say the primitive
    operations compute them).  This part derives from that specification
    what the theorems need: every finite binary64 float is a whole number
    of units of 2^-1074; addition, subtraction and multiplication are the
    exact operation followed by one rounding to nearest (ties to even);
    that rounding is monotone; integers below 2^53 are floats, and their
    sums and exact quotients are computed exactly. *)

Unset Implicit Arguments.

Ltac cmp_cases :=
  repeat match goal with
  | H : context [Z.compare ?a ?b] |- _ =>
      destruct (Z.compare_spec a b); try lia; try discriminate
  | |- context [Z.compare ?a ?b] =>
      destruct (Z.compare_spec a b); try lia; try discriminate
  | H : context [Pos.compare ?a ?b] |- _ =>
      destruct (Pos.compare_spec a b); try lia; try discriminate
  | |- context [Pos.compare ?a ?b] =>
      destruct (Pos.compare_spec a b); try lia; try discriminate
  end.

Ltac sf_cases :=
  unfold SFleb, SFltb, SFeqb, SFcompare;
  change (Pos.compare_cont Eq ?a ?b) with (Pos.compare a b) in *;
  cbn [CompOpp]; intros; subst; try discriminate; try reflexivity;
  cmp_cases; cbn [CompOpp] in *; try discriminate; try reflexivity; try lia.

Section Rounding.
Local Open Scope Z_scope.

(** ** The number of binary digits *)

Lemma digits2_size (p : positive) : digits2_pos p = Pos.size p.
Proof. induction p; simpl; congruence. Qed.

Definition digits (M : Z) : Z := Zdigits2 M.

Lemma digits_log2 (M : Z) : 0 < M -> digits M = Z.log2 M + 1.
Proof.
  destruct M as [|p|p]; try lia. intros _. unfold digits, Zdigits2.
  rewrite digits2_size. destruct p; simpl; lia.
Qed.

Lemma digits_bounds (M : Z) : 0 < M -> 2 ^ (digits M - 1) <= M < 2 ^ digits M.
Proof.
  intros H. rewrite (digits_log2 _ H).
  replace (Z.log2 M + 1 - 1) with (Z.log2 M) by lia.
  replace (Z.log2 M + 1) with (Z.succ (Z.log2 M)) by lia.
  apply Z.log2_spec. assumption.
Qed.

Lemma digits_unique (M d : Z) : 2 ^ (d - 1) <= M < 2 ^ d -> 0 < M -> digits M = d.
Proof.
  intros H HM. rewrite (digits_log2 _ HM).
  assert (0 <= d - 1).
  { destruct (Z.le_gt_cases 0 (d - 1)); [assumption|].
    assert (d <= 0) by lia. destruct H as [_ H].
    destruct (Z.eq_dec d 0) as [->|]; [simpl in H; lia|].
    rewrite Z.pow_neg_r in H; lia. }
  assert (Z.log2 M = d - 1); [|lia].
  apply Z.log2_unique; [assumption|]. replace (Z.succ (d - 1)) with d by lia. assumption.
Qed.

Lemma digits_pos (M : Z) : 0 < M -> 0 < digits M.
Proof. intros H. rewrite (digits_log2 _ H). pose proof (Z.log2_nonneg M). lia. Qed.

Lemma digits_mono (M M' : Z) : 0 < M -> M <= M' -> digits M <= digits M'.
Proof.
  intros H H'. rewrite !digits_log2 by lia.
  pose proof (Z.log2_le_mono M M' H'). lia.
Qed.

Lemma digits_shift (M j : Z) : 0 < M -> 0 <= j -> digits (M * 2 ^ j) = digits M + j.
Proof.
  intros HM Hj. assert (0 < 2 ^ j) by (apply Z.pow_pos_nonneg; lia).
  rewrite !digits_log2 by nia.
  rewrite Z.log2_mul_pow2 by lia. lia.
Qed.

(** ** Shifting right and rounding to nearest, ties to even *)

Lemma iter_pos_iter (A : Type) (f : A -> A) (n : positive) (x : A) :
  iter_pos f n x = Pos.iter f x n.
Proof.
  revert x. induction n as [n IH|n IH|]; intros x; simpl.
  - rewrite !IH. rewrite <- Pos.iter_swap. rewrite <- Pos.iter_swap. reflexivity.
  - now rewrite !IH.
  - reflexivity.
Qed.

Lemma shr_1_spec (m : Z) (r s : bool) :
  0 <= m ->
  shr_1 (Build_shr_record m r s) = Build_shr_record (m / 2) (Z.odd m) (r || s).
Proof.
  intros Hm. rewrite <- Z.div2_div.
  destruct m as [|[p|p|]|p]; try reflexivity. lia.
Qed.

Definition shifted (M k : Z) : shr_record :=
  Build_shr_record (M / 2 ^ k) (Z.odd (M / 2 ^ (k - 1))) (negb (M mod 2 ^ (k - 1) =? 0)).

Lemma mod_pow2_succ (M k : Z) : 0 <= k ->
  M mod 2 ^ (k + 1) = M mod 2 ^ k + 2 ^ k * ((M / 2 ^ k) mod 2).
Proof.
  intros Hk. rewrite Z.pow_add_r by lia. change (2 ^ 1) with 2.
  assert (0 < 2 ^ k) by (apply Z.pow_pos_nonneg; lia).
  apply Z.rem_mul_r; lia.
Qed.

Lemma iter_shifted (M : Z) (p : positive) : 0 <= M ->
  iter_pos shr_1 p (Build_shr_record M false false) = shifted M (Zpos p).
Proof.
  intros HM. rewrite iter_pos_iter. induction p as [|p IH] using Pos.peano_ind.
  - change (shr_1 (Build_shr_record M false false) = shifted M 1).
    rewrite shr_1_spec by assumption. unfold shifted.
    change (1 - 1) with 0. change (2 ^ 1) with 2. change (2 ^ 0) with 1.
    rewrite Z.div_1_r, Z.mod_1_r. reflexivity.
  - rewrite Pos.iter_succ, IH. unfold shifted.
    assert (0 < 2 ^ Zpos p) by (apply Z.pow_pos_nonneg; lia).
    assert (0 < 2 ^ (Zpos p - 1)) by (apply Z.pow_pos_nonneg; lia).
    rewrite shr_1_spec by (apply Z.div_pos; lia).
    rewrite Pos2Z.inj_succ. unfold Z.succ.
    replace (Zpos p + 1 - 1) with (Zpos p) by lia.
    f_equal.
    + rewrite Z.pow_add_r by lia. change (2 ^ 1) with 2. rewrite Z.div_div by lia. reflexivity.
    + replace (Zpos p) with (Zpos p - 1 + 1) at 3 by lia.
      rewrite mod_pow2_succ by lia.
      pose proof (Z.mod_pos_bound M (2 ^ (Zpos p - 1)) ltac:(lia)).
      rewrite Zmod_odd.
      destruct (Z.odd (M / 2 ^ (Zpos p - 1))); cbn [orb].
      * symmetry. apply negb_true_iff, Z.eqb_neq. lia.
      * f_equal. f_equal. lia.
Qed.

Definition rne (M k : Z) : Z :=
  let q := M / 2 ^ k in
  match 2 * (M mod 2 ^ k) ?= 2 ^ k with
  | Lt => q
  | Eq => if Z.even q then q else q + 1
  | Gt => q + 1
  end.

Lemma rne_shifted (M : Z) (p : positive) : 0 <= M ->
  round_nearest_even (shr_m (shifted M (Zpos p))) (loc_of_shr_record (shifted M (Zpos p)))
  = rne M (Zpos p).
Proof.
  intros HM. unfold shifted, rne. cbn [shr_m loc_of_shr_record].
  assert (0 < 2 ^ (Zpos p - 1)) by (apply Z.pow_pos_nonneg; lia).
  assert (E : 2 ^ Zpos p = 2 * 2 ^ (Zpos p - 1)).
  { replace (Zpos p) with (Zpos p - 1 + 1) at 1 by lia.
    rewrite Z.pow_add_r by lia. change (2 ^ 1) with 2. lia. }
  assert (Hmod : M mod 2 ^ Zpos p
                 = M mod 2 ^ (Zpos p - 1) + 2 ^ (Zpos p - 1) * ((M / 2 ^ (Zpos p - 1)) mod 2)).
  { replace (Zpos p) with (Zpos p - 1 + 1) at 1 by lia. apply mod_pow2_succ. lia. }
  pose proof (Z.mod_pos_bound M (2 ^ (Zpos p - 1)) ltac:(lia)).
  rewrite Zmod_odd in Hmod.
  destruct (Z.odd (M / 2 ^ (Zpos p - 1))) eqn:Eo;
    destruct (M mod 2 ^ (Zpos p - 1) =? 0) eqn:Es; cbn [negb round_nearest_even];
    [apply Z.eqb_eq in Es | apply Z.eqb_neq in Es | apply Z.eqb_eq in Es | apply Z.eqb_neq in Es].
  - replace (2 * (M mod 2 ^ Zpos p) ?= 2 ^ Zpos p) with Eq; [reflexivity|].
    symmetry. apply Z.compare_eq_iff. lia.
  - replace (2 * (M mod 2 ^ Zpos p) ?= 2 ^ Zpos p) with Gt; [reflexivity|].
    symmetry. apply Z.compare_gt_iff. lia.
  - replace (2 * (M mod 2 ^ Zpos p) ?= 2 ^ Zpos p) with Lt; [reflexivity|].
    symmetry. apply Z.compare_lt_iff. lia.
  - replace (2 * (M mod 2 ^ Zpos p) ?= 2 ^ Zpos p) with Lt; [reflexivity|].
    symmetry. apply Z.compare_lt_iff. lia.
Qed.

Lemma rne_0 (M : Z) : rne M 0 = M.
Proof. unfold rne. change (2 ^ 0) with 1. rewrite Z.mod_1_r, Z.div_1_r. reflexivity. Qed.

Lemma rne_bounds (M k : Z) : 0 <= k -> M / 2 ^ k <= rne M k <= M / 2 ^ k + 1.
Proof.
  intros Hk. unfold rne.
  destruct (2 * (M mod 2 ^ k) ?= 2 ^ k); [destruct (Z.even _)| |]; lia.
Qed.

Lemma rne_mono (M M' k : Z) : 0 <= k -> M <= M' -> rne M k <= rne M' k.
Proof.
  intros Hk HM.
  assert (Hp : 0 < 2 ^ k) by (apply Z.pow_pos_nonneg; lia).
  pose proof (Z.div_le_mono M M' (2 ^ k) Hp HM) as Hq.
  destruct (Z.eq_dec (M / 2 ^ k) (M' / 2 ^ k)) as [E|NE].
  - pose proof (Z.div_mod M (2 ^ k) ltac:(lia)) as D1.
    pose proof (Z.div_mod M' (2 ^ k) ltac:(lia)) as D2.
    assert (M mod 2 ^ k <= M' mod 2 ^ k) by nia.
    unfold rne. rewrite <- E.
    destruct (Z.compare_spec (2 * (M mod 2 ^ k)) (2 ^ k));
      destruct (Z.compare_spec (2 * (M' mod 2 ^ k)) (2 ^ k));
      destruct (Z.even (M / 2 ^ k)); lia.
  - pose proof (rne_bounds M k Hk). pose proof (rne_bounds M' k Hk). lia.
Qed.

Lemma rne_shift (M k j : Z) : 0 <= k -> 0 <= j -> rne (M * 2 ^ j) (k + j) = rne M k.
Proof.
  intros Hk Hj. unfold rne.
  assert (0 < 2 ^ k) by (apply Z.pow_pos_nonneg; lia).
  assert (0 < 2 ^ j) by (apply Z.pow_pos_nonneg; lia).
  rewrite Z.pow_add_r by lia.
  rewrite Z.div_mul_cancel_r by lia.
  rewrite Z.mul_mod_distr_r by lia.
  replace (2 * (M mod 2 ^ k * 2 ^ j) ?= 2 ^ k * 2 ^ j) with (2 * (M mod 2 ^ k) ?= 2 ^ k);
    [reflexivity|].
  destruct (Z.compare_spec (2 * (M mod 2 ^ k)) (2 ^ k)); symmetry.
  - apply Z.compare_eq_iff. nia.
  - apply Z.compare_lt_iff. nia.
  - apply Z.compare_gt_iff. nia.
Qed.

(** ** What [binary_round_aux] and [binary_round] compute *)

Definition fexp64 (x : Z) : Z := Z.max (x - 53) (-1074).

Lemma fexp_fexp64 (x : Z) : fexp prec emax x = fexp64 x.
Proof. reflexivity. Qed.

(** The float of sign [s] whose value is [V * 2^-1074], for [V] on the
    grid of binary64; an infinity when the exponent exceeds the format. *)
Definition of_units (s : bool) (V : Z) : spec_float :=
  match V with
  | Z0 => S754_zero s
  | Zpos _ =>
      let k := Z.max 0 (digits V - 53) in
      if k - 1074 <=? 971 then
        match V / 2 ^ k with
        | Zpos m => S754_finite s m (k - 1074)
        | _ => S754_nan
        end
      else S754_infinity s
  | Zneg _ => S754_nan
  end.

(** Rounding to nearest, ties to even, of the value [V * 2^E0] onto the
    grid of binary64, in units of 2^-1074. *)
Definition round_units (E0 V : Z) : Z :=
  let t := fexp64 (digits V + E0) in
  rne V (t - E0) * 2 ^ (t + 1074).

Lemma pow2_pos (k : Z) : 0 <= k -> 0 < 2 ^ k.
Proof. intros. apply Z.pow_pos_nonneg; lia. Qed.

Lemma of_units_canonical (s : bool) (m : positive) (e : Z) :
  fexp64 (digits (Zpos m) + e) = e ->
  of_units s (Zpos m * 2 ^ (e + 1074))
  = if e <=? 971 then S754_finite s m e else S754_infinity s.
Proof.
  intros Hc. unfold fexp64 in Hc.
  assert (He : 0 <= e + 1074) by lia.
  pose proof (pow2_pos _ He) as Hp.
  pose proof (digits_pos (Zpos m) ltac:(lia)) as Hd.
  assert (HV : 0 < Zpos m * 2 ^ (e + 1074)) by nia.
  unfold of_units. destruct (Zpos m * 2 ^ (e + 1074)) as [|V|V] eqn:EV; try lia.
  rewrite <- EV. rewrite digits_shift by lia.
  assert (Hk : Z.max 0 (digits (Zpos m) + (e + 1074) - 53) = e + 1074) by lia.
  rewrite Hk. replace (e + 1074 - 1074) with e by lia.
  rewrite Z.div_mul by lia. reflexivity.
Qed.

Lemma round_units_align (E0 M e : Z) :
  0 < M -> E0 <= e -> e <= fexp64 (digits M + e) ->
  round_units E0 (M * 2 ^ (e - E0))
  = rne M (fexp64 (digits M + e) - e) * 2 ^ (fexp64 (digits M + e) + 1074).
Proof.
  intros HM HE Ht. unfold round_units. rewrite digits_shift by lia.
  replace (digits M + (e - E0) + E0) with (digits M + e) by lia.
  cbv zeta.
  replace (fexp64 (digits M + e) - E0) with (fexp64 (digits M + e) - e + (e - E0)) by lia.
  rewrite rne_shift by lia. reflexivity.
Qed.

Lemma rne_range (M e : Z) :
  0 < M -> e < fexp64 (digits M + e) ->
  let t := fexp64 (digits M + e) in
  let M1 := rne M (t - e) in
  0 <= M1 <= 2 ^ 53 /\ (0 < M1 < 2 ^ 53 -> fexp64 (digits M1 + t) = t).
Proof.
  intros HM Ht t M1.
  pose proof (digits_bounds M HM) as [Hlo Hhi].
  pose proof (digits_pos M HM) as Hd.
  assert (Hk : 0 < t - e) by (unfold t; lia).
  pose proof (pow2_pos (t - e) ltac:(lia)) as Hp.
  pose proof (rne_bounds M (t - e) ltac:(lia)) as Hb. fold M1 in Hb.
  assert (Hq0 : 0 <= M / 2 ^ (t - e)) by (apply Z.div_pos; lia).
  assert (Hq : M / 2 ^ (t - e) < 2 ^ 53).
  { apply Z.div_lt_upper_bound; [lia|].
    rewrite <- Z.pow_add_r by lia.
    eapply Z.lt_le_trans; [exact Hhi|].
    apply Z.pow_le_mono_r; [lia|]. unfold t, fexp64. lia. }
  split; [lia|]. intros HM1.
  pose proof (digits_bounds M1 ltac:(lia)) as [Hlo1 Hhi1].
  assert (Hd1 : digits M1 <= 53).
  { destruct (Z.le_gt_cases (digits M1) 53); [assumption|].
    assert (2 ^ 53 <= 2 ^ (digits M1 - 1)) by (apply Z.pow_le_mono_r; lia). lia. }
  unfold fexp64. unfold t, fexp64 in *.
  destruct (Z.max_spec (digits M + e - 53) (-1074)) as [[Hc Hm]|[Hc Hm]].
  - (* subnormal *) lia.
  - (* normal: the quotient has 53 digits *)
    rewrite Hm in *.
    assert (2 ^ 52 <= M / 2 ^ (digits M + e - 53 - e)).
    { apply Z.div_le_lower_bound; [lia|].
      rewrite <- Z.pow_add_r by lia.
      replace (digits M + e - 53 - e + 52) with (digits M - 1) by lia. assumption. }
    assert (digits M1 = 53); [|lia].
    apply digits_unique; [|lia]. change (53 - 1) with 52. lia.
Qed.

Lemma iter_xO (m d : positive) : Zpos (Pos.iter xO m d) = Zpos m * 2 ^ Zpos d.
Proof.
  induction d as [|d IH] using Pos.peano_ind.
  - change (Pos.iter xO m 1) with (xO m). change (2 ^ 1) with 2. lia.
  - rewrite Pos.iter_succ, Pos2Z.inj_xO, IH, Pos2Z.inj_succ, Z.pow_succ_r by lia. lia.
Qed.

Lemma round_aux_spec (s : bool) (M e E0 : Z) :
  0 < M -> E0 <= e -> e <= fexp64 (digits M + e) ->
  binary_round_aux prec emax s M e loc_Exact = of_units s (round_units E0 (M * 2 ^ (e - E0))).
Proof.
  intros HM HE Ht. rewrite round_units_align by assumption.
  unfold binary_round_aux, shr_fexp. rewrite !fexp_fexp64.
  change (Zdigits2 M) with (digits M).
  cbn [shr_record_of_loc].
  destruct (Z.eq_dec (fexp64 (digits M + e)) e) as [Heq|Hne].
  - (* no shift *)
    rewrite Heq, Z.sub_diag, rne_0. cbn [shr shr_m loc_of_shr_record round_nearest_even].
    rewrite !fexp_fexp64. change (Zdigits2 M) with (digits M).
    rewrite Heq, Z.sub_diag. cbn [shr_record_of_loc shr shr_m].
    destruct M as [|m|m]; try lia.
    rewrite of_units_canonical by assumption. reflexivity.
  - pose proof (rne_range M e HM ltac:(lia)) as [Hr Hc]. cbv zeta in Hr, Hc.
    set (t := fexp64 (digits M + e)) in *.
    destruct (t - e) as [|p|p] eqn:Ek; try lia.
    cbn [shr]. rewrite iter_shifted by lia. rewrite rne_shifted by lia.
    replace (e + Zpos p) with t by lia.
    set (M1 := rne M (Zpos p)) in *.
    change (Zdigits2 M1) with (digits M1). rewrite fexp_fexp64.
    destruct (Z.eq_dec M1 0) as [E0'|N0].
    + rewrite E0'. change (digits 0) with 0. rewrite Z.mul_0_l.
      assert (Hs : fexp64 (0 + t) - t <= 0) by (unfold fexp64, t; unfold fexp64; lia).
      destruct (fexp64 (0 + t) - t) as [|q|q]; try lia; reflexivity.
    + destruct (Z.eq_dec M1 (2 ^ 53)) as [E53|N53].
      * rewrite E53. change (digits (2 ^ 53)) with 54.
        assert (Hs : fexp64 (54 + t) - t = 1) by (unfold fexp64, t; unfold fexp64; lia).
        rewrite Hs. cbn [shr shr_record_of_loc iter_pos].
        rewrite shr_1_spec by lia. cbn [shr_m].
        change (2 ^ 53 / 2) with (Zpos (2 ^ 52)%positive).
        replace (2 ^ 53 * 2 ^ (t + 1074))
          with (Zpos (2 ^ 52)%positive * 2 ^ (t + 1 + 1074)).
        2:{ replace (t + 1 + 1074) with (Z.succ (t + 1074)) by lia.
            assert (0 <= t + 1074) by (unfold t, fexp64; lia).
            rewrite Z.pow_succ_r by lia.
            change (Zpos (2 ^ 52)%positive) with (2 ^ 52). lia. }
        rewrite of_units_canonical; [reflexivity|].
        change (digits (Zpos (2 ^ 52)%positive)) with 53. unfold fexp64, t. unfold fexp64. lia.
      * assert (HM1 : 0 < M1 < 2 ^ 53) by lia. specialize (Hc HM1).
        rewrite Hc, Z.sub_diag. cbn [shr shr_record_of_loc shr_m].
        destruct M1 as [|m1|m1]; try lia.
        rewrite of_units_canonical by assumption. reflexivity.
Qed.

Lemma binary_round_spec (s : bool) (m : positive) (e E0 : Z) :
  E0 <= e -> E0 <= -1074 ->
  binary_round prec emax s m e = of_units s (round_units E0 (Zpos m * 2 ^ (e - E0))).
Proof.
  intros HE HE0. unfold binary_round, shl_align. rewrite fexp_fexp64.
  change (Zpos (digits2_pos m)) with (digits (Zpos m)).
  destruct (fexp64 (digits (Zpos m) + e) - e) as [|p|p] eqn:Ek.
  - apply round_aux_spec; lia.
  - apply round_aux_spec; lia.
  - set (t := fexp64 (digits (Zpos m) + e)) in *.
    rewrite (round_aux_spec s _ t E0).
    + rewrite iter_xO.
      replace (Zpos m * 2 ^ Zpos p * 2 ^ (t - E0)) with (Zpos m * 2 ^ (e - E0));
        [reflexivity|].
      replace (e - E0) with (Zpos p + (t - E0)) by lia.
      assert (0 <= t - E0) by (unfold t, fexp64; lia).
      rewrite Z.pow_add_r by lia. lia.
    + lia.
    + unfold t, fexp64. lia.
    + rewrite iter_xO, digits_shift by lia.
      replace (digits (Zpos m) + Zpos p + t) with (digits (Zpos m) + e) by lia.
      fold t. lia.
Qed.

(** ** Rounding is monotone *)

Lemma fexp64_mono (x y : Z) : x <= y -> fexp64 x <= fexp64 y.
Proof. unfold fexp64. lia. Qed.

Lemma round_units_mono (E0 V V' : Z) :
  E0 <= -1074 -> 0 < V -> V <= V' -> round_units E0 V <= round_units E0 V'.
Proof.
  intros HE HV HVV. unfold round_units.
  pose proof (digits_mono V V' HV HVV) as Hd.
  pose proof (fexp64_mono (digits V + E0) (digits V' + E0) ltac:(lia)) as Ht.
  set (t := fexp64 (digits V + E0)) in *. set (t' := fexp64 (digits V' + E0)) in *.
  assert (Ht0 : -1074 <= t) by (unfold t, fexp64; lia).
  destruct (Z.eq_dec t t') as [<-|Hne].
  - apply Z.mul_le_mono_nonneg_r; [apply Z.lt_le_incl, pow2_pos; lia|].
    apply rne_mono; lia.
  - assert (Ht' : t' = digits V' + E0 - 53) by (unfold t', fexp64 in *; lia).
    assert (Hdd : digits V < digits V').
    { destruct (Z.eq_dec (digits V) (digits V')) as [E|]; [|lia].
      unfold t, t' in Hne. rewrite E in Hne. lia. }
    pose proof (digits_bounds V HV) as [_ Hhi].
    pose proof (digits_bounds V' ltac:(lia)) as [Hlo' _].
    pose proof (rne_bounds V (t - E0) ltac:(lia)) as [_ Hup].
    pose proof (rne_bounds V' (t' - E0) ltac:(lia)) as [Hdown _].
    pose proof (pow2_pos (t - E0) ltac:(lia)) as Hp.
    pose proof (pow2_pos (t' - E0) ltac:(lia)) as Hp'.
    pose proof (pow2_pos (t + 1074) ltac:(lia)) as Hq.
    pose proof (pow2_pos (t' + 1074) ltac:(lia)) as Hq'.
    (* the larger value rounds to at least 2^52 units of its binade *)
    assert (Hbig : 2 ^ 52 <= V' / 2 ^ (t' - E0)).
    { apply Z.div_le_lower_bound; [lia|].
      rewrite <- Z.pow_add_r by lia.
      replace (t' - E0 + 52) with (digits V' - 1) by lia. assumption. }
    (* the smaller value rounds to at most 2^(52 + t' - t) units of its own *)
    assert (Hsmall : V / 2 ^ (t - E0) + 1 <= 2 ^ (52 + t' - t)).
    { assert (V / 2 ^ (t - E0) < 2 ^ (52 + t' - t)); [|lia].
      apply Z.div_lt_upper_bound; [lia|].
      rewrite <- Z.pow_add_r by lia.
      eapply Z.lt_le_trans; [exact Hhi|].
      apply Z.pow_le_mono_r; lia. }
    apply Z.le_trans with (2 ^ (52 + t' - t) * 2 ^ (t + 1074)).
    + apply Z.mul_le_mono_nonneg_r; lia.
    + rewrite <- Z.pow_add_r by lia.
      replace (52 + t' - t + (t + 1074)) with (52 + (t' + 1074)) by lia.
      rewrite Z.pow_add_r by lia.
      apply Z.mul_le_mono_nonneg_r; lia.
Qed.

Lemma round_units_nonneg (E0 V : Z) : E0 <= -1074 -> 0 <= V -> 0 <= round_units E0 V.
Proof.
  intros HE HV. unfold round_units.
  set (t := fexp64 (digits V + E0)).
  assert (-1074 <= t) by (unfold t, fexp64; lia).
  pose proof (rne_bounds V (t - E0) ltac:(lia)) as [Hdown _].
  pose proof (pow2_pos (t - E0) ltac:(lia)).
  pose proof (pow2_pos (t + 1074) ltac:(lia)).
  assert (0 <= V / 2 ^ (t - E0)) by (apply Z.div_pos; lia).
  apply Z.mul_nonneg_nonneg; lia.
Qed.

(** The shape of [of_units] on a positive value. *)
Lemma of_units_pos (s : bool) (V : Z) :
  0 < V ->
  let k := Z.max 0 (digits V - 53) in
  0 < V / 2 ^ k
  /\ of_units s V = if k - 1074 <=? 971
              then S754_finite s (Z.to_pos (V / 2 ^ k)) (k - 1074)
              else S754_infinity s.
Proof.
  intros HV k.
  pose proof (digits_bounds V HV) as [Hlo _].
  pose proof (digits_pos V HV) as Hd.
  pose proof (pow2_pos k ltac:(lia)) as Hp.
  assert (Hq : 0 < V / 2 ^ k).
  { apply Z.div_str_pos. split; [lia|].
    eapply Z.le_trans; [|exact Hlo]. apply Z.pow_le_mono_r; lia. }
  split; [assumption|].
  unfold of_units. destruct V as [|v|v]; try lia. fold k.
  destruct (k - 1074 <=? 971); [|reflexivity].
  destruct (Zpos v / 2 ^ k) as [|q|q]; try lia. reflexivity.
Qed.

Lemma of_units_mono (V V' : Z) :
  0 <= V -> V <= V' ->
  SFleb (of_units false V) (of_units false V') = true /\ SFleb (of_units true V') (of_units true V) = true.
Proof.
  intros HV HVV.
  destruct (Z.eq_dec V' 0) as [->|HV'].
  { assert (V = 0) by lia. subst. split; reflexivity. }
  destruct (Z.eq_dec V 0) as [->|HV0].
  { destruct (of_units_pos false V' ltac:(lia)) as [_ ->].
    destruct (of_units_pos true V' ltac:(lia)) as [_ ->].
    cbv zeta. destruct (_ <=? 971); split; reflexivity. }
  destruct (of_units_pos false V ltac:(lia)) as [Hq ->].
  destruct (of_units_pos true V ltac:(lia)) as [_ ->].
  destruct (of_units_pos false V' ltac:(lia)) as [Hq' ->].
  destruct (of_units_pos true V' ltac:(lia)) as [_ ->].
  cbv zeta in *.
  pose proof (digits_mono V V' ltac:(lia) HVV) as Hd.
  set (k := Z.max 0 (digits V - 53)) in *.
  set (k' := Z.max 0 (digits V' - 53)) in *.
  assert (Hk : k <= k') by (unfold k, k'; lia).
  destruct (Z.leb_spec (k - 1074) 971); destruct (Z.leb_spec (k' - 1074) 971);
    try lia; try (split; reflexivity).
  unfold SFleb, SFcompare.
  change (Pos.compare_cont Eq ?a ?b) with (Pos.compare a b).
  rewrite <- !Z2Pos.inj_compare by lia.
  destruct (Z.eq_dec k k') as [E|NE].
  - assert (Hm : V / 2 ^ k <= V' / 2 ^ k').
    { rewrite <- E. apply Z.div_le_mono; [apply pow2_pos; unfold k; lia|lia]. }
    rewrite <- E in Hm |- *. rewrite Z.compare_refl.
    destruct (Z.compare_spec (V / 2 ^ k) (V' / 2 ^ k));
      destruct (Z.compare_spec (V' / 2 ^ k) (V / 2 ^ k)); try lia; split; reflexivity.
  - replace (k - 1074 ?= k' - 1074) with Lt by (symmetry; apply Z.compare_lt_iff; lia).
    replace (k' - 1074 ?= k - 1074) with Gt by (symmetry; apply Z.compare_gt_iff; lia).
    split; reflexivity.
Qed.

(** ** The order of the floats; sums and differences *)

Lemma SFleb_trans (x y z : spec_float) :
  SFleb x y = true -> SFleb y z = true -> SFleb x z = true.
Proof.
  destruct x as [sx|sx| |sx mx ex], y as [sy|sy| |sy my ey], z as [sz|sz| |sz mz ez];
    try destruct sx; try destruct sy; try destruct sz; sf_cases.
Qed.

Lemma SFleb_ltb_trans (x y z : spec_float) :
  SFleb x y = true -> SFltb y z = true -> SFltb x z = true.
Proof.
  destruct x as [sx|sx| |sx mx ex], y as [sy|sy| |sy my ey], z as [sz|sz| |sz mz ez];
    try destruct sx; try destruct sy; try destruct sz; sf_cases.
Qed.

Lemma SFltb_leb_trans (x y z : spec_float) :
  SFltb x y = true -> SFleb y z = true -> SFltb x z = true.
Proof.
  destruct x as [sx|sx| |sx mx ex], y as [sy|sy| |sy my ey], z as [sz|sz| |sz mz ez];
    try destruct sx; try destruct sy; try destruct sz; sf_cases.
Qed.

Lemma SFleb_not_ltb (x y : spec_float) : SFleb x y = true -> SFltb y x = false.
Proof.
  destruct x as [sx|sx| |sx mx ex], y as [sy|sy| |sy my ey];
    try destruct sx; try destruct sy; sf_cases.
Qed.

Lemma SFleb_refl (x : spec_float) : x <> S754_nan -> SFleb x x = true.
Proof.
  destruct x as [sx|sx| |sx mx ex]; try destruct sx; intros Hx; try congruence;
    unfold SFleb, SFcompare; try reflexivity;
    rewrite Z.compare_refl, Pos.compare_cont_refl; reflexivity.
Qed.

Lemma SFopp_leb (x y : spec_float) :
  SFleb x y = true -> SFleb (SFopp y) (SFopp x) = true.
Proof.
  destruct x as [sx|sx| |sx mx ex], y as [sy|sy| |sy my ey];
    try destruct sx; try destruct sy; cbn [SFopp negb]; sf_cases.
Qed.

(** The value of a finite float in units of 2^-1074; 0 on the others. *)
Definition units (x : spec_float) : Z :=
  match x with
  | S754_finite s m e => cond_Zopp s (Zpos m * 2 ^ (e + 1074))
  | _ => 0
  end.

Definition round_signed (E0 V : Z) : Z := if V <? 0 then - round_units E0 (- V) else round_units E0 V.

Definition of_signed (V : Z) : spec_float := of_units (V <? 0) (Z.abs V).

Definition is_finite (x : spec_float) : bool :=
  match x with
  | S754_finite _ _ _ | S754_zero _ => true
  | _ => false
  end.

Lemma valid_finite (s : bool) (m : positive) (e : Z) :
  valid_binary (S754_finite s m e) = true ->
  fexp64 (digits (Zpos m) + e) = e /\ -1074 <= e <= 971.
Proof.
  unfold SpecFloat.valid_binary, bounded, canonical_mantissa. rewrite fexp_fexp64.
  change (Zpos (digits2_pos m)) with (digits (Zpos m)).
  intros H. apply andb_true_iff in H. destruct H as [H1 H2].
  apply Z.eqb_eq in H1. apply Z.leb_le in H2. change (emax - prec) with 971 in H2.
  split; [assumption|]. unfold fexp64 in H1. lia.
Qed.

Lemma round_units_0 (E0 : Z) : round_units E0 0 = 0.
Proof.
  unfold round_units, rne. rewrite Zmod_0_l, Zdiv_0_l. cbv zeta.
  pose proof (Z.pow_nonneg 2 (fexp64 (digits 0 + E0) - E0) ltac:(lia)).
  destruct (Z.compare_spec (2 * 0) (2 ^ (fexp64 (digits 0 + E0) - E0))); try lia;
    reflexivity.
Qed.

Lemma round_units_pos (V : Z) : 0 < V -> 0 < round_units (-1074) V.
Proof.
  intros HV. assert (round_units (-1074) 1 <= round_units (-1074) V) by (apply round_units_mono; lia).
  assert (round_units (-1074) 1 = 1) by reflexivity. lia.
Qed.

Lemma round_signed_mono (E0 V V' : Z) :
  E0 <= -1074 -> V <= V' -> round_signed E0 V <= round_signed E0 V'.
Proof.
  intros HE HV. unfold round_signed.
  destruct (Z.ltb_spec V 0); destruct (Z.ltb_spec V' 0); try lia.
  - assert (round_units E0 (- V') <= round_units E0 (- V)) by (apply round_units_mono; lia). lia.
  - pose proof (round_units_nonneg E0 (- V) HE ltac:(lia)).
    pose proof (round_units_nonneg E0 V' HE ltac:(lia)). lia.
  - destruct (Z.eq_dec V 0) as [->|].
    + rewrite round_units_0. apply round_units_nonneg; lia.
    + apply round_units_mono; lia.
Qed.

Lemma of_units_cross (V V' : Z) :
  0 <= V -> 0 <= V' -> SFleb (of_units true V) (of_units false V') = true.
Proof.
  intros HV HV'.
  destruct (Z.eq_dec V 0) as [->|]; destruct (Z.eq_dec V' 0) as [->|].
  - reflexivity.
  - destruct (of_units_pos false V' ltac:(lia)) as [_ ->]. cbv zeta.
    destruct (_ <=? 971); reflexivity.
  - destruct (of_units_pos true V ltac:(lia)) as [_ ->]. cbv zeta.
    destruct (_ <=? 971); reflexivity.
  - destruct (of_units_pos true V ltac:(lia)) as [_ ->].
    destruct (of_units_pos false V' ltac:(lia)) as [_ ->]. cbv zeta.
    destruct (_ <=? 971); destruct (_ <=? 971); reflexivity.
Qed.

Lemma of_signed_mono (V V' : Z) : V <= V' -> SFleb (of_signed V) (of_signed V') = true.
Proof.
  intros HV. unfold of_signed.
  destruct (Z.ltb_spec V 0); destruct (Z.ltb_spec V' 0); try lia.
  - apply (of_units_mono (Z.abs V') (Z.abs V)); lia.
  - apply of_units_cross; lia.
  - apply (of_units_mono (Z.abs V) (Z.abs V')); lia.
Qed.

Lemma of_units_not_nan (s : bool) (V : Z) : 0 <= V -> of_units s V <> S754_nan.
Proof.
  intros HV. destruct (Z.eq_dec V 0) as [->|]; [discriminate|].
  destruct (of_units_pos s V ltac:(lia)) as [_ ->]. cbv zeta.
  destruct (_ <=? 971); discriminate.
Qed.

Lemma of_signed_not_nan (V : Z) : of_signed V <> S754_nan.
Proof. apply of_units_not_nan. lia. Qed.

Lemma shl_align_fst (m : positive) (e ez : Z) :
  ez <= e -> Zpos (fst (shl_align m e ez)) = Zpos m * 2 ^ (e - ez).
Proof.
  intros H. unfold shl_align. destruct (ez - e) as [|d|d] eqn:E; try lia; cbn [fst].
  - replace (e - ez) with 0 by lia. change (2 ^ 0) with 1. lia.
  - rewrite iter_xO. f_equal. f_equal. lia.
Qed.

Lemma binary_normalize_spec (S e : Z) :
  -1074 <= e ->
  binary_normalize prec emax S e false = of_signed (round_signed (-1074) (S * 2 ^ (e + 1074))).
Proof.
  intros He. pose proof (pow2_pos (e + 1074) ltac:(lia)) as Hp.
  unfold binary_normalize, of_signed, round_signed. destruct S as [|m|m].
  - rewrite Z.mul_0_l. cbn [Z.ltb Z.compare]. rewrite round_units_0. reflexivity.
  - rewrite (binary_round_spec false m e (-1074)) by lia.
    replace (e - -1074) with (e + 1074) by lia.
    assert (HV : 0 < Zpos m * 2 ^ (e + 1074)) by nia.
    pose proof (round_units_pos _ HV).
    destruct (Z.ltb_spec (Zpos m * 2 ^ (e + 1074)) 0); try lia.
    destruct (Z.ltb_spec (round_units (-1074) (Zpos m * 2 ^ (e + 1074))) 0); try lia.
    rewrite Z.abs_eq by lia. reflexivity.
  - rewrite (binary_round_spec true m e (-1074)) by lia.
    replace (e - -1074) with (e + 1074) by lia.
    assert (HV : 0 < Zpos m * 2 ^ (e + 1074)) by nia.
    pose proof (round_units_pos _ HV).
    replace (Zneg m * 2 ^ (e + 1074)) with (- (Zpos m * 2 ^ (e + 1074))) by lia.
    destruct (Z.ltb_spec (- (Zpos m * 2 ^ (e + 1074))) 0); try lia.
    rewrite Z.opp_involutive.
    destruct (Z.ltb_spec (- round_units (-1074) (Zpos m * 2 ^ (e + 1074))) 0); try lia.
    rewrite Z.abs_neq by lia. rewrite Z.opp_involutive. reflexivity.
Qed.

Lemma aligned_units (s : bool) (m : positive) (e ez : Z) :
  -1074 <= ez -> ez <= e ->
  cond_Zopp s (Zpos (fst (shl_align m e ez))) * 2 ^ (ez + 1074)
  = units (S754_finite s m e).
Proof.
  intros H1 H2. rewrite shl_align_fst by assumption. unfold units.
  replace (e + 1074) with (e - ez + (ez + 1074)) by lia.
  rewrite (Z.pow_add_r 2 (e - ez) (ez + 1074)) by lia.
  destruct s; unfold cond_Zopp; ring.
Qed.

Lemma SFadd_finite (sx : bool) (mx : positive) (ex : Z) (sy : bool) (my : positive) (ey : Z) :
  valid_binary (S754_finite sx mx ex) = true ->
  valid_binary (S754_finite sy my ey) = true ->
  SF64add (S754_finite sx mx ex) (S754_finite sy my ey)
  = of_signed (round_signed (-1074) (units (S754_finite sx mx ex) + units (S754_finite sy my ey))).
Proof.
  intros Hx Hy. apply valid_finite in Hx, Hy. destruct Hx as [_ Hx], Hy as [_ Hy].
  unfold SF64add, SFadd. cbv zeta. rewrite binary_normalize_spec by lia.
  rewrite Z.mul_add_distr_r. rewrite !aligned_units by lia. reflexivity.
Qed.

Lemma SFsub_add (x y : spec_float) : SF64sub x y = SF64add x (SFopp y).
Proof.
  unfold SF64sub, SF64add.
  destruct x as [sx|sx| |sx mx ex], y as [sy|sy| |sy my ey];
    try destruct sx; try destruct sy; try reflexivity;
    cbn [SFsub SFadd SFopp negb]; cbv zeta; f_equal; unfold cond_Zopp; lia.
Qed.

Lemma units_opp (x : spec_float) : units (SFopp x) = - units x.
Proof.
  destruct x as [sx|sx| |sx mx ex]; try reflexivity.
  destruct sx; cbn [SFopp units negb cond_Zopp]; lia.
Qed.

Lemma valid_opp (x : spec_float) : valid_binary (SFopp x) = valid_binary x.
Proof. destruct x; reflexivity. Qed.

(** A finite float is the float of its value, and rounding leaves its
    value as it is. *)
Lemma of_signed_units (s : bool) (m : positive) (e : Z) :
  valid_binary (S754_finite s m e) = true ->
  of_signed (units (S754_finite s m e)) = S754_finite s m e
  /\ round_signed (-1074) (units (S754_finite s m e)) = units (S754_finite s m e).
Proof.
  intros Hv. apply valid_finite in Hv. destruct Hv as [Hc He].
  pose proof (pow2_pos (e + 1074) ltac:(lia)) as Hp.
  assert (HV : 0 < Zpos m * 2 ^ (e + 1074)) by nia.
  assert (Hr : round_units (-1074) (Zpos m * 2 ^ (e + 1074)) = Zpos m * 2 ^ (e + 1074)).
  { replace (e + 1074) with (e - -1074) at 1 by lia.
    rewrite round_units_align by lia. rewrite Hc, Z.sub_diag, rne_0. reflexivity. }
  assert (Hm : of_units s (Zpos m * 2 ^ (e + 1074)) = S754_finite s m e).
  { rewrite of_units_canonical by assumption. destruct (Z.leb_spec e 971); [reflexivity|lia]. }
  unfold of_signed, round_signed, units. destruct s; unfold cond_Zopp.
  - destruct (Z.ltb_spec (- (Zpos m * 2 ^ (e + 1074))) 0); try lia.
    rewrite Z.abs_neq, Z.opp_involutive by lia. rewrite Hr. auto.
  - destruct (Z.ltb_spec (Zpos m * 2 ^ (e + 1074)) 0); try lia.
    rewrite Z.abs_eq by lia. auto.
Qed.

(** ** Products *)

Lemma canonical_order (m1 m2 : positive) (e1 e2 : Z) :
  fexp64 (digits (Zpos m1) + e1) = e1 -> fexp64 (digits (Zpos m2) + e2) = e2 ->
  e1 < e2 ->
  Zpos m1 * 2 ^ (e1 + 1074) < Zpos m2 * 2 ^ (e2 + 1074).
Proof.
  intros H1 H2 He. unfold fexp64 in *.
  pose proof (digits_bounds (Zpos m1) ltac:(lia)) as [_ Hhi].
  pose proof (digits_bounds (Zpos m2) ltac:(lia)) as [Hlo _].
  assert (Hd2 : digits (Zpos m2) = 53) by lia.
  rewrite Hd2 in Hlo. change (53 - 1) with 52 in Hlo.
  assert (Zpos m1 < 2 ^ 53).
  { eapply Z.lt_le_trans; [exact Hhi|]. apply Z.pow_le_mono_r; lia. }
  pose proof (pow2_pos (e1 + 1074) ltac:(lia)) as Hp.
  assert (2 * 2 ^ (e1 + 1074) <= 2 ^ (e2 + 1074)).
  { rewrite <- Z.pow_succ_r by lia. apply Z.pow_le_mono_r; lia. }
  apply Z.lt_le_trans with (2 ^ 53 * 2 ^ (e1 + 1074)).
  - apply Z.mul_lt_mono_pos_r; lia.
  - apply Z.le_trans with (2 ^ 52 * 2 ^ (e2 + 1074)).
    + change (2 ^ 53) with (2 ^ 52 * 2). rewrite <- Z.mul_assoc.
      apply Z.mul_le_mono_nonneg_l; lia.
    + apply Z.mul_le_mono_nonneg_r; lia.
Qed.

(** On finite floats and zeros the order of the floats is the order of
    their values. *)
Lemma leb_units (x y : spec_float) :
  valid_binary x = true -> valid_binary y = true ->
  is_finite x = true -> is_finite y = true ->
  SFleb x y = true -> units x <= units y.
Proof.
  intros Hx Hy Fx Fy.
  destruct x as [sx|sx| |sx mx ex]; try discriminate;
    destruct y as [sy|sy| |sy my ey]; try discriminate.
  - apply valid_finite in Hy. destruct Hy as [_ Hy].
    pose proof (pow2_pos (ey + 1074) ltac:(lia)).
    destruct sy; unfold SFleb, SFcompare, units, cond_Zopp; intros; try discriminate. nia.
  - apply valid_finite in Hx. destruct Hx as [_ Hx].
    pose proof (pow2_pos (ex + 1074) ltac:(lia)).
    destruct sx; unfold SFleb, SFcompare, units, cond_Zopp; intros; try discriminate. nia.
  - apply valid_finite in Hx, Hy. destruct Hx as [Cx Hx], Hy as [Cy Hy].
    pose proof (pow2_pos (ex + 1074) ltac:(lia)).
    pose proof (pow2_pos (ey + 1074) ltac:(lia)).
    pose proof (canonical_order mx my ex ey Cx Cy) as Hxy.
    pose proof (canonical_order my mx ey ex Cy Cx) as Hyx.
    unfold SFleb, SFcompare, units, cond_Zopp.
    change (Pos.compare_cont Eq ?a ?b) with (Pos.compare a b).
    destruct sx, sy; intros Hle; try discriminate; try nia.
    + destruct (Z.compare_spec ex ey); try discriminate.
      * subst. destruct (Pos.compare_spec mx my); try discriminate; cbn [CompOpp] in Hle;
          try discriminate; try (subst; lia).
        assert (Zpos my * 2 ^ (ey + 1074) <= Zpos mx * 2 ^ (ey + 1074))
          by (apply Z.mul_le_mono_nonneg_r; lia). lia.
      * specialize (Hyx ltac:(lia)). lia.
    + destruct (Z.compare_spec ex ey); try discriminate.
      * subst. destruct (Pos.compare_spec mx my); try discriminate; try (subst; lia).
        apply Z.mul_le_mono_nonneg_r; lia.
      * specialize (Hxy ltac:(lia)). lia.
Qed.

Lemma digits_mul_lower (a b : Z) :
  0 < a -> 0 < b -> digits a + digits b - 1 <= digits (a * b).
Proof.
  intros Ha Hb.
  pose proof (digits_bounds a Ha) as [La _]. pose proof (digits_bounds b Hb) as [Lb _].
  pose proof (digits_pos a Ha). pose proof (digits_pos b Hb).
  pose proof (digits_bounds (a * b) ltac:(nia)) as [_ Hab].
  destruct (Z.le_gt_cases (digits a + digits b - 1) (digits (a * b))); [assumption|].
  assert (2 ^ digits (a * b) <= 2 ^ (digits a - 1 + (digits b - 1)))
    by (apply Z.pow_le_mono_r; lia).
  rewrite Z.pow_add_r in * by lia.
  pose proof (pow2_pos (digits a - 1) ltac:(lia)).
  pose proof (pow2_pos (digits b - 1) ltac:(lia)).
  nia.
Qed.

Lemma SFmul_finite (sx : bool) (mx : positive) (ex : Z) (sy : bool) (my : positive) (ey : Z) :
  valid_binary (S754_finite sx mx ex) = true ->
  valid_binary (S754_finite sy my ey) = true ->
  SF64mul (S754_finite sx mx ex) (S754_finite sy my ey)
  = of_units (xorb sx sy)
      (round_units (-2148) (Zpos mx * 2 ^ (ex + 1074) * (Zpos my * 2 ^ (ey + 1074)))).
Proof.
  intros Hx Hy. apply valid_finite in Hx, Hy. destruct Hx as [Cx Hx], Hy as [Cy Hy].
  unfold SF64mul, SFmul.
  rewrite (round_aux_spec _ _ _ (-2148)).
  - f_equal. f_equal. rewrite Pos2Z.inj_mul.
    replace (ex + ey - -2148) with (ex + 1074 + (ey + 1074)) by lia.
    rewrite Z.pow_add_r by lia. ring.
  - lia.
  - lia.
  - rewrite Pos2Z.inj_mul.
    pose proof (digits_mul_lower (Zpos mx) (Zpos my) ltac:(lia) ltac:(lia)).
    pose proof (digits_pos (Zpos mx) ltac:(lia)).
    pose proof (digits_pos (Zpos my) ltac:(lia)).
    unfold fexp64 in *. lia.
Qed.

(** A float that is not below zero: a NaN, a zero, or positive. *)
Definition not_negative (x : spec_float) : bool :=
  match x with
  | S754_finite true _ _ | S754_infinity true => false
  | _ => true
  end.

Lemma SFmul_mono (n1 n2 s : spec_float) :
  valid_binary n1 = true -> valid_binary n2 = true -> valid_binary s = true ->
  SFltb (S754_zero false) n1 = true -> SFleb n1 n2 = true ->
  not_negative s = true ->
  SF64mul n2 s = S754_nan
  \/ (SFleb (SF64mul n1 s) (SF64mul n2 s) = true
      /\ SFleb (S754_zero false) (SF64mul n1 s) = true).
Proof.
  intros V1 V2 Vs Hpos Hle Hs.
  destruct n1 as [s1|s1| |s1 m1 e1]; try discriminate; destruct s1; try discriminate;
    destruct n2 as [s2|s2| |s2 m2 e2]; try discriminate; destruct s2; try discriminate;
    destruct s as [ss|ss| |ss ms es]; try destruct ss; try discriminate;
    try solve [left; reflexivity]; try solve [right; split; reflexivity].
  - (* finite, infinity, finite *)
    right. rewrite SFmul_finite by assumption. cbn [xorb].
    apply valid_finite in V1, Vs. destruct V1 as [_ V1], Vs as [_ Vs].
    pose proof (pow2_pos (e1 + 1074) ltac:(lia)). pose proof (pow2_pos (es + 1074) ltac:(lia)).
    set (V := Zpos m1 * 2 ^ (e1 + 1074) * (Zpos ms * 2 ^ (es + 1074))).
    assert (0 <= round_units (-2148) V) by (apply round_units_nonneg; unfold V; nia).
    destruct (of_units_mono 0 (round_units (-2148) V) ltac:(lia) ltac:(lia)) as [Hz _].
    split; [|exact Hz].
    pose proof (of_units_not_nan false (round_units (-2148) V) ltac:(lia)).
    change (SF64mul (S754_infinity false) (S754_finite false ms es))
      with (S754_infinity false).
    destruct (of_units false (round_units (-2148) V)) as [z|z| |z mz ez]; try congruence;
      try reflexivity; destruct z; try reflexivity; discriminate.
  - (* finite, finite, finite *)
    right. rewrite !SFmul_finite by assumption. cbn [xorb].
    pose proof (leb_units _ _ V1 V2 eq_refl eq_refl Hle) as Hrk.
    apply valid_finite in V1, V2, Vs.
    destruct V1 as [_ V1], V2 as [_ V2], Vs as [_ Vs].
    pose proof (pow2_pos (e1 + 1074) ltac:(lia)). pose proof (pow2_pos (e2 + 1074) ltac:(lia)).
    pose proof (pow2_pos (es + 1074) ltac:(lia)).
    unfold units, cond_Zopp in Hrk.
    set (V := Zpos m1 * 2 ^ (e1 + 1074) * (Zpos ms * 2 ^ (es + 1074))).
    set (V' := Zpos m2 * 2 ^ (e2 + 1074) * (Zpos ms * 2 ^ (es + 1074))).
    assert (0 < V) by (unfold V; nia).
    assert (V <= V') by (unfold V, V'; apply Z.mul_le_mono_nonneg_r; nia).
    assert (0 <= round_units (-2148) V) by (apply round_units_nonneg; lia).
    assert (round_units (-2148) V <= round_units (-2148) V') by (apply round_units_mono; lia).
    split.
    + apply (of_units_mono (round_units (-2148) V) (round_units (-2148) V')); lia.
    + apply (of_units_mono 0 (round_units (-2148) V)); lia.
Qed.

(** ** Sums are monotone *)

Lemma SFadd_finite_or_zero (sx : bool) (mx : positive) (ex : Z) (p : spec_float) :
  valid_binary (S754_finite sx mx ex) = true -> valid_binary p = true ->
  is_finite p = true ->
  SF64add (S754_finite sx mx ex) p
  = of_signed (round_signed (-1074) (units (S754_finite sx mx ex) + units p)).
Proof.
  intros Hx Hp Fp. destruct p as [sp|sp| |sp mp ep]; try discriminate.
  - change (units (S754_zero sp)) with 0. rewrite Z.add_0_r.
    destruct (of_signed_units sx mx ex Hx) as [H1 H2]. rewrite H2, H1. reflexivity.
  - now apply SFadd_finite.
Qed.

Lemma SFleb_inf (x : spec_float) :
  x <> S754_nan -> SFleb x (S754_infinity false) = true.
Proof. destruct x as [s|s| |s m e]; try destruct s; intros; congruence || reflexivity. Qed.

Lemma SFleb_ninf (x : spec_float) :
  x <> S754_nan -> SFleb (S754_infinity true) x = true.
Proof. destruct x as [s|s| |s m e]; try destruct s; intros; congruence || reflexivity. Qed.

Lemma SFadd_mono (m p1 p2 : spec_float) :
  valid_binary m = true -> valid_binary p1 = true -> valid_binary p2 = true ->
  SFleb p1 p2 = true ->
  (p1 <> S754_infinity true ->
   SF64add m p2 = S754_nan \/ SFleb (SF64add m p1) (SF64add m p2) = true)
  /\ (p2 <> S754_infinity false ->
      SF64add m p1 = S754_nan \/ SFleb (SF64add m p1) (SF64add m p2) = true).
Proof.
  intros Vm V1 V2 Hle.
  destruct m as [sm|sm| |sm mm em].
  - (* zero *)
    destruct p1 as [s1|s1| |s1 m1 e1]; try discriminate;
      destruct p2 as [s2|s2| |s2 m2 e2]; try discriminate;
      try destruct sm; try destruct s1; try destruct s2; try discriminate;
      (split; intros _; right; first [exact Hle | reflexivity]).
  - (* infinity *)
    destruct p1 as [s1|s1| |s1 m1 e1]; try discriminate;
      destruct p2 as [s2|s2| |s2 m2 e2]; try discriminate;
      try destruct sm; try destruct s1; try destruct s2; try discriminate;
      (split; intros Hn; first [congruence | left; reflexivity | right; reflexivity]).
  - split; intros _; left; reflexivity.
  - (* finite *)
    destruct (is_finite p1) eqn:F1; destruct (is_finite p2) eqn:F2.
    + pose proof (leb_units p1 p2 V1 V2 F1 F2 Hle) as Hrk.
      rewrite !SFadd_finite_or_zero by assumption.
      assert (SFleb (of_signed (round_signed (-1074) (units (S754_finite sm mm em) + units p1)))
                (of_signed (round_signed (-1074) (units (S754_finite sm mm em) + units p2))) = true).
      { apply of_signed_mono, round_signed_mono; lia. }
      split; intros _; right; assumption.
    + destruct p2 as [s2|s2| |s2 m2 e2]; try discriminate.
      * rewrite (SFadd_finite_or_zero sm mm em p1) by assumption.
        destruct s2.
        -- destruct p1 as [s1|s1| |s1 m1 e1]; try discriminate; destruct s1; discriminate.
        -- split; intros _; right; apply SFleb_inf, of_signed_not_nan.
      * destruct p1 as [s1|s1| |s1 m1 e1]; discriminate.
    + destruct p1 as [s1|s1| |s1 m1 e1]; try discriminate.
      rewrite (SFadd_finite_or_zero sm mm em p2) by assumption.
      destruct s1.
      * split; intros _; right; apply SFleb_ninf, of_signed_not_nan.
      * destruct p2 as [s2|s2| |s2 m2 e2]; try discriminate; destruct s2; discriminate.
    + destruct p1 as [s1|s1| |s1 m1 e1]; try discriminate;
        destruct p2 as [s2|s2| |s2 m2 e2]; try discriminate;
        destruct s1, s2; try discriminate; split; intros _; right; reflexivity.
Qed.

Lemma SFadd_mono_weak (m p1 p2 : spec_float) :
  valid_binary m = true -> valid_binary p1 = true -> valid_binary p2 = true ->
  SFleb p1 p2 = true ->
  SFltb (SF64add m p2) (SF64add m p1) = false.
Proof.
  intros Vm V1 V2 Hle.
  destruct (SFadd_mono m p1 p2 Vm V1 V2 Hle) as [H1 H2].
  assert (D : p1 = S754_infinity true \/ p1 <> S754_infinity true).
  { destruct p1 as [s|s| |s mp ep]; try (right; discriminate).
    destruct s; [now left | right; discriminate]. }
  destruct D as [->|Hn].
  - destruct m as [sm|sm| |sm mm em]; try destruct sm;
      destruct (SF64add _ p2) as [s|s| |s mh eh]; try destruct s; reflexivity.
  - destruct (H1 Hn) as [E|E].
    + rewrite E. reflexivity.
    + now apply SFleb_not_ltb.
Qed.

Lemma SFsqrt_not_negative (x : spec_float) : not_negative (SF64sqrt x) = true.
Proof.
  unfold SF64sqrt, SFsqrt.
  destruct x as [s|s| |s m e]; try destruct s; try reflexivity.
  destruct (SFsqrt_core_binary prec emax (Zpos m) e) as [[mz ez] lz].
  unfold binary_round_aux.
  destruct (shr_fexp prec emax mz ez lz) as [mrs' e'].
  destruct (shr_fexp prec emax _ e' loc_Exact) as [mrs'' e''].
  destruct (shr_m mrs''); try reflexivity.
  destruct (e'' <=? emax - prec); reflexivity.
Qed.

Lemma SFeqb_leb (x y : spec_float) :
  SFeqb x y = true -> SFleb x y = true /\ SFleb y x = true.
Proof.
  destruct x as [sx|sx| |sx mx ex], y as [sy|sy| |sy my ey];
    try destruct sx; try destruct sy; sf_cases; split; sf_cases.
Qed.

(** ** Integers below 2^53 *)

(** The float of a non-negative integer below 2^53. *)
Definition int_float (a : Z) : spec_float :=
  match a with
  | Zpos _ => S754_finite false (Z.to_pos (a * 2 ^ (53 - digits a))) (digits a - 53)
  | _ => S754_zero false
  end.

Lemma digits_le_53 (a : Z) : 0 < a < 2 ^ 53 -> 0 < digits a <= 53.
Proof.
  intros [H0 H1]. pose proof (digits_pos a H0). pose proof (digits_bounds a H0) as [L _].
  split; [assumption|].
  destruct (Z.le_gt_cases (digits a) 53); [assumption|].
  assert (2 ^ 53 <= 2 ^ (digits a - 1)) by (apply Z.pow_le_mono_r; lia). lia.
Qed.

Lemma int_float_pos (a : Z) :
  0 < a < 2 ^ 53 ->
  let m := Z.to_pos (a * 2 ^ (53 - digits a)) in
  int_float a = S754_finite false m (digits a - 53)
  /\ Zpos m = a * 2 ^ (53 - digits a)
  /\ digits (Zpos m) = 53
  /\ valid_binary (int_float a) = true
  /\ units (int_float a) = a * 2 ^ 1074.
Proof.
  intros Ha m. pose proof (digits_le_53 a Ha) as Hd.
  pose proof (pow2_pos (53 - digits a) ltac:(lia)) as Hp.
  assert (Hm : Zpos m = a * 2 ^ (53 - digits a)) by (unfold m; rewrite Z2Pos.id; nia).
  assert (Hdm : digits (Zpos m) = 53).
  { rewrite Hm, digits_shift by lia. lia. }
  assert (HZ : int_float a = S754_finite false m (digits a - 53)).
  { unfold int_float. destruct a; try lia. reflexivity. }
  split; [assumption|]. split; [assumption|]. split; [assumption|].
  rewrite HZ. split.
  - unfold SpecFloat.valid_binary, bounded, canonical_mantissa. rewrite fexp_fexp64.
    change (Zpos (digits2_pos m)) with (digits (Zpos m)). rewrite Hdm.
    apply andb_true_iff. split.
    + apply Z.eqb_eq. unfold fexp64. lia.
    + apply Z.leb_le. change (emax - prec) with 971. lia.
  - unfold units, cond_Zopp. rewrite Hm, <- Z.mul_assoc, <- Z.pow_add_r by lia.
    f_equal. f_equal. lia.
Qed.

Lemma int_float_valid (a : Z) : 0 <= a < 2 ^ 53 -> valid_binary (int_float a) = true.
Proof.
  intros Ha. destruct (Z.eq_dec a 0) as [->|]; [reflexivity|].
  apply (int_float_pos a). lia.
Qed.

Lemma int_float_units (a : Z) : 0 <= a < 2 ^ 53 -> units (int_float a) = a * 2 ^ 1074.
Proof.
  intros Ha. destruct (Z.eq_dec a 0) as [->|]; [reflexivity|].
  apply (int_float_pos a). lia.
Qed.

Lemma int_float_finite (a : Z) : is_finite (int_float a) = true.
Proof. destruct a; reflexivity. Qed.

(** Rounding an integer below 2^53 gives its float. *)
Lemma round_int_float (a : Z) :
  0 <= a < 2 ^ 53 -> of_signed (round_signed (-1074) (a * 2 ^ 1074)) = int_float a.
Proof.
  intros Ha. destruct (Z.eq_dec a 0) as [->|Hn].
  - rewrite Z.mul_0_l. unfold round_signed. cbn [Z.ltb Z.compare]. rewrite round_units_0. reflexivity.
  - destruct (int_float_pos a ltac:(lia)) as (HZ & _ & _ & Hv & Hrk).
    rewrite <- Hrk. rewrite HZ in *.
    destruct (of_signed_units _ _ _ Hv) as [H1 H2]. now rewrite H2, H1.
Qed.

Lemma of_int_int_float (a : Z) :
  0 <= a < 2 ^ 53 -> Prim2SF (Binary64.of_int a) = int_float a.
Proof.
  intros Ha. unfold Binary64.of_int. rewrite of_uint63_spec, Uint63.of_Z_spec.
  rewrite Z.mod_small.
  - rewrite binary_normalize_spec by lia. change (0 + 1074) with 1074. now apply round_int_float.
  - change Uint63.wB with (2 ^ 63). split; [lia|].
    apply Z.lt_trans with (2 ^ 53); [lia|reflexivity].
Qed.

Lemma SFadd_int_float (a b : Z) :
  0 <= a -> 0 <= b -> a + b < 2 ^ 53 -> SF64add (int_float a) (int_float b) = int_float (a + b).
Proof.
  intros Ha Hb Hab.
  destruct (Z.eq_dec a 0) as [->|Hna].
  { rewrite Z.add_0_l. destruct b; try lia; reflexivity. }
  destruct (int_float_pos a ltac:(lia)) as (HZ & _ & _ & Hv & Hrk).
  rewrite HZ in Hv, Hrk |- *.
  rewrite SFadd_finite_or_zero; [|assumption|apply int_float_valid; lia|apply int_float_finite].
  rewrite Hrk, int_float_units by lia. rewrite <- Z.mul_add_distr_r.
  apply round_int_float. lia.
Qed.

Lemma digits_mul_upper (a b : Z) :
  0 < a -> 0 < b -> digits (a * b) <= digits a + digits b.
Proof.
  intros Ha Hb.
  pose proof (digits_bounds a Ha) as [_ Ua]. pose proof (digits_bounds b Hb) as [_ Ub].
  pose proof (digits_pos a Ha). pose proof (digits_pos b Hb).
  pose proof (digits_bounds (a * b) ltac:(nia)) as [Lab _].
  destruct (Z.le_gt_cases (digits (a * b)) (digits a + digits b)); [assumption|].
  assert (2 ^ (digits a + digits b) <= 2 ^ (digits (a * b) - 1))
    by (apply Z.pow_le_mono_r; lia).
  rewrite Z.pow_add_r in * by lia. nia.
Qed.

(** A quotient that is an integer below 2^53 is computed exactly. *)
Lemma SFdiv_int_float (b c : Z) :
  0 < b < 2 ^ 53 -> 0 <= c -> b * c < 2 ^ 53 -> SF64div (int_float (b * c)) (int_float b) = int_float c.
Proof.
  intros [Hb Hb53] Hc Hbc.
  destruct (int_float_pos b ltac:(lia)) as (HZb & Hmb & Hdb & _ & _).
  destruct (Z.eq_dec c 0) as [->|Hnc].
  { rewrite Z.mul_0_r, HZb. reflexivity. }
  assert (Hc53 : c < 2 ^ 53) by nia.
  destruct (int_float_pos (b * c) ltac:(nia)) as (HZa & Hma & Hda & _ & _).
  pose proof (digits_le_53 b ltac:(lia)) as Db.
  pose proof (digits_le_53 c ltac:(lia)) as Dc.
  pose proof (digits_le_53 (b * c) ltac:(nia)) as Da.
  pose proof (digits_mul_upper b c ltac:(lia) ltac:(lia)) as Dup.
  pose proof (digits_mul_lower b c ltac:(lia) ltac:(lia)) as Dlo.
  rewrite HZa, HZb.
  set (ma := Z.to_pos (b * c * 2 ^ (53 - digits (b * c)))) in *.
  set (mb := Z.to_pos (b * 2 ^ (53 - digits b))) in *.
  set (da := digits (b * c)) in *. set (db := digits b) in *.
  unfold SF64div, SFdiv, SFdiv_core_binary. rewrite fexp_fexp64.
  change (Zdigits2 (Zpos ma)) with (digits (Zpos ma)).
  change (Zdigits2 (Zpos mb)) with (digits (Zpos mb)).
  rewrite Hda, Hdb.
  replace (Z.min (fexp64 (53 + (da - 53) - (53 + (db - 53)))) (da - 53 - (db - 53)))
    with (da - db - 53) by (unfold fexp64; lia).
  replace (da - 53 - (db - 53) - (da - db - 53)) with 53 by lia.
  rewrite Z.shiftl_mul_pow2 by lia.
  pose proof (pow2_pos (53 - da) ltac:(lia)) as Pa.
  pose proof (pow2_pos (53 - db) ltac:(lia)) as Pb.
  pose proof (pow2_pos (53 - da + db) ltac:(lia)) as Pq.
  assert (Hq : Zpos ma * 2 ^ 53 = c * 2 ^ (53 - da + db) * Zpos mb).
  { rewrite Hma, Hmb.
    replace (2 ^ 53) with (2 ^ (53 - da + db) * 2 ^ (da - db))
      by (rewrite <- Z.pow_add_r by lia; f_equal; lia).
    assert (E : 2 ^ (53 - da) * 2 ^ (da - db) = 2 ^ (53 - db))
      by (rewrite <- Z.pow_add_r by lia; f_equal; lia).
    transitivity (b * c * 2 ^ (53 - da + db) * (2 ^ (53 - da) * 2 ^ (da - db))); [ring|].
    rewrite E. ring. }
  assert (Hdiv : Z.div_eucl (Zpos ma * 2 ^ 53) (Zpos mb) = (c * 2 ^ (53 - da + db), 0)).
  { rewrite Hq.
    pose proof (Z.div_mul (c * 2 ^ (53 - da + db)) (Zpos mb) ltac:(lia)) as D1.
    pose proof (Z.mod_mul (c * 2 ^ (53 - da + db)) (Zpos mb) ltac:(lia)) as D2.
    unfold Z.div, Z.modulo in D1, D2.
    destruct (Z.div_eucl (c * 2 ^ (53 - da + db) * Zpos mb) (Zpos mb)) as [q r].
    cbn [fst snd] in D1, D2. now subst. }
  rewrite Hdiv.
  assert (Hloc : new_location (Zpos mb) 0 = loc_Exact).
  { unfold new_location. destruct (Z.even (Zpos mb)); reflexivity. }
  rewrite Hloc. cbn [xorb].
  rewrite (round_aux_spec false _ _ (-1074)).
  - replace (c * 2 ^ (53 - da + db) * 2 ^ (da - db - 53 - -1074)) with (c * 2 ^ 1074).
    + rewrite <- (round_int_float c) by lia.
      assert (0 < c * 2 ^ 1074) by (pose proof (pow2_pos 1074 ltac:(lia)); nia).
      pose proof (round_units_pos _ H).
      unfold of_signed, round_signed.
      destruct (Z.ltb_spec (c * 2 ^ 1074) 0); try lia.
      destruct (Z.ltb_spec (round_units (-1074) (c * 2 ^ 1074)) 0); try lia.
      now rewrite Z.abs_eq by lia.
    + rewrite <- Z.mul_assoc, <- Z.pow_add_r by lia. f_equal. f_equal. lia.
  - nia.
  - lia.
  - rewrite digits_shift by lia. unfold fexp64. lia.
Qed.

Lemma SFdiv_zero_int_float (b : Z) :
  0 < b < 2 ^ 53 -> SF64div (S754_zero false) (int_float b) = S754_zero false.
Proof.
  intros Hb. destruct (int_float_pos b Hb) as (HZ & _). rewrite HZ. reflexivity.
Qed.

Lemma SFsub_int_float_self (a : Z) : SF64sub (int_float a) (int_float a) = S754_zero false.
Proof.
  destruct a as [|p|p]; try reflexivity.
  unfold int_float, SF64sub, SFsub. cbv zeta. rewrite Z.sub_diag. reflexivity.
Qed.

Lemma trunc_int_float (a : Z) : 0 <= a < 2 ^ 53 -> Binary64.trunc (int_float a) = a.
Proof.
  intros Ha. destruct (Z.eq_dec a 0) as [->|Hn]; [reflexivity|].
  destruct (int_float_pos a ltac:(lia)) as (HZ & Hm & _).
  pose proof (digits_le_53 a ltac:(lia)) as Hd.
  rewrite HZ. unfold Binary64.trunc. rewrite Hm.
  destruct (Z.leb_spec 0 (digits a - 53)).
  - replace (digits a - 53) with 0 by lia.
    rewrite Z.shiftl_0_r. replace (53 - digits a) with 0 by lia.
    change (2 ^ 0) with 1. lia.
  - rewrite Z.shiftr_div_pow2 by lia.
    replace (- (digits a - 53)) with (53 - digits a) by lia.
    apply Z.div_mul. pose proof (pow2_pos (53 - digits a) ltac:(lia)). lia.
Qed.

End Rounding.

(** * Rounding a quotient in binary64 *)

Section Quotients.
Local Open Scope Z_scope.

(** [k] shifts of a mantissa that already carries a location. *)
Lemma iter_shifted_loc (M : Z) (r s : bool) (p : positive) : 0 <= M ->
  iter_pos shr_1 p (Build_shr_record M r s)
  = Build_shr_record (M / 2 ^ Zpos p) (Z.odd (M / 2 ^ (Zpos p - 1)))
      (negb (M mod 2 ^ (Zpos p - 1) =? 0) || r || s).
Proof.
  intros HM. rewrite iter_pos_iter. induction p as [|p IH] using Pos.peano_ind.
  - change (Pos.iter shr_1 (Build_shr_record M r s) 1) with (shr_1 (Build_shr_record M r s)).
    rewrite shr_1_spec by assumption.
    change (1 - 1) with 0. change (2 ^ 1) with 2. change (2 ^ 0) with 1.
    rewrite Z.div_1_r, Z.mod_1_r. reflexivity.
  - rewrite Pos.iter_succ, IH.
    assert (0 < 2 ^ Zpos p) by (apply Z.pow_pos_nonneg; lia).
    assert (0 < 2 ^ (Zpos p - 1)) by (apply Z.pow_pos_nonneg; lia).
    rewrite shr_1_spec by (apply Z.div_pos; lia).
    rewrite Pos2Z.inj_succ. unfold Z.succ.
    replace (Zpos p + 1 - 1) with (Zpos p) by lia.
    f_equal.
    + rewrite Z.pow_add_r by lia. change (2 ^ 1) with 2. rewrite Z.div_div by lia. reflexivity.
    + replace (Zpos p) with (Zpos p - 1 + 1) at 3 by lia.
      rewrite mod_pow2_succ by lia.
      pose proof (Z.mod_pos_bound M (2 ^ (Zpos p - 1)) ltac:(lia)).
      rewrite Zmod_odd.
      destruct (Z.odd (M / 2 ^ (Zpos p - 1))); cbn [orb].
      * symmetry. rewrite !orb_true_iff. left. left. apply negb_true_iff, Z.eqb_neq. lia.
      * rewrite Z.mul_0_r, Z.add_0_r. reflexivity.
Qed.

(** Rounding to nearest, ties to even, of the quotient [A / (D * 2^k)]. *)
Definition rneq (A D k : Z) : Z :=
  let q := A / (D * 2 ^ k) in
  match 2 * (A mod (D * 2 ^ k)) ?= D * 2 ^ k with
  | Lt => q
  | Eq => if Z.even q then q else q + 1
  | Gt => q + 1
  end.

Lemma rneq_bounds (A D k : Z) :
  A / (D * 2 ^ k) <= rneq A D k <= A / (D * 2 ^ k) + 1.
Proof.
  unfold rneq.
  destruct (2 * (A mod (D * 2 ^ k)) ?= D * 2 ^ k); [destruct (Z.even _)| |]; lia.
Qed.

Lemma rneq_mono (A A' D k : Z) :
  0 < D -> 0 <= k -> A <= A' -> rneq A D k <= rneq A' D k.
Proof.
  intros HD Hk HA.
  assert (Hp : 0 < D * 2 ^ k) by (pose proof (pow2_pos k Hk); nia).
  set (Dk := D * 2 ^ k) in *.
  pose proof (Z.div_le_mono A A' Dk Hp HA) as Hq.
  destruct (Z.eq_dec (A / Dk) (A' / Dk)) as [E|NE].
  - pose proof (Z.div_mod A Dk ltac:(lia)) as D1.
    pose proof (Z.div_mod A' Dk ltac:(lia)) as D2.
    assert (A mod Dk <= A' mod Dk) by nia.
    unfold rneq. fold Dk. rewrite <- E.
    destruct (Z.compare_spec (2 * (A mod Dk)) Dk);
      destruct (Z.compare_spec (2 * (A' mod Dk)) Dk);
      destruct (Z.even (A / Dk)); lia.
  - pose proof (rneq_bounds A D k) as B1. pose proof (rneq_bounds A' D k) as B2.
    fold Dk in B1, B2. lia.
Qed.

(** Numerator and divisor may be scaled alike. *)
Lemma rneq_scale (A D k c : Z) :
  0 < D -> 0 <= k -> 0 < c -> rneq (A * c) (D * c) k = rneq A D k.
Proof.
  intros HD Hk Hc. unfold rneq.
  assert (Hp : 0 < D * 2 ^ k) by (pose proof (pow2_pos k Hk); nia).
  replace (D * c * 2 ^ k) with (D * 2 ^ k * c) by ring.
  rewrite Z.div_mul_cancel_r by lia.
  rewrite Z.mul_mod_distr_r by lia.
  replace (2 * (A mod (D * 2 ^ k) * c) ?= D * 2 ^ k * c)
    with (2 * (A mod (D * 2 ^ k)) ?= D * 2 ^ k); [reflexivity|].
  destruct (Z.compare_spec (2 * (A mod (D * 2 ^ k))) (D * 2 ^ k)); symmetry.
  - apply Z.compare_eq_iff. nia.
  - apply Z.compare_lt_iff. nia.
  - apply Z.compare_gt_iff. nia.
Qed.

Lemma rneq_shift (A D k j : Z) :
  0 < D -> 0 <= k -> 0 <= j -> rneq (A * 2 ^ j) D (k + j) = rneq A D k.
Proof.
  intros HD Hk Hj. rewrite <- (rneq_scale A D k (2 ^ j)) by (try apply pow2_pos; lia).
  unfold rneq. rewrite Z.pow_add_r by lia.
  replace (D * (2 ^ k * 2 ^ j)) with (D * 2 ^ j * 2 ^ k) by ring. reflexivity.
Qed.

(** With divisor 1 it is the rounding of a shifted integer. *)
Lemma rneq_1 (A k : Z) : rneq A 1 k = rne A k.
Proof. unfold rneq, rne. now rewrite !Z.mul_1_l. Qed.

(** An exact quotient. *)
Lemma rneq_exact (V D k : Z) : 0 < D -> 0 <= k -> rneq (V * D) D k = rne V k.
Proof.
  intros HD Hk. rewrite <- rneq_1.
  replace D with (1 * D) at 2 by ring. apply rneq_scale; lia.
Qed.

(** The location [SFdiv] computes from the remainder of a division. *)
Lemma new_location_spec (D r : Z) :
  0 < D -> 0 <= r < D ->
  new_location D r = if r =? 0 then loc_Exact else loc_Inexact (2 * r ?= D).
Proof.
  intros HD Hr. unfold new_location.
  pose proof (Zmod_even D) as Hm.
  destruct (Z.even D) eqn:Ev; unfold new_location_even, new_location_odd;
    destruct (r =? 0); try reflexivity.
  pose proof (Z.div_mod D 2 ltac:(lia)) as Hd.
  f_equal.
  destruct (Z.compare_spec (2 * r + 1) D); destruct (Z.compare_spec (2 * r) D);
    try reflexivity; lia.
Qed.

Lemma loc_of_record_of_loc (m : Z) (l : location) :
  loc_of_shr_record (shr_record_of_loc m l) = l
  /\ shr_m (shr_record_of_loc m l) = m.
Proof. destruct l as [|[| |]]; split; reflexivity. Qed.

(** Rounding the quotient [A / D], given as its integer part and the
    location of the rest, after [k] shifts. *)
Lemma round_loc (A D k : Z) :
  0 <= A -> 0 < D -> 0 <= k ->
  let rec := fst (shr (shr_record_of_loc (A / D) (new_location D (A mod D))) 0 k) in
  round_nearest_even (shr_m rec) (loc_of_shr_record rec) = rneq A D k.
Proof.
  intros HA HD Hk.
  pose proof (Z.mod_pos_bound A D HD) as Hr.
  assert (Hq : 0 <= A / D) by (apply Z.div_pos; lia).
  rewrite new_location_spec by assumption.
  set (q0 := A / D) in *. set (r0 := A mod D) in *.
  destruct k as [|p|p]; try lia.
  - (* no shift *)
    cbn [shr fst]. cbv zeta.
    destruct (loc_of_record_of_loc q0 (if r0 =? 0 then loc_Exact
                                       else loc_Inexact (2 * r0 ?= D))) as [-> ->].
    unfold rneq. change (2 ^ 0) with 1. rewrite Z.mul_1_r. fold q0 r0.
    destruct (Z.eqb_spec r0 0) as [E|NE].
    + rewrite E. cbn [round_nearest_even].
      destruct (Z.compare_spec (2 * 0) D); try lia; reflexivity.
    + cbn [round_nearest_even]. destruct (2 * r0 ?= D); reflexivity.
  - cbn [shr fst]. cbv zeta.
    assert (Hp1 : 0 < 2 ^ (Zpos p - 1)) by (apply pow2_pos; lia).
    assert (Hpk : 2 ^ Zpos p = 2 * 2 ^ (Zpos p - 1)).
    { replace (Zpos p) with (Zpos p - 1 + 1) at 1 by lia.
      rewrite Z.pow_add_r by lia. change (2 ^ 1) with 2. lia. }
    assert (Hdiv : A / (D * 2 ^ Zpos p) = q0 / 2 ^ Zpos p).
    { unfold q0. rewrite Z.div_div by lia. reflexivity. }
    assert (Hmod : A mod (D * 2 ^ Zpos p) = r0 + D * (q0 mod 2 ^ Zpos p)).
    { unfold r0, q0. apply Z.rem_mul_r; lia. }
    assert (Hmod2 : q0 mod 2 ^ Zpos p
                    = q0 mod 2 ^ (Zpos p - 1)
                      + 2 ^ (Zpos p - 1) * ((q0 / 2 ^ (Zpos p - 1)) mod 2)).
    { replace (Zpos p) with (Zpos p - 1 + 1) at 1 by lia. apply mod_pow2_succ. lia. }
    pose proof (Z.mod_pos_bound q0 (2 ^ (Zpos p - 1)) ltac:(lia)) as Hrho.
    rewrite Zmod_odd in Hmod2.
    set (rho := q0 mod 2 ^ (Zpos p - 1)) in *.
    set (H := 2 ^ (Zpos p - 1)) in *.
    assert (HP : 0 <= D * rho <= D * H - D) by nia.
    assert (HP0 : rho = 0 <-> D * rho = 0) by nia.
    unfold rneq. rewrite Hdiv, Hmod, Hmod2.
    assert (Hrec : forall r s,
              round_nearest_even
                (shr_m (iter_pos shr_1 p (Build_shr_record q0 r s)))
                (loc_of_shr_record (iter_pos shr_1 p (Build_shr_record q0 r s)))
              = match Z.odd (q0 / H), negb (rho =? 0) || r || s with
                | false, _ => q0 / 2 ^ Zpos p
                | true, false => if Z.even (q0 / 2 ^ Zpos p) then q0 / 2 ^ Zpos p
                                 else q0 / 2 ^ Zpos p + 1
                | true, true => q0 / 2 ^ Zpos p + 1
                end).
    { intros r s. rewrite iter_shifted_loc by assumption. fold H rho.
      cbn [shr_m loc_of_shr_record].
      destruct (Z.odd (q0 / H)); destruct (negb (rho =? 0) || r || s); reflexivity. }
    destruct (Z.eqb_spec r0 0) as [E|NE].
    + cbn [shr_record_of_loc]. rewrite Hrec. rewrite !orb_false_r.
      destruct (Z.odd (q0 / H)); destruct (Z.eqb_spec rho 0) as [Er|Nr]; cbn [negb].
      * replace (2 * (r0 + D * (rho + H * 1)) ?= D * 2 ^ Zpos p) with Eq; [reflexivity|].
        symmetry. apply Z.compare_eq_iff. nia.
      * replace (2 * (r0 + D * (rho + H * 1)) ?= D * 2 ^ Zpos p) with Gt; [reflexivity|].
        symmetry. apply Z.compare_gt_iff. nia.
      * replace (2 * (r0 + D * (rho + H * 0)) ?= D * 2 ^ Zpos p) with Lt; [reflexivity|].
        symmetry. apply Z.compare_lt_iff. nia.
      * replace (2 * (r0 + D * (rho + H * 0)) ?= D * 2 ^ Zpos p) with Lt; [reflexivity|].
        symmetry. apply Z.compare_lt_iff. nia.
    + assert (Hs : forall c, exists r s,
                shr_record_of_loc q0 (loc_Inexact c) = Build_shr_record q0 r s
                /\ r || s = true).
      { intros [| |]; [exists true, false | exists false, true | exists true, true];
          split; reflexivity. }
      destruct (Hs (2 * r0 ?= D)) as (r & s & -> & Hrs).
      rewrite Hrec. rewrite <- orb_assoc, Hrs, orb_true_r.
      destruct (Z.odd (q0 / H)).
      * replace (2 * (r0 + D * (rho + H * 1)) ?= D * 2 ^ Zpos p) with Gt; [reflexivity|].
        symmetry. apply Z.compare_gt_iff. nia.
      * replace (2 * (r0 + D * (rho + H * 0)) ?= D * 2 ^ Zpos p) with Lt; [reflexivity|].
        symmetry. apply Z.compare_lt_iff. nia.
Qed.

(** Where a rounded mantissa lies, whatever the location it was rounded
    from. *)
Lemma round_range (q0 e M1 : Z) :
  0 < q0 -> e <= fexp64 (digits q0 + e) ->
  q0 / 2 ^ (fexp64 (digits q0 + e) - e) <= M1
    <= q0 / 2 ^ (fexp64 (digits q0 + e) - e) + 1 ->
  0 <= M1 <= 2 ^ 53
  /\ (0 < M1 < 2 ^ 53 ->
      fexp64 (digits M1 + fexp64 (digits q0 + e)) = fexp64 (digits q0 + e)).
Proof.
  intros HM Ht Hb. set (t := fexp64 (digits q0 + e)) in *.
  pose proof (digits_bounds q0 HM) as [Hlo Hhi].
  pose proof (digits_pos q0 HM) as Hd.
  pose proof (pow2_pos (t - e) ltac:(lia)) as Hp.
  assert (Hq0 : 0 <= q0 / 2 ^ (t - e)) by (apply Z.div_pos; lia).
  assert (Hq : q0 / 2 ^ (t - e) < 2 ^ 53).
  { apply Z.div_lt_upper_bound; [lia|].
    rewrite <- Z.pow_add_r by lia.
    eapply Z.lt_le_trans; [exact Hhi|].
    apply Z.pow_le_mono_r; [lia|]. unfold t, fexp64. lia. }
  split; [lia|]. intros HM1.
  pose proof (digits_bounds M1 ltac:(lia)) as [Hlo1 Hhi1].
  assert (Hd1 : digits M1 <= 53).
  { destruct (Z.le_gt_cases (digits M1) 53); [assumption|].
    assert (2 ^ 53 <= 2 ^ (digits M1 - 1)) by (apply Z.pow_le_mono_r; lia). lia. }
  unfold fexp64. unfold t, fexp64 in *.
  destruct (Z.max_spec (digits q0 + e - 53) (-1074)) as [[Hc Hm]|[Hc Hm]].
  - lia.
  - rewrite Hm in *.
    assert (2 ^ 52 <= q0 / 2 ^ (digits q0 + e - 53 - e)).
    { apply Z.div_le_lower_bound; [lia|].
      rewrite <- Z.pow_add_r by lia.
      replace (digits q0 + e - 53 - e + 52) with (digits q0 - 1) by lia. assumption. }
    assert (digits M1 = 53); [|lia].
    apply digits_unique; [|lia]. change (53 - 1) with 52. lia.
Qed.

(** The end of [binary_round_aux]: renormalising a rounded mantissa. *)
Lemma round_finish (s : bool) (M1 t : Z) :
  -1074 <= t -> 0 <= M1 <= 2 ^ 53 ->
  (0 < M1 < 2 ^ 53 -> fexp64 (digits M1 + t) = t) ->
  (let '(mrs, e) := shr_fexp prec emax M1 t loc_Exact in
   match shr_m mrs with
   | Z0 => S754_zero s
   | Zpos m => if e <=? emax - prec then S754_finite s m e else S754_infinity s
   | Zneg _ => S754_nan
   end) = of_units s (M1 * 2 ^ (t + 1074)).
Proof.
  intros Ht Hr Hc. unfold shr_fexp. rewrite fexp_fexp64.
  change (Zdigits2 M1) with (digits M1). cbn [shr_record_of_loc].
  destruct (Z.eq_dec M1 0) as [E0'|N0].
  - rewrite E0'. change (digits 0) with 0. rewrite Z.mul_0_l.
    assert (Hs : fexp64 (0 + t) - t <= 0) by (unfold fexp64; lia).
    destruct (fexp64 (0 + t) - t) as [|q|q]; try lia; reflexivity.
  - destruct (Z.eq_dec M1 (2 ^ 53)) as [E53|N53].
    + rewrite E53. change (digits (2 ^ 53)) with 54.
      assert (Hs : fexp64 (54 + t) - t = 1) by (unfold fexp64; lia).
      rewrite Hs. cbn [shr shr_record_of_loc iter_pos].
      rewrite shr_1_spec by lia. cbn [shr_m].
      change (2 ^ 53 / 2) with (Zpos (2 ^ 52)%positive).
      replace (2 ^ 53 * 2 ^ (t + 1074))
        with (Zpos (2 ^ 52)%positive * 2 ^ (t + 1 + 1074)).
      2:{ replace (t + 1 + 1074) with (Z.succ (t + 1074)) by lia.
          rewrite Z.pow_succ_r by lia.
          change (Zpos (2 ^ 52)%positive) with (2 ^ 52). lia. }
      rewrite of_units_canonical; [reflexivity|].
      change (digits (Zpos (2 ^ 52)%positive)) with 53. unfold fexp64. lia.
    + assert (HM1 : 0 < M1 < 2 ^ 53) by lia. specialize (Hc HM1).
      rewrite Hc, Z.sub_diag. cbn [shr shr_record_of_loc shr_m].
      destruct M1 as [|m1|m1]; try lia.
      rewrite of_units_canonical by assumption. reflexivity.
Qed.

Lemma shr_parts (r : shr_record) (e k : Z) :
  0 <= k -> shr r e k = (fst (shr r 0 k), e + k).
Proof.
  intros Hk. destruct k as [|p|p]; try lia; cbn [shr fst]; [|reflexivity].
  now rewrite Z.add_0_r.
Qed.

(** What [binary_round_aux] computes from the integer part of a quotient
    and the location of its rest: the quotient rounded to nearest. *)
Lemma round_aux_div (s : bool) (A D e : Z) :
  0 < D -> D <= A -> -1074 <= fexp64 (digits (A / D) + e) ->
  e <= fexp64 (digits (A / D) + e) ->
  binary_round_aux prec emax s (A / D) e (new_location D (A mod D))
  = of_units s (rneq A D (fexp64 (digits (A / D) + e) - e)
                * 2 ^ (fexp64 (digits (A / D) + e) + 1074)).
Proof.
  intros HD HA Ht0 Ht.
  assert (Hq : 0 < A / D) by (apply Z.div_str_pos; lia).
  set (t := fexp64 (digits (A / D) + e)) in *.
  unfold binary_round_aux. unfold shr_fexp at 1. rewrite fexp_fexp64.
  change (Zdigits2 (A / D)) with (digits (A / D)). fold t.
  rewrite shr_parts by lia.
  pose proof (round_loc A D (t - e) ltac:(lia) HD ltac:(lia)) as Hl. cbv zeta in Hl.
  rewrite Hl. replace (e + (t - e)) with t by lia.
  apply round_finish; [assumption| |].
  - apply (round_range (A / D) e); [assumption|fold t; lia|]. fold t.
    pose proof (rneq_bounds A D (t - e)) as Hb.
    rewrite <- Z.div_div in Hb by (try apply pow2_pos; lia). exact Hb.
  - apply (round_range (A / D) e); [assumption|fold t; lia|]. fold t.
    pose proof (rneq_bounds A D (t - e)) as Hb.
    rewrite <- Z.div_div in Hb by (try apply pow2_pos; lia). exact Hb.
Qed.

(** The quotient [A / D], in units of 2^-1074, rounded to nearest onto the
    grid of binary64. *)
Definition round_quot (D A : Z) : Z :=
  let t := fexp64 (digits (A / D) - 1074) in
  rneq A D (t + 1074) * 2 ^ (t + 1074).

Lemma div_bounds (B n d : Z) :
  0 < n -> 2 ^ (d - 1) <= B / n < 2 ^ d -> 2 ^ (d - 1) * n <= B < 2 ^ d * n.
Proof.
  intros Hn [H1 H2].
  pose proof (Z.mul_div_le B n Hn). pose proof (Z.mul_succ_div_gt B n Hn).
  split; nia.
Qed.

Lemma digits_div_shift (B n j : Z) :
  0 < n -> n <= B -> 0 <= j -> digits (B * 2 ^ j / n) = digits (B / n) + j.
Proof.
  intros Hn HB Hj.
  assert (Hq : 0 < B / n) by (apply Z.div_str_pos; lia).
  pose proof (digits_bounds _ Hq) as Hd. pose proof (digits_pos _ Hq) as Hp.
  destruct (div_bounds B n _ Hn Hd) as [H1 H2].
  pose proof (pow2_pos j Hj) as Pj.
  pose proof (pow2_pos (digits (B / n) - 1) ltac:(lia)) as Pd.
  assert (L : 2 ^ (digits (B / n) + j - 1) <= B * 2 ^ j / n).
  { apply Z.div_le_lower_bound; [lia|].
    replace (digits (B / n) + j - 1) with (digits (B / n) - 1 + j) by lia.
    rewrite Z.pow_add_r by lia. nia. }
  assert (U : B * 2 ^ j / n < 2 ^ (digits (B / n) + j)).
  { apply Z.div_lt_upper_bound; [lia|]. rewrite Z.pow_add_r by lia. nia. }
  apply digits_unique; [split; assumption|]. 
  eapply Z.lt_le_trans; [|exact L]. apply pow2_pos. lia.
Qed.

Lemma round_quot_exact (D V : Z) :
  0 < D -> round_quot D (V * D) = round_units (-1074) V.
Proof.
  intros HD. unfold round_quot, round_units. rewrite Z.div_mul by lia. cbv zeta.
  replace (digits V + -1074) with (digits V - 1074) by lia.
  set (t := fexp64 (digits V - 1074)).
  assert (-1074 <= t) by (unfold t, fexp64; lia).
  rewrite rneq_exact by lia.
  replace (t - -1074) with (t + 1074) by lia. reflexivity.
Qed.

Lemma round_quot_nonneg (D A : Z) : 0 < D -> 0 <= A -> 0 <= round_quot D A.
Proof.
  intros HD HA. unfold round_quot. cbv zeta.
  set (t := fexp64 (digits (A / D) - 1074)).
  assert (-1074 <= t) by (unfold t, fexp64; lia).
  pose proof (rneq_bounds A D (t + 1074)) as [Hb _].
  pose proof (pow2_pos (t + 1074) ltac:(lia)).
  assert (0 <= A / (D * 2 ^ (t + 1074))) by (apply Z.div_pos; nia).
  apply Z.mul_nonneg_nonneg; lia.
Qed.

(** Rounding a quotient is monotone in the numerator. *)
Lemma round_quot_mono (D A A' : Z) :
  0 < D -> D <= A -> A <= A' -> round_quot D A <= round_quot D A'.
Proof.
  intros HD HA HAA. unfold round_quot. cbv zeta.
  assert (HV : 0 < A / D) by (apply Z.div_str_pos; lia).
  assert (HVV : A / D <= A' / D) by (apply Z.div_le_mono; lia).
  pose proof (digits_mono _ _ HV HVV) as Hd.
  pose proof (fexp64_mono (digits (A / D) - 1074) (digits (A' / D) - 1074) ltac:(lia)) as Ht.
  set (V := A / D) in *. set (V' := A' / D) in *.
  set (t := fexp64 (digits V - 1074)) in *. set (t' := fexp64 (digits V' - 1074)) in *.
  assert (Ht0 : -1074 <= t) by (unfold t, fexp64; lia).
  pose proof (pow2_pos (t + 1074) ltac:(lia)) as Hp.
  pose proof (pow2_pos (t' + 1074) ltac:(lia)) as Hp'.
  destruct (Z.eq_dec t t') as [<-|Hne].
  - apply Z.mul_le_mono_nonneg_r; [lia|]. apply rneq_mono; lia.
  - assert (Ht' : t' = digits V' - 1074 - 53) by (unfold t', fexp64 in *; lia).
    assert (Hdd : digits V < digits V').
    { destruct (Z.eq_dec (digits V) (digits V')) as [E|]; [|lia].
      unfold t, t' in Hne. rewrite E in Hne. lia. }
    pose proof (digits_bounds V HV) as [_ Hhi].
    pose proof (digits_bounds V' ltac:(lia)) as [Hlo' _].
    pose proof (rneq_bounds A D (t + 1074)) as [_ Hup].
    pose proof (rneq_bounds A' D (t' + 1074)) as [Hdown _].
    rewrite <- Z.div_div in Hup, Hdown by lia. fold V in Hup. fold V' in Hdown.
    assert (Hbig : 2 ^ 52 <= V' / 2 ^ (t' + 1074)).
    { apply Z.div_le_lower_bound; [lia|].
      rewrite <- Z.pow_add_r by lia.
      replace (t' + 1074 + 52) with (digits V' - 1) by lia. assumption. }
    assert (Hsmall : V / 2 ^ (t + 1074) + 1 <= 2 ^ (52 + t' - t)).
    { assert (V / 2 ^ (t + 1074) < 2 ^ (52 + t' - t)); [|lia].
      apply Z.div_lt_upper_bound; [lia|].
      rewrite <- Z.pow_add_r by lia.
      eapply Z.lt_le_trans; [exact Hhi|].
      apply Z.pow_le_mono_r; lia. }
    apply Z.le_trans with (2 ^ (52 + t' - t) * 2 ^ (t + 1074)).
    + apply Z.mul_le_mono_nonneg_r; lia.
    + rewrite <- Z.pow_add_r by lia.
      replace (52 + t' - t + (t + 1074)) with (52 + (t' + 1074)) by lia.
      rewrite Z.pow_add_r by lia.
      apply Z.mul_le_mono_nonneg_r; lia.
Qed.

(** A value of at most 53 digits, times a power of two from 2^52 on, is
    on the grid: rounding leaves it as it is. *)
Lemma round_units_on_grid (a j : Z) :
  0 < a < 2 ^ 53 -> 52 <= j -> round_units (-1074) (a * 2 ^ j) = a * 2 ^ j.
Proof.
  intros Ha Hj. pose proof (digits_le_53 a Ha) as Hd.
  pose proof (pow2_pos (53 - digits a) ltac:(lia)) as Hp.
  set (M := a * 2 ^ (53 - digits a)).
  set (e := j - 1074 - (53 - digits a)).
  assert (HM : 0 < M) by (unfold M; nia).
  assert (HdM : digits M = 53) by (unfold M; rewrite digits_shift; lia).
  assert (Hc : fexp64 (digits M + e) = e) by (rewrite HdM; unfold fexp64, e; lia).
  assert (HV : a * 2 ^ j = M * 2 ^ (e - -1074)).
  { unfold M, e. rewrite <- Z.mul_assoc, <- Z.pow_add_r by lia. f_equal. f_equal. lia. }
  rewrite HV at 1. rewrite round_units_align by (unfold e in *; lia).
  rewrite Hc, Z.sub_diag, rne_0. rewrite HV.
  replace (e - -1074) with (e + 1074) by lia. reflexivity.
Qed.

(** Truncation reads the whole units. *)
Lemma trunc_of_units (V : Z) :
  0 <= V < 2 ^ 1127 -> Binary64.trunc (of_units false V) = V / 2 ^ 1074.
Proof.
  intros [H0 H1]. destruct (Z.eq_dec V 0) as [->|Hn]; [reflexivity|].
  destruct (of_units_pos false V ltac:(lia)) as [Hq ->]. cbv zeta in Hq |- *.
  pose proof (digits_bounds V ltac:(lia)) as [Hlo _].
  assert (Hd : digits V <= 1127).
  { destruct (Z.le_gt_cases (digits V) 1127); [assumption|].
    assert (2 ^ 1127 <= 2 ^ (digits V - 1)) by (apply Z.pow_le_mono_r; lia). lia. }
  set (k := Z.max 0 (digits V - 53)) in *.
  assert (Hk : 0 <= k <= 1074) by (unfold k; lia).
  destruct (Z.leb_spec (k - 1074) 971); [|lia].
  unfold Binary64.trunc. rewrite Z2Pos.id by assumption.
  pose proof (pow2_pos k ltac:(lia)) as Pk.
  destruct (Z.leb_spec 0 (k - 1074)).
  - replace (k - 1074) with 0 by lia. rewrite Z.shiftl_0_r.
    replace k with 1074 by lia. reflexivity.
  - rewrite Z.shiftr_div_pow2 by lia.
    replace (- (k - 1074)) with (1074 - k) by lia.
    pose proof (pow2_pos (1074 - k) ltac:(lia)).
    rewrite Z.div_div by lia. rewrite <- Z.pow_add_r by lia.
    f_equal. f_equal. lia.
Qed.

(** The quotient of two positive integers below 2^53, as floats: the
    exact quotient, rounded once. *)
Lemma SFdiv_int_floats (T n : Z) :
  0 < T < 2 ^ 53 -> 0 < n < 2 ^ 53 ->
  SF64div (int_float T) (int_float n) = of_units false (round_quot n (T * 2 ^ 1074)).
Proof.
  intros HT Hn.
  destruct (int_float_pos T HT) as (HZa & Hma & Hda & _ & _).
  destruct (int_float_pos n Hn) as (HZb & Hmb & Hdb & _ & _).
  pose proof (digits_le_53 T HT) as Da. pose proof (digits_le_53 n Hn) as Db.
  pose proof (digits_bounds T ltac:(lia)) as [LT UT].
  pose proof (digits_bounds n ltac:(lia)) as [Ln Un].
  rewrite HZa, HZb.
  set (ma := Z.to_pos (T * 2 ^ (53 - digits T))) in *.
  set (mb := Z.to_pos (n * 2 ^ (53 - digits n))) in *.
  set (da := digits T) in *. set (db := digits n) in *.
  unfold SF64div, SFdiv, SFdiv_core_binary. rewrite fexp_fexp64.
  change (Zdigits2 (Zpos ma)) with (digits (Zpos ma)).
  change (Zdigits2 (Zpos mb)) with (digits (Zpos mb)).
  rewrite Hda, Hdb.
  replace (Z.min (fexp64 (53 + (da - 53) - (53 + (db - 53)))) (da - 53 - (db - 53)))
    with (da - db - 53) by (unfold fexp64; lia).
  replace (da - 53 - (db - 53) - (da - db - 53)) with 53 by lia.
  rewrite Z.shiftl_mul_pow2 by lia.
  set (J := 53 - da + db).
  pose proof (pow2_pos (53 - da) ltac:(lia)) as Pa.
  pose proof (pow2_pos (53 - db) ltac:(lia)) as Pb.
  pose proof (pow2_pos J ltac:(unfold J; lia)) as PJ.
  pose proof (pow2_pos (1074 - J) ltac:(unfold J; lia)) as PJ'.
  (* numerator and divisor share the factor 2^(53 - db) *)
  assert (HA : Zpos ma * 2 ^ 53 = T * 2 ^ J * 2 ^ (53 - db)).
  { rewrite Hma. rewrite <- !Z.mul_assoc, <- !Z.pow_add_r by (unfold J; lia).
    f_equal. f_equal. unfold J. lia. }
  assert (Hge : n <= T * 2 ^ J).
  { assert (2 ^ (da - 1) * 2 ^ J <= T * 2 ^ J) by (apply Z.mul_le_mono_nonneg_r; lia).
    rewrite <- Z.pow_add_r in H by (unfold J; lia).
    assert (2 ^ db <= 2 ^ (da - 1 + J)) by (apply Z.pow_le_mono_r; unfold J; lia).
    lia. }
  assert (Hquot : Zpos ma * 2 ^ 53 / Zpos mb = T * 2 ^ J / n).
  { rewrite HA, Hmb. apply Z.div_mul_cancel_r; lia. }
  assert (Hdiv : Z.div_eucl (Zpos ma * 2 ^ 53) (Zpos mb)
                 = (Zpos ma * 2 ^ 53 / Zpos mb, (Zpos ma * 2 ^ 53) mod Zpos mb)).
  { unfold Z.div, Z.modulo.
    destruct (Z.div_eucl (Zpos ma * 2 ^ 53) (Zpos mb)); reflexivity. }
  rewrite Hdiv. cbn [xorb].
  assert (Hq52 : 2 ^ 52 <= T * 2 ^ J / n).
  { apply Z.div_le_lower_bound; [lia|].
    assert (2 ^ (da - 1) * 2 ^ J <= T * 2 ^ J) by (apply Z.mul_le_mono_nonneg_r; lia).
    rewrite <- Z.pow_add_r in H by (unfold J; lia).
    replace (da - 1 + J) with (52 + db) in H by (unfold J; lia).
    rewrite Z.pow_add_r in H by lia. nia. }
  assert (Hd53 : 53 <= digits (T * 2 ^ J / n)).
  { pose proof (digits_bounds (T * 2 ^ J / n) ltac:(lia)) as [_ U].
    destruct (Z.le_gt_cases 53 (digits (T * 2 ^ J / n))); [assumption|].
    assert (2 ^ digits (T * 2 ^ J / n) <= 2 ^ 52) by (apply Z.pow_le_mono_r; lia).
    lia. }
  rewrite round_aux_div; rewrite ?Hquot; try lia.
  - (* the same rounding as that of the quotient in units *)
    f_equal. unfold round_quot. cbv zeta.
    replace (T * 2 ^ 1074) with (T * 2 ^ J * 2 ^ (1074 - J))
      by (rewrite <- Z.mul_assoc, <- Z.pow_add_r by (unfold J; lia);
          f_equal; f_equal; lia).
    rewrite (digits_div_shift (T * 2 ^ J) n (1074 - J)) by (try assumption; unfold J; lia).
    replace (digits (T * 2 ^ J / n) + (1074 - J) - 1074)
      with (digits (T * 2 ^ J / n) + (da - db - 53)) by (unfold J; lia).
    set (t := fexp64 (digits (T * 2 ^ J / n) + (da - db - 53))).
    assert (Ht : da - db - 53 <= t) by (unfold t, fexp64; lia).
    replace (t + 1074) with (t - (da - db - 53) + (1074 - J)) at 2 by (unfold J; lia).
    rewrite rneq_shift by (unfold J; lia).
    rewrite HA, Hmb. rewrite rneq_scale by lia. reflexivity.
  - rewrite HA, Hmb. apply Z.mul_le_mono_nonneg_r; lia.
  - unfold fexp64. lia.
  - unfold fexp64. lia.
Qed.

End Quotients.

(** * Square roots, halves and units in binary64 *)

Section SquareRoots.
Local Open Scope Z_scope.

(** The location [SFsqrt_core_binary] records is that of a quotient by 4. *)
Lemma sqrt_location (q r : Z) :
  0 <= r <= 2 * q ->
  let c := if r =? 0 then 0 else if r <=? q then 1 else 3 in
  (if r =? 0 then loc_Exact else loc_Inexact (if r <=? q then Lt else Gt))
  = new_location 4 ((4 * q + c) mod 4)
  /\ (4 * q + c) / 4 = q /\ 0 <= c <= 3.
Proof.
  intros Hr c.
  assert (Hc : 0 <= c <= 3) by (unfold c; destruct (r =? 0), (r <=? q); lia).
  assert (Hm : (4 * q + c) mod 4 = c).
  { rewrite Z.add_comm, Z.mul_comm, Z.mod_add by lia. apply Z.mod_small. lia. }
  assert (Hd : (4 * q + c) / 4 = q).
  { rewrite Z.add_comm, Z.mul_comm, Z.div_add by lia. rewrite Z.div_small by lia. lia. }
  rewrite Hm. repeat split; try lia.
  unfold c. destruct (r =? 0); [reflexivity|]. destruct (r <=? q); reflexivity.
Qed.

(** A lower bound of a square root in binary64: a representable [U] units
    whose square is at most the argument is at most the rounded root. *)
Lemma SFsqrt_lower (m : positive) (e U : Z) :
  valid_binary (S754_finite false m e) = true ->
  0 < U -> round_units (-1074) U = U ->
  (2 ^ (Z.div2 e + 1074) | U) ->
  U * U <= Zpos m * 2 ^ (e + 1074) * 2 ^ 1074 ->
  SFleb (of_units false U) (SF64sqrt (S754_finite false m e)) = true.
Proof.
  intros Hv HU Hgrid Hdvd Hsq.
  apply valid_finite in Hv. destruct Hv as [Hc He].
  unfold SF64sqrt, SFsqrt, SFsqrt_core_binary. rewrite fexp_fexp64.
  change (Zdigits2 (Zpos m)) with (digits (Zpos m)).
  set (d := digits (Zpos m)) in *.
  set (e' := Z.min (fexp64 (Z.div2 (d + e + 1))) (Z.div2 e)).
  pose proof (Z.div2_odd e) as Hodd.
  assert (Hb : 0 <= Z.b2z (Z.odd e) <= 1) by (destruct (Z.odd e); simpl; lia).
  assert (He1 : e' <= Z.div2 e) by (unfold e'; lia).
  assert (He0 : -1074 <= e') by (unfold e', fexp64; lia).
  assert (Hs : 0 <= e - 2 * e') by lia.
  assert (Hm' : match e - 2 * e' with
                | Zpos _ => Z.shiftl (Zpos m) (e - 2 * e')
                | Z0 => Zpos m
                | Zneg _ => 0
                end = Zpos m * 2 ^ (e - 2 * e')).
  { destruct (e - 2 * e') as [|p|p] eqn:E; try lia.
    now rewrite Z.shiftl_mul_pow2. }
  rewrite Hm'. clear Hm'.
  set (s := e - 2 * e') in *.
  pose proof (pow2_pos s Hs) as Ps.
  set (m' := Zpos m * 2 ^ s).
  assert (Hm'pos : 0 < m') by (unfold m'; nia).
  pose proof (Z.sqrtrem_spec m' ltac:(lia)) as Hspec.
  destruct (Z.sqrtrem m') as [q r]. destruct Hspec as [Hqr Hr].
  assert (Hq : 1 <= q) by nia.
  destruct (sqrt_location q r Hr) as (Hloc & Hdiv & Hcr).
  set (c := if r =? 0 then 0 else if r <=? q then 1 else 3) in *.
  rewrite Hloc. rewrite <- Hdiv at 1.
  (* the root has 53 digits unless the exponent is the least one *)
  pose proof (digits_bounds (Zpos m) ltac:(lia)) as [Ld Ud]. fold d in Ld, Ud.
  assert (Ht : e' <= fexp64 (digits q + e')).
  { unfold fexp64. destruct (Z.le_gt_cases e' (-1074)); [lia|].
    assert (E1 : e' <= Z.div2 (d + e + 1) - 53) by (unfold e', fexp64 in *; lia).
    pose proof (Z.div2_odd (d + e + 1)) as Ho.
    assert (Hb1 : 0 <= Z.b2z (Z.odd (d + e + 1)) <= 1)
      by (destruct (Z.odd (d + e + 1)); simpl; lia).
    assert (Hds : 105 <= d + s) by (unfold s; lia).
    assert (Hm104 : 2 ^ 104 <= m').
    { unfold m'. assert (Hx : 2 ^ (d - 1) * 2 ^ s <= Zpos m * 2 ^ s)
        by (apply Z.mul_le_mono_nonneg_r; lia).
      pose proof (digits_pos (Zpos m) ltac:(lia)) as Hdp. fold d in Hdp.
      rewrite <- Z.pow_add_r in Hx by lia.
      assert (2 ^ 104 <= 2 ^ (d - 1 + s)) by (apply Z.pow_le_mono_r; lia). lia. }
    assert (Hq52 : 2 ^ 52 <= q).
    { destruct (Z.le_gt_cases (2 ^ 52) q) as [|Hlt]; [assumption|].
      assert (Hx : (q + 1) * (q + 1) <= 2 ^ 52 * 2 ^ 52) by nia.
      change (2 ^ 52 * 2 ^ 52) with (2 ^ 104) in Hx. nia. }
    assert (53 <= digits q).
    { pose proof (digits_bounds q ltac:(lia)) as [_ Uq].
      destruct (Z.le_gt_cases 53 (digits q)); [assumption|].
      assert (2 ^ digits q <= 2 ^ 52) by (apply Z.pow_le_mono_r; lia). lia. }
    lia. }
  rewrite round_aux_div; rewrite ?Hdiv; try lia; try (unfold fexp64; lia).
  set (t := fexp64 (digits q + e')) in *.
  set (j := e' + 1074).
  pose proof (pow2_pos j ltac:(unfold j; lia)) as Pj.
  (* the result as one rounding of a quotient in units *)
  assert (Hrq : rneq (4 * q + c) 4 (t - e') * 2 ^ (t + 1074)
                = round_quot 4 ((4 * q + c) * 2 ^ j)).
  { unfold round_quot. cbv zeta.
    rewrite (digits_div_shift (4 * q + c) 4 j) by (unfold j; lia).
    rewrite Hdiv. replace (digits q + j - 1074) with (digits q + e') by (unfold j; lia).
    fold t. replace (t + 1074) with (t - e' + j) at 2 by (unfold j; lia).
    rewrite rneq_shift by (unfold j; lia). reflexivity. }
  rewrite Hrq.
  (* [U] is a multiple of the unit of the root *)
  destruct Hdvd as [H0 HU0].
  assert (HUj : exists H, U = H * 2 ^ j).
  { exists (H0 * 2 ^ (Z.div2 e + 1074 - j)).
    rewrite <- Z.mul_assoc, <- Z.pow_add_r by (unfold j; lia).
    rewrite HU0. f_equal. f_equal. unfold j. lia. }
  destruct HUj as [H HUj].
  assert (HH : 0 < H) by nia.
  assert (Hsq' : H * H <= m').
  { assert (E : Zpos m * 2 ^ (e + 1074) * 2 ^ 1074 = m' * (2 ^ j * 2 ^ j)).
    { unfold m'. rewrite <- !Z.mul_assoc, <- !Z.pow_add_r by (unfold j; lia).
      f_equal. f_equal. unfold s, j. lia. }
    rewrite E, HUj in Hsq.
    assert (0 < 2 ^ j * 2 ^ j) by nia.
    apply (Z.mul_le_mono_pos_r _ _ (2 ^ j * 2 ^ j)); [assumption|]. lia. }
  assert (HHq : H <= q) by nia.
  rewrite <- Hgrid, <- (round_quot_exact 4 U) by lia.
  apply of_units_mono.
  - apply round_quot_nonneg; lia.
  - apply round_quot_mono; try lia. rewrite HUj. nia.
Qed.

End SquareRoots.

Section Halves.
Local Open Scope Z_scope.

(** The float of [a * 2^j] units, for an integer [a] below 2^53. *)
Lemma of_units_grid (s : bool) (a j : Z) :
  0 < a < 2 ^ 53 -> 52 <= j <= 1074 ->
  let m := Z.to_pos (a * 2 ^ (53 - digits a)) in
  let e := digits a - 53 + j - 1074 in
  of_units s (a * 2 ^ j) = S754_finite s m e
  /\ valid_binary (S754_finite s m e) = true
  /\ Zpos m * 2 ^ (e + 1074) = a * 2 ^ j
  /\ digits (Zpos m) = 53.
Proof.
  intros Ha Hj m e. pose proof (digits_le_53 a Ha) as Hd.
  pose proof (pow2_pos (53 - digits a) ltac:(lia)) as Hp.
  assert (Hm : Zpos m = a * 2 ^ (53 - digits a)) by (unfold m; rewrite Z2Pos.id; nia).
  assert (Hdm : digits (Zpos m) = 53).
  { rewrite Hm, digits_shift by lia. lia. }
  assert (Hc : fexp64 (digits (Zpos m) + e) = e) by (rewrite Hdm; unfold fexp64, e; lia).
  assert (Hu : Zpos m * 2 ^ (e + 1074) = a * 2 ^ j).
  { rewrite Hm, <- Z.mul_assoc, <- Z.pow_add_r by (unfold e; lia).
    f_equal. f_equal. unfold e. lia. }
  repeat split; try assumption.
  - rewrite <- Hu, of_units_canonical by assumption.
    destruct (Z.leb_spec e 971); [reflexivity|unfold e in *; lia].
  - unfold SpecFloat.valid_binary, bounded, canonical_mantissa. rewrite fexp_fexp64.
    change (Zpos (digits2_pos m)) with (digits (Zpos m)).
    apply andb_true_iff. split.
    + now apply Z.eqb_eq.
    + apply Z.leb_le. change (emax - prec) with 971. unfold e. lia.
Qed.

Lemma round_signed_grid (c j : Z) :
  - 2 ^ 53 < c < 2 ^ 53 -> 52 <= j -> round_signed (-1074) (c * 2 ^ j) = c * 2 ^ j.
Proof.
  intros Hc Hj. pose proof (pow2_pos j ltac:(lia)) as P. unfold round_signed.
  destruct (Z.ltb_spec (c * 2 ^ j) 0) as [Hn|Hn].
  - replace (- (c * 2 ^ j)) with (- c * 2 ^ j) by ring.
    rewrite round_units_on_grid by nia. ring.
  - destruct (Z.eq_dec c 0) as [->|Hc0].
    + rewrite Z.mul_0_l. apply round_units_0.
    + apply round_units_on_grid; nia.
Qed.

(** A product that is [a * 2^j] units, for [a] below 2^53, does not round. *)
Lemma round_units_deep (a j : Z) :
  0 < a < 2 ^ 53 -> 52 <= j -> round_units (-2148) (a * 2 ^ (j + 1074)) = a * 2 ^ j.
Proof.
  intros Ha Hj. pose proof (digits_le_53 a Ha) as Hd.
  pose proof (pow2_pos (53 - digits a) ltac:(lia)) as Hp.
  set (M := a * 2 ^ (53 - digits a)). set (e := digits a - 53 + j - 1074).
  assert (HM : 0 < M) by (unfold M; nia).
  assert (Hdm : digits M = 53) by (unfold M; rewrite digits_shift by lia; lia).
  assert (E1 : a * 2 ^ (j + 1074) = M * 2 ^ (e - -2148)).
  { unfold M. rewrite <- Z.mul_assoc, <- Z.pow_add_r by (unfold e; lia).
    f_equal. f_equal. unfold e. lia. }
  assert (Hc : fexp64 (digits M + e) = e) by (rewrite Hdm; unfold fexp64, e; lia).
  rewrite E1, round_units_align by (unfold e in *; lia).
  rewrite Hc, Z.sub_diag, rne_0.
  unfold M. rewrite <- Z.mul_assoc, <- Z.pow_add_r by (unfold e; lia).
  f_equal. f_equal. unfold e. lia.
Qed.

Lemma int_float_1 : int_float 1 = S754_finite false 4503599627370496 (-52).
Proof. reflexivity. Qed.

(** Multiplying by 1 changes nothing. *)
Lemma SFmul_one_l (x : spec_float) :
  valid_binary x = true -> SF64mul (int_float 1) x = x.
Proof.
  intros Hv. destruct x as [s|s| |s m e]; try reflexivity.
  rewrite int_float_1, SFmul_finite by (assumption || reflexivity).
  apply valid_finite in Hv. destruct Hv as [Hc He].
  cbn [xorb].
  replace (4503599627370496 * 2 ^ (-52 + 1074) * (Zpos m * 2 ^ (e + 1074)))
    with (Zpos m * 2 ^ (e - -2148)).
  - rewrite round_units_align by lia. rewrite Hc, Z.sub_diag, rne_0.
    rewrite of_units_canonical by assumption.
    destruct (Z.leb_spec e 971); [reflexivity|lia].
  - change 4503599627370496 with (2 ^ 52). change (-52 + 1074) with 1022.
    replace (e - -2148) with (52 + 1022 + (e + 1074)) by lia.
    rewrite !Z.pow_add_r by lia. ring.
Qed.

(** Dividing a normal number by 1 changes nothing. *)
Lemma SFdiv_one (s : bool) (m : positive) (e : Z) :
  valid_binary (S754_finite s m e) = true -> digits (Zpos m) = 53 -> -1073 <= e ->
  SF64div (S754_finite s m e) (int_float 1) = S754_finite s m e.
Proof.
  intros Hv Hd He. apply valid_finite in Hv. destruct Hv as [Hc He'].
  rewrite int_float_1. unfold SF64div, SFdiv, SFdiv_core_binary. rewrite fexp_fexp64.
  change (Zdigits2 (Zpos m)) with (digits (Zpos m)). rewrite Hd.
  change (Zdigits2 4503599627370496) with 53.
  replace (Z.min (fexp64 (53 + e - (53 + -52))) (e - -52)) with (e - 1)
    by (unfold fexp64; lia).
  replace (e - -52 - (e - 1)) with 53 by lia.
  rewrite Z.shiftl_mul_pow2 by lia.
  assert (Hdiv : Z.div_eucl (Zpos m * 2 ^ 53) 4503599627370496 = (2 * Zpos m, 0)).
  { pose proof (Z.div_eucl_eq (Zpos m * 2 ^ 53) 4503599627370496 ltac:(lia)) as E.
    pose proof (Z.mod_pos_bound (Zpos m * 2 ^ 53) 4503599627370496 ltac:(lia)) as B.
    unfold Z.modulo in B.
    destruct (Z.div_eucl (Zpos m * 2 ^ 53) 4503599627370496) as [q r].
    change (2 ^ 53) with (2 * 4503599627370496) in E.
    assert (q = 2 * Zpos m) by nia. assert (r = 0) by nia. now subst. }
  rewrite Hdiv. rewrite xorb_false_r.
  change (new_location 4503599627370496 0) with loc_Exact.
  rewrite (round_aux_spec s (2 * Zpos m) (e - 1) (-1074)); try lia.
  - replace (2 * Zpos m * 2 ^ (e - 1 - -1074)) with (Zpos m * 2 ^ (e - -1074)).
    + rewrite round_units_align by lia. rewrite Hc, Z.sub_diag, rne_0.
      rewrite of_units_canonical by assumption.
      destruct (Z.leb_spec e 971); [reflexivity|lia].
    + replace (e - -1074) with (1 + (e - 1 - -1074)) by lia.
      rewrite Z.pow_add_r by lia. ring.
  - replace (2 * Zpos m) with (Zpos m * 2 ^ 1) by (change (2 ^ 1) with 2; ring).
    rewrite digits_shift by lia. rewrite Hd. unfold fexp64. lia.
Qed.

End Halves.

(** * The band of the filter in binary64 *)

Section Binary64Band.
Local Open Scope float_scope.

Lemma SFltb_irrefl (x : spec_float) : SFltb x x = false.
Proof.
  destruct x as [s|s| |s m e]; try destruct s; try reflexivity;
    unfold SFltb, SFcompare; rewrite Z.compare_refl, Pos.compare_cont_refl; reflexivity.
Qed.

Lemma not_negative_ltb (x : spec_float) :
  SFltb x (S754_zero false) = false -> not_negative x = true.
Proof. destruct x as [s|s| |s m e]; try destruct s; intros H; try reflexivity; discriminate. Qed.

Lemma SFleb_opp_self (p : spec_float) :
  SFleb (S754_zero false) p = true -> SFleb (SFopp p) p = true.
Proof.
  destruct p as [s|s| |s m e]; try destruct s; intros H; try discriminate; reflexivity.
Qed.

Lemma positive_not_nan (x : spec_float) :
  SFltb (S754_zero false) x = true -> x <> S754_nan.
Proof. intros H E. rewrite E in H. discriminate. Qed.

(** With [N > 0] and a standard deviation that is not negative the upper
    bound of the band is never below the lower one, whatever the rounding
    of the product, the sum and the difference. *)
Lemma band_not_inverted (N m s : float) :
  (0 <? N) = true -> (s <? 0) = false ->
  (m + N * s <? m - N * s) = false.
Proof.
  rewrite !ltb_spec, add_spec, sub_spec, mul_spec.
  change (Prim2SF 0) with (S754_zero false).
  intros HN Hs. apply not_negative_ltb in Hs.
  pose proof (Prim2SF_valid N) as VN. pose proof (Prim2SF_valid m) as Vm.
  pose proof (Prim2SF_valid s) as Vs.
  pose proof (Prim2SF_valid (N * s)) as Vp. rewrite mul_spec in Vp.
  destruct (SFmul_mono _ _ _ VN VN Vs HN (SFleb_refl _ (positive_not_nan _ HN)) Hs)
    as [E|[_ Hp]].
  - rewrite E. destruct (Prim2SF m); reflexivity.
  - rewrite SFsub_add. apply SFadd_mono_weak; try assumption.
    + now rewrite valid_opp.
    + now apply SFleb_opp_self.
Qed.


Lemma outside_binary64 (N : float) (means stddevs : list float) (i : nat) (v : float) :
  outside N means stddevs i v
  = (at_index means i + N * at_index stddevs i <? v)
    || (v <? at_index means i - N * at_index stddevs i).
Proof. reflexivity. Qed.

(** C3: in binary64, with [N > 0] and a standard deviation that is not
    negative, the test on a channel rejects a value exactly when it is
    strictly above the computed bound [mean + N*stddev] or strictly below
    the computed bound [mean - N*stddev]; a value equal to one of the two
    bounds is not rejected. *)
Theorem binary64_boundary_value_is_kept
  (N : float) (means stddevs : list float) (i : nat) (v : float) :
  (0 <? N) = true -> (at_index stddevs i <? 0) = false ->
  (outside N means stddevs i v = true
   <-> (at_index means i + N * at_index stddevs i <? v) = true
       \/ (v <? at_index means i - N * at_index stddevs i) = true)
  /\ ((v =? at_index means i + N * at_index stddevs i) = true ->
      outside N means stddevs i v = false)
  /\ ((v =? at_index means i - N * at_index stddevs i) = true ->
      outside N means stddevs i v = false)
  /\ outside N means stddevs i (at_index means i + N * at_index stddevs i) = false
  /\ outside N means stddevs i (at_index means i - N * at_index stddevs i) = false.
Proof.
  intros HN Hs. rewrite !outside_binary64.
  pose proof (band_not_inverted N (at_index means i) (at_index stddevs i) HN Hs) as Hband.
  set (hi := at_index means i + N * at_index stddevs i) in *.
  set (lo := at_index means i - N * at_index stddevs i) in *.
  rewrite ltb_spec in Hband.
  split; [apply orb_true_iff|].
  rewrite !eqb_spec, !ltb_spec.
  split; [|split; [|split]].
  - intros He. apply SFeqb_leb in He. destruct He as [H1 H2].
    rewrite (SFleb_not_ltb _ _ H1). cbn [orb].
    destruct (SFltb (Prim2SF v) (Prim2SF lo)) eqn:E; [|reflexivity].
    rewrite (SFleb_ltb_trans _ _ _ H2 E) in Hband. discriminate.
  - intros He. apply SFeqb_leb in He. destruct He as [H1 H2].
    rewrite (SFleb_not_ltb _ _ H2), orb_false_r.
    destruct (SFltb (Prim2SF hi) (Prim2SF v)) eqn:E; [|reflexivity].
    rewrite (SFltb_leb_trans _ _ _ E H1) in Hband. discriminate.
  - now rewrite SFltb_irrefl, Hband.
  - now rewrite SFltb_irrefl, Hband.
Qed.

Lemma stddev_not_negative (l : list float) :
  not_negative (Prim2SF (stats.stddev l)) = true.
Proof.
  unfold stats.stddev. cbn [fsqrt binary64]. rewrite sqrt_spec.
  apply SFsqrt_not_negative.
Qed.

Lemma stack_stddevs_not_negative (colors : list color.Color) (i : nat) :
  not_negative (Prim2SF (at_index (stack_stddevs colors) i)) = true.
Proof.
  unfold at_index, stack_stddevs.
  destruct (nth_in_or_default i (map stats.stddev (@channels_of float _ colors))
              (of_int 0)) as [Hin | ->].
  - apply in_map_iff in Hin. destruct Hin as [l [<- _]]. apply stddev_not_negative.
  - reflexivity.
Qed.

(** The test of one channel at two thresholds, on any mean and any
    standard deviation that is not negative. *)
Lemma outside_monotone_binary64
  (N1 N2 : float) (means stddevs : list float) (i : nat) (v : float) :
  (0 <? N1) = true -> (N1 <=? N2) = true ->
  not_negative (Prim2SF (at_index stddevs i)) = true ->
  outside N2 means stddevs i v = true -> outside N1 means stddevs i v = true.
Proof.
  intros HN1 HN Hs. rewrite !outside_binary64.
  set (m := at_index means i). set (s := at_index stddevs i) in *.
  rewrite ltb_spec in HN1. rewrite leb_spec in HN.
  change (Prim2SF 0) with (S754_zero false) in HN1.
  rewrite !orb_true_iff, !ltb_spec, !add_spec, !sub_spec, !mul_spec.
  pose proof (Prim2SF_valid N1) as V1. pose proof (Prim2SF_valid N2) as V2.
  pose proof (Prim2SF_valid s) as Vs. pose proof (Prim2SF_valid m) as Vm.
  pose proof (Prim2SF_valid (N1 * s)) as Vp1. rewrite mul_spec in Vp1.
  pose proof (Prim2SF_valid (N2 * s)) as Vp2. rewrite mul_spec in Vp2.
  destruct (SFmul_mono _ _ _ V1 V2 Vs HN1 HN Hs) as [E|[Hle Hp]].
  - rewrite E.
    replace (SF64add (Prim2SF m) S754_nan) with S754_nan
      by (destruct (Prim2SF m); reflexivity).
    replace (SF64sub (Prim2SF m) S754_nan) with S754_nan
      by (destruct (Prim2SF m); reflexivity).
    intros [H|H]; [discriminate|].
    destruct (Prim2SF v); discriminate.
  - set (p1 := SF64mul (Prim2SF N1) (Prim2SF s)) in *.
    set (p2 := SF64mul (Prim2SF N2) (Prim2SF s)) in *.
    rewrite !SFsub_add.
    intros [H|H]; [left | right].
    + destruct (SFadd_mono _ _ _ Vm Vp1 Vp2 Hle) as [Hup _].
      destruct Hup as [En|Hhi].
      * intros En. rewrite En in Hp. discriminate.
      * rewrite En in H. discriminate.
      * exact (SFleb_ltb_trans _ _ _ Hhi H).
    + assert (Vo1 : valid_binary (SFopp p1) = true) by now rewrite valid_opp.
      assert (Vo2 : valid_binary (SFopp p2) = true) by now rewrite valid_opp.
      destruct (SFadd_mono _ _ _ Vm Vo2 Vo1 (SFopp_leb _ _ Hle)) as [_ Hdown].
      destruct Hdown as [En|Hlo].
      * intros En. destruct p1 as [s1|s1| |s1 m1 e1]; try discriminate.
        destruct s1; discriminate.
      * rewrite En in H. destruct (Prim2SF v); discriminate.
      * exact (SFltb_leb_trans _ _ _ H Hlo).
Qed.

(** C7: in binary64, for a fixed stack and thresholds [0 < N1 <= N2],
    every pixel the filter rejects at [N2] it also rejects at [N1], and
    every pixel that survives at [N1] survives at [N2]. *)
Theorem binary64_filter_monotone_in_N (N1 N2 : float) (colors : list color.Color) :
  (0 <? N1) = true -> (N1 <=? N2) = true ->
  (forall c, In c colors ->
     rejected N2 (stack_means colors) (stack_stddevs colors) c = true ->
     rejected N1 (stack_means colors) (stack_stddevs colors) c = true)
  /\ incl (survivors N1 (stack_means colors) (stack_stddevs colors) colors)
          (survivors N2 (stack_means colors) (stack_stddevs colors) colors).
Proof.
  intros HN1 HN.
  assert (Hrej : forall c,
     rejected N2 (stack_means colors) (stack_stddevs colors) c = true ->
     rejected N1 (stack_means colors) (stack_stddevs colors) c = true).
  { intros c. rewrite !rejected_some_channel. intros [i [Hi Ho]].
    exists i. split; [assumption|].
    eapply outside_monotone_binary64; eauto using stack_stddevs_not_negative. }
  split; [auto|].
  intros c. rewrite !survivors_In. intros [Hin Hkept]. split; [assumption|].
  destruct (rejected N2 (stack_means colors) (stack_stddevs colors) c) eqn:E;
    [|reflexivity].
  rewrite (Hrej c E) in Hkept. discriminate.
Qed.

End Binary64Band.

(** * Stacks whose pixels agree on a channel, in binary64 *)

Section Binary64Exact.
Local Open Scope Z_scope.
Local Open Scope f64_scope.

Lemma fadd_of_int (a b : Z) :
  (0 <= a)%Z -> (0 <= b)%Z -> (a + b < 2 ^ 53)%Z ->
  Binary64.of_int a + Binary64.of_int b = Binary64.of_int (a + b).
Proof.
  intros Ha Hb Hab. apply Prim2SF_inj. cbn [fadd binary64].
  rewrite add_spec, !of_int_int_float by lia. now apply SFadd_int_float.
Qed.

Lemma fsub_of_int_self (a : Z) :
  (0 <= a < 2 ^ 53)%Z -> Binary64.of_int a - Binary64.of_int a = Binary64.of_int 0.
Proof.
  intros Ha. apply Prim2SF_inj. cbn [fsub binary64].
  rewrite sub_spec, of_int_int_float by lia. apply SFsub_int_float_self.
Qed.

Lemma fdiv_of_int (b c : Z) :
  (0 < b < 2 ^ 53)%Z -> (0 <= c)%Z -> (b * c < 2 ^ 53)%Z ->
  Binary64.of_int (b * c) / Binary64.of_int b = Binary64.of_int c.
Proof.
  intros Hb Hc Hbc. apply Prim2SF_inj. cbn [fdiv binary64].
  rewrite div_spec, !of_int_int_float by nia. now apply SFdiv_int_float.
Qed.

Lemma fdiv_zero_of_int (b : Z) :
  (0 < b < 2 ^ 53)%Z -> Binary64.of_int 0 / Binary64.of_int b = Binary64.of_int 0.
Proof.
  intros Hb. apply Prim2SF_inj. cbn [fdiv binary64].
  rewrite div_spec, (of_int_int_float b) by lia. now apply SFdiv_zero_int_float.
Qed.

Lemma to_uint16_of_int (v : Z) :
  (0 <= v <= 65535)%Z -> Binary64.to_uint16 (Binary64.of_int v) = v.
Proof.
  intros Hv. unfold Binary64.to_uint16. rewrite of_int_int_float by lia.
  rewrite trunc_int_float by lia. apply Z.mod_small. lia.
Qed.

(** The loop of [Sum] on copies of an integer: no rounding below 2^53. *)
Lemma sum_constant (v : Z) (l : list float) (k : Z) :
  (forall x, In x l -> x = Binary64.of_int v) ->
  (0 <= v)%Z -> (0 <= k)%Z -> ((k + Z.of_nat (List.length l)) * v < 2 ^ 53)%Z ->
  fold_left fadd l (Binary64.of_int (k * v))
  = Binary64.of_int ((k + Z.of_nat (List.length l)) * v).
Proof.
  revert k. induction l as [|x l IH]; intros k Hall Hv Hk Hlt.
  - cbn [fold_left List.length Z.of_nat]. now rewrite Z.add_0_r.
  - cbn [fold_left]. rewrite (Hall x (or_introl eq_refl)).
    cbn [List.length] in Hlt |- *. rewrite Nat2Z.inj_succ in Hlt |- *.
    rewrite fadd_of_int by nia.
    replace (k * v + v)%Z with ((k + 1) * v)%Z by ring.
    rewrite IH; [f_equal; ring| | | |].
    + intros y Hy. apply Hall. now right.
    + assumption.
    + lia.
    + replace (k + 1 + Z.of_nat (List.length l))%Z
        with (k + Z.succ (Z.of_nat (List.length l)))%Z by lia. assumption.
Qed.

Lemma mean_constant (v : Z) (l : list float) :
  l <> [] -> (forall x, In x l -> x = Binary64.of_int v) ->
  (0 <= v <= 65535)%Z -> (Z.of_nat (List.length l) <= 2 ^ 37)%Z ->
  stats.mean l = Binary64.of_int v.
Proof.
  intros Hne Hall Hv Hlen.
  assert (Hn : (0 < Z.of_nat (List.length l))%Z) by (destruct l; [congruence|cbn; lia]).
  assert (Hnv : (Z.of_nat (List.length l) * v < 2 ^ 53)%Z).
  { change (2 ^ 53)%Z with (2 ^ 37 * 65536)%Z. nia. }
  unfold stats.mean, stats.sum. cbn [of_int binary64].
  change (Binary64.of_int 0) with (Binary64.of_int (0 * v)).
  rewrite sum_constant by (try assumption; lia).
  rewrite Z.add_0_l. apply fdiv_of_int; lia.
Qed.

Lemma squares_constant (v : Z) (l : list float) :
  (forall x, In x l -> x = Binary64.of_int v) -> (0 <= v < 2 ^ 53)%Z ->
  stats.squares (Binary64.of_int v) l = Binary64.of_int 0.
Proof.
  intros Hall Hv. unfold stats.squares. cbn [of_int binary64].
  induction l as [|x l IH]; [reflexivity|].
  cbn [fold_left]. rewrite (Hall x (or_introl eq_refl)), fsub_of_int_self by assumption.
  replace (Binary64.of_int 0 + Binary64.of_int 0 * Binary64.of_int 0)
    with (Binary64.of_int 0) by (vm_compute; reflexivity).
  apply IH. intros y Hy. apply Hall. now right.
Qed.

Lemma stddev_constant (v : Z) (l : list float) :
  (2 <= List.length l)%nat -> (forall x, In x l -> x = Binary64.of_int v) ->
  (0 <= v <= 65535)%Z -> (Z.of_nat (List.length l) <= 2 ^ 37)%Z ->
  stats.stddev l = Binary64.of_int 0.
Proof.
  intros Hlen Hall Hv Hmax.
  assert (Hne : l <> []) by (destruct l; [cbn in Hlen; lia|congruence]).
  unfold stats.stddev, stats.variance.
  rewrite (mean_constant v) by assumption.
  rewrite squares_constant by (try assumption; lia).
  cbn [of_int binary64]. rewrite fdiv_zero_of_int by lia.
  vm_compute. reflexivity.
Qed.

(** A band of standard deviation 0 around a value keeps the value, for
    every [N], NaN and the infinities included. *)
Lemma zero_band (N : float) (v : Z) :
  (0 <= v < 2 ^ 53)%Z ->
  outside N [Binary64.of_int v] [Binary64.of_int 0] 0 (Binary64.of_int v) = false.
Proof.
  intros Hv. rewrite outside_binary64. unfold at_index. cbn [nth].
  rewrite !ltb_spec, add_spec, sub_spec, mul_spec, of_int_int_float by lia.
  change (Prim2SF (Binary64.of_int 0)) with (S754_zero false).
  assert (Hz : forall X, X = S754_zero false \/ (exists m e, X = S754_finite false m e) ->
            SFltb (SF64add X (SF64mul (Prim2SF N) (S754_zero false))) X
            || SFltb X (SF64sub X (SF64mul (Prim2SF N) (S754_zero false))) = false).
  { intros X [-> | [m [e ->]]];
      destruct (Prim2SF N) as [s|s| |s mn en]; try destruct s; try reflexivity;
      cbn [SF64mul SFmul SF64add SFadd SF64sub SFsub xorb];
      now rewrite SFltb_irrefl. }
  apply Hz. destruct (Z.eq_dec v 0) as [->|Hn]; [now left|right].
  destruct (int_float_pos v ltac:(lia)) as (HZ & _). eauto.
Qed.

End Binary64Exact.

Section ConstantChannel.
Local Open Scope Z_scope.

Lemma constant_samples (i : nat) (v : Z) (l : list color.Color) :
  (forall c, In c l -> channel_value i c = v) ->
  forall x : float, In x (map (sample i) l) -> x = Binary64.of_int v.
Proof.
  intros Hconst x Hx. apply in_map_iff in Hx. destruct Hx as [c [<- Hc]].
  unfold sample. cbn [of_int binary64]. now rewrite (Hconst c Hc).
Qed.

(** The mean of a channel that has the value [v] in every pixel. *)
Lemma constant_mean (i : nat) (v : Z) (l : list color.Color) :
  0 <= v <= 65535 -> l <> [] -> Z.of_nat (List.length l) <= 2 ^ 37 ->
  (forall c, In c l -> channel_value i c = v) ->
  stats.mean (map (sample i) l) = Binary64.of_int v.
Proof.
  intros Hv Hne Hlen Hconst. apply mean_constant.
  - destruct l; [congruence|discriminate].
  - now apply constant_samples.
  - assumption.
  - now rewrite length_map.
Qed.

Lemma constant_stddev (i : nat) (v : Z) (l : list color.Color) :
  0 <= v <= 65535 -> (2 <= List.length l)%nat -> Z.of_nat (List.length l) <= 2 ^ 37 ->
  (forall c, In c l -> channel_value i c = v) ->
  stats.stddev (map (sample i) l) = Binary64.of_int 0.
Proof.
  intros Hv Hlen Hmax Hconst. apply (stddev_constant v).
  - now rewrite length_map.
  - now apply constant_samples.
  - assumption.
  - now rewrite length_map.
Qed.

Lemma constant_kept (N : float) (i : nat) (v : Z) (colors : list color.Color)
  (c : color.Color) :
  (i < 4)%nat -> 0 <= v <= 65535 ->
  (2 <= List.length colors)%nat -> Z.of_nat (List.length colors) <= 2 ^ 37 ->
  (forall c, In c colors -> channel_value i c = v) ->
  In c colors ->
  outside N (stack_means colors) (stack_stddevs colors) i (sample i c) = false.
Proof.
  intros Hi Hv Hlen Hmax Hconst Hc. rewrite outside_at_index.
  rewrite (at_index_stack_means colors Hi), (at_index_stack_stddevs colors Hi).
  rewrite (constant_mean i v colors Hv (two_nonempty Hlen) Hmax Hconst).
  rewrite (constant_stddev i v colors Hv Hlen Hmax Hconst).
  unfold sample. cbn [of_int binary64]. rewrite (Hconst c Hc).
  apply zero_band. lia.
Qed.

End ConstantChannel.

Section Binary64Identical.
Local Open Scope Z_scope.

Lemma filter_all_true (A : Type) (f : A -> bool) (l : list A) :
  (forall a, In a l -> f a = true) -> filter f l = l.
Proof.
  induction l as [|a l IH]; intros Hall; [reflexivity|].
  simpl. rewrite (Hall a (or_introl eq_refl)), IH; [reflexivity|].
  intros b Hb. apply Hall. now right.
Qed.

Lemma filter_length (A : Type) (f : A -> bool) (l : list A) :
  (List.length (filter f l) <= List.length l)%nat.
Proof. induction l as [|a l IH]; simpl; [lia|]. destruct (f a); simpl; lia. Qed.

(** C8: in binary64, on a stack of two or more identical pixels (channel
    values within the range of [RGBA()], at most 2^37 pixels, so that no
    sum leaves the integers binary64 holds exactly) the standard deviation
    is 0 on every channel, the filter keeps every pixel whatever [N] is,
    and [meanColor] returns the common pixel. *)
Theorem binary64_identical_stack_returns_the_pixel
  (N : float) (c : color.Color) (colors : list color.Color) :
  (2 <= List.length colors)%nat ->
  Z.of_nat (List.length colors) <= 2 ^ 37 ->
  (forall c', In c' colors -> c' = c) ->
  color.in_range c ->
  stack_stddevs colors
  = [Binary64.of_int 0; Binary64.of_int 0; Binary64.of_int 0; Binary64.of_int 0]
  /\ survivors N (stack_means colors) (stack_stddevs colors) colors = colors
  /\ meanColor N colors = Ok c.
Proof.
  intros Hlen Hmax Hsame Hrange.
  pose proof (two_nonempty Hlen) as Hne.
  assert (Hconst : forall i c', In c' colors -> channel_value i c' = channel_value i c).
  { intros i c' Hc'. now rewrite (Hsame c' Hc'). }
  assert (Hsurv : survivors N (stack_means colors) (stack_stddevs colors) colors = colors).
  { apply filter_all_true. intros c' Hc'. apply negb_true_iff, not_true_is_false.
    rewrite rejected_some_channel. intros [i [Hi Ho]].
    rewrite (constant_kept N i (channel_value i c) colors c' Hi
               (channel_in_range i Hrange) Hlen Hmax (Hconst i) Hc') in Ho.
    discriminate. }
  split; [|split; [assumption|]].
  - unfold stack_stddevs. rewrite channels_of_maps. cbn [map].
    now rewrite !(fun i => constant_stddev i (channel_value i c) colors
                             (channel_in_range i Hrange) Hlen Hmax (Hconst i)).
  - rewrite (meanColor_nonempty N Hne), Hsurv.
    destruct colors as [|c0 colors']; [congruence|].
    cbv zeta.
    rewrite !(fun i => constant_mean i (channel_value i c) (c0 :: colors')
                         (channel_in_range i Hrange) Hne Hmax (Hconst i)).
    cbn [to_uint16 binary64 channel_value].
    destruct Hrange as (Hr & Hg & Hb & Ha).
    rewrite !to_uint16_of_int by assumption.
    now destruct c.
Qed.

(** In binary64, a channel that has the same value in every pixel of a
    stack of two or more (the alpha of opaque images, say) never makes the
    filter reject a pixel, and comes out of [meanColor] unchanged. *)
Theorem binary64_constant_channel_passes (N : float) (colors : list color.Color)
  (i : nat) (v : Z) :
  (2 <= List.length colors)%nat ->
  Z.of_nat (List.length colors) <= 2 ^ 37 ->
  (i < 4)%nat ->
  0 <= v <= 65535 ->
  (forall c, In c colors -> channel_value i c = v) ->
  (forall c, In c colors ->
     outside N (stack_means colors) (stack_stddevs colors) i (sample i c) = false)
  /\ (forall c, meanColor N colors = Ok c -> channel_value i c = v).
Proof.
  intros Hlen Hmax Hi Hv Hconst. split.
  - intros c Hc. now apply (constant_kept N i v colors c).
  - intros c Hok.
    rewrite (meanColor_nonempty N (two_nonempty Hlen)) in Hok.
    destruct (survivors N (stack_means colors) (stack_stddevs colors) colors)
      as [|s surv] eqn:E; [discriminate|].
    cbv beta iota zeta in Hok.
    assert (Hin : forall c', In c' (s :: surv) -> channel_value i c' = v).
    { intros c' Hc'. rewrite <- E in Hc'. apply survivors_In in Hc'.
      apply Hconst. tauto. }
    assert (Hl : (List.length (s :: surv) <= List.length colors)%nat).
    { rewrite <- E. apply filter_length. }
    assert (Hs : s :: surv <> []) by discriminate.
    assert (Hl' : Z.of_nat (List.length (s :: surv)) <= 2 ^ 37) by lia.
    pose proof (constant_mean i v (s :: surv) Hv Hs Hl' Hin) as Hm.
    destruct i as [|[|[|[|i]]]]; try lia; rewrite Hm in Hok; injection Hok as <-;
      cbn [channel_value color.RGBA64 color.red color.green color.blue color.alpha];
      now apply to_uint16_of_int.
Qed.

End Binary64Identical.

(** * The sums of the channel values, in binary64 *)

Section Binary64Sums.
Local Open Scope Z_scope.

Lemma channel_total_range (i : nat) (l : list color.Color) :
  Forall color.in_range l ->
  0 <= channel_total i l <= 65535 * Z.of_nat (List.length l).
Proof.
  induction 1 as [|c l Hc _ IH]; [cbn; lia|].
  pose proof (channel_in_range i Hc).
  cbn [channel_total fold_right List.length]. fold (channel_total i l).
  rewrite Nat2Z.inj_succ. lia.
Qed.

(** The loop of [Sum] on the values of a channel: every partial sum is an
    integer below 2^53, so no addition rounds. *)
Lemma sum_exact (i : nat) (l : list color.Color) (acc : Z) :
  Forall color.in_range l -> 0 <= acc -> acc + channel_total i l < 2 ^ 53 ->
  fold_left fadd (map (sample i) l) (Binary64.of_int acc)
  = Binary64.of_int (acc + channel_total i l).
Proof.
  intros Hl. revert acc. induction Hl as [|c l Hc Hl IH]; intros acc Hacc Hlt.
  - cbn. now rewrite Z.add_0_r.
  - pose proof (channel_in_range i Hc) as Hv.
    pose proof (channel_total_range i l Hl) as Ht.
    cbn [channel_total fold_right] in Hlt |- *. fold (channel_total i l) in Hlt |- *.
    cbn [map fold_left].
    change (sample i c) with (Binary64.of_int (channel_value i c)).
    rewrite fadd_of_int by lia. rewrite IH by lia. f_equal. lia.
Qed.

(** In binary64, on a stack of at most 2^37 pixels within the range of
    [RGBA()], the sums behind the output are exact: each channel
    [meanColor] returns is the conversion to [uint16] of the one rounded
    quotient of the integer total of the surviving pixels' values by
    their number. *)
Lemma output_is_rounded_quotient
  (N : float) (colors : list color.Color) (c : color.Color) (i : nat) :
  Forall color.in_range colors ->
  Z.of_nat (List.length colors) <= 2 ^ 37 ->
  (i < 4)%nat ->
  meanColor N colors = Ok c ->
  channel_value i c
  = Binary64.to_uint16
      (Binary64.of_int
         (channel_total i (survivors N (stack_means colors) (stack_stddevs colors) colors))
       / Binary64.of_int
           (Z.of_nat (List.length
              (survivors N (stack_means colors) (stack_stddevs colors) colors))))%float.
Proof.
  intros Hrange Hmax Hi Hok.
  destruct colors as [|c0 colors']; [discriminate|].
  assert (Hne : c0 :: colors' <> []) by discriminate.
  rewrite (meanColor_nonempty N Hne) in Hok.
  set (surv := survivors N (stack_means (c0 :: colors')) (stack_stddevs (c0 :: colors'))
                 (c0 :: colors')) in *.
  assert (Hs : Forall color.in_range surv).
  { apply Forall_forall. intros x Hx. unfold surv in Hx. apply survivors_In in Hx.
    rewrite Forall_forall in Hrange. apply Hrange. tauto. }
  assert (Hl : (List.length surv <= List.length (c0 :: colors'))%nat)
    by apply filter_length.
  pose proof (channel_total_range i surv Hs) as Ht.
  assert (Hsum : stats.mean (map (sample i) surv)
                 = (Binary64.of_int (channel_total i surv)
                    / Binary64.of_int (Z.of_nat (List.length surv)))%float).
  { unfold stats.mean, stats.sum. cbn [of_int binary64 fdiv].
    rewrite (sum_exact i surv 0 Hs) by lia.
    now rewrite Z.add_0_l, length_map. }
  destruct surv as [|s surv'] eqn:E; [discriminate|].
  cbv beta iota zeta in Hok.
  destruct i as [|[|[|[|i]]]]; try lia; rewrite Hsum in Hok; injection Hok as <-;
    reflexivity.
Qed.

End Binary64Sums.

(** * The pixel [meanColor] returns, in binary64 *)

Section Binary64Quotient.
Local Open Scope Z_scope.

(** The rounded quotient of a total by a count stays between the integer
    quotient and the next integer. *)
Lemma round_quot_between (T n : Z) :
  0 < T -> 0 < n <= 2 ^ 37 -> T <= 65535 * n ->
  T / n * 2 ^ 1074 <= round_quot n (T * 2 ^ 1074) < (T / n + 1) * 2 ^ 1074.
Proof.
  intros HT Hn Hmax.
  pose proof (pow2_pos 1074 ltac:(lia)) as P.
  pose proof (Z.mul_div_le T n ltac:(lia)) as Hlo.
  pose proof (Z.mul_succ_div_gt T n ltac:(lia)) as Hhi.
  assert (Hq : 0 <= T / n <= 65535).
  { split; [apply Z.div_pos; lia|]. apply Z.div_le_upper_bound; lia. }
  assert (HD : n <= T * 2 ^ 1074).
  { assert (2 ^ 37 <= 2 ^ 1074) by (apply Z.pow_le_mono_r; lia). nia. }
  split.
  - destruct (Z.eq_dec (T / n) 0) as [->|Hn0].
    + rewrite Z.mul_0_l. apply round_quot_nonneg; lia.
    + rewrite <- (round_units_on_grid (T / n) 1074) by lia.
      rewrite <- (round_quot_exact n) by lia.
      apply round_quot_mono; [lia| |].
      * assert (1 * 2 ^ 1074 <= T / n * 2 ^ 1074) by (apply Z.mul_le_mono_nonneg_r; lia).
        nia.
      * replace (T / n * 2 ^ 1074 * n) with (n * (T / n) * 2 ^ 1074) by ring.
        apply Z.mul_le_mono_nonneg_r; lia.
  - set (a := (T / n + 1) * 2 ^ 37 - 1).
    assert (Ha : 0 < a < 2 ^ 53).
    { unfold a. change (2 ^ 53) with (65536 * 2 ^ 37). lia. }
    assert (H1074 : 2 ^ 1074 = 2 ^ 37 * 2 ^ 1037) by (rewrite <- Z.pow_add_r by lia; reflexivity).
    pose proof (pow2_pos 1037 ltac:(lia)) as P'.
    apply Z.le_lt_trans with (a * 2 ^ 1037).
    + rewrite <- (round_units_on_grid a 1037) by lia.
      rewrite <- (round_quot_exact n) by lia.
      apply round_quot_mono; [lia|assumption|].
      rewrite H1074.
      replace (T * (2 ^ 37 * 2 ^ 1037)) with (T * 2 ^ 37 * 2 ^ 1037) by ring.
      replace (a * 2 ^ 1037 * n) with (a * n * 2 ^ 1037) by ring.
      apply Z.mul_le_mono_nonneg_r; [lia|]. unfold a. nia.
    + rewrite H1074. unfold a. nia.
Qed.

(** [uint16] of the float quotient of a total by a count is the integer
    quotient: the one rounding of the division never reaches the next
    integer. *)
Lemma quotient_truncates (T n : Z) :
  0 <= T -> 0 < n <= 2 ^ 37 -> T <= 65535 * n ->
  Binary64.to_uint16 (Binary64.of_int T / Binary64.of_int n)%float = T / n.
Proof.
  intros HT Hn Hmax.
  assert (Hn53 : 0 < n < 2 ^ 53) by lia.
  destruct (Z.eq_dec T 0) as [->|HT0].
  { change (Binary64.of_int 0 / Binary64.of_int n)%float
      with (fdiv (Binary64.of_int 0) (Binary64.of_int n)).
    rewrite fdiv_zero_of_int by assumption.
    rewrite to_uint16_of_int by lia. now rewrite Z.div_0_l by lia. }
  assert (HT53 : 0 < T < 2 ^ 53).
  { change (2 ^ 53) with (65536 * 2 ^ 37). lia. }
  unfold Binary64.to_uint16.
  rewrite div_spec, !of_int_int_float by lia.
  rewrite SFdiv_int_floats by assumption.
  pose proof (round_quot_between T n ltac:(lia) Hn Hmax) as [Hlo Hhi].
  assert (Hq : 0 <= T / n <= 65535).
  { split; [apply Z.div_pos; lia|]. apply Z.div_le_upper_bound; lia. }
  pose proof (pow2_pos 1074 ltac:(lia)) as P.
  rewrite trunc_of_units.
  - assert (E : round_quot n (T * 2 ^ 1074) / 2 ^ 1074 = T / n).
    { symmetry.
      apply (Z.div_unique _ _ (T / n) (round_quot n (T * 2 ^ 1074) - T / n * 2 ^ 1074));
        [left|]; lia. }
    rewrite E. apply Z.mod_small. lia.
  - split; [nia|].
    apply Z.lt_le_trans with (65536 * 2 ^ 1074); [nia|].
    change 65536 with (2 ^ 16). rewrite <- Z.pow_add_r by lia.
    apply Z.pow_le_mono_r; lia.
Qed.

End Binary64Quotient.

Section Binary64Output.
Local Open Scope Z_scope.

Lemma channel_total_between (i : nat) (l : list color.Color) (lo hi : Z) :
  (forall c, In c l -> lo <= channel_value i c <= hi) ->
  lo * Z.of_nat (List.length l) <= channel_total i l <= hi * Z.of_nat (List.length l).
Proof.
  induction l as [|c l IH]; intros Hall; [simpl; lia|].
  cbn [channel_total fold_right List.length]. fold (channel_total i l).
  pose proof (Hall c (or_introl eq_refl)).
  assert (lo * Z.of_nat (List.length l) <= channel_total i l
          <= hi * Z.of_nat (List.length l))
    by (apply IH; intros; apply Hall; now right).
  lia.
Qed.

(** What [meanColor] returns on a channel, in integers. *)
Lemma output_integer_quotient
  (N : float) (colors : list color.Color) (c : color.Color) (i : nat) :
  Forall color.in_range colors ->
  Z.of_nat (List.length colors) <= 2 ^ 37 ->
  (i < 4)%nat ->
  meanColor N colors = Ok c ->
  survivors N (stack_means colors) (stack_stddevs colors) colors <> []
  /\ channel_value i c
     = channel_total i (survivors N (stack_means colors) (stack_stddevs colors) colors)
       / Z.of_nat (List.length
                     (survivors N (stack_means colors) (stack_stddevs colors) colors)).
Proof.
  intros Hrange Hmax Hi Hok.
  pose proof (output_is_rounded_quotient N colors c i Hrange Hmax Hi Hok) as Hq.
  set (surv := survivors N (stack_means colors) (stack_stddevs colors) colors) in *.
  assert (Hne : surv <> []).
  { destruct colors as [|c0 colors']; [discriminate|].
    assert (Hc : c0 :: colors' <> []) by discriminate.
    rewrite (meanColor_nonempty N Hc) in Hok. fold surv in Hok.
    destruct surv; [discriminate|discriminate]. }
  split; [assumption|].
  assert (Hs : Forall color.in_range surv).
  { apply Forall_forall. intros x Hx. unfold surv in Hx. apply survivors_In in Hx.
    rewrite Forall_forall in Hrange. apply Hrange. tauto. }
  assert (Hl : (List.length surv <= List.length colors)%nat) by apply filter_length.
  assert (Hpos : 0 < Z.of_nat (List.length surv)) by (destruct surv; [congruence|cbn; lia]).
  pose proof (channel_total_range i surv Hs) as Ht.
  rewrite Hq. apply quotient_truncates; lia.
Qed.

(** In binary64, on a stack of at most 2^37 pixels within the range of
    [RGBA()], each channel of the pixel [meanColor] returns is the integer
    quotient of the total of the surviving pixels' values on that channel
    by the number of surviving pixels. *)
Theorem binary64_output_is_integer_quotient
  (N : float) (colors : list color.Color) (c : color.Color) (i : nat) :
  Forall color.in_range colors ->
  Z.of_nat (List.length colors) <= 2 ^ 37 ->
  (i < 4)%nat ->
  meanColor N colors = Ok c ->
  channel_value i c
  = channel_total i (survivors N (stack_means colors) (stack_stddevs colors) colors)
    / Z.of_nat (List.length
                  (survivors N (stack_means colors) (stack_stddevs colors) colors)).
Proof.
  intros Hrange Hmax Hi Hok.
  exact (proj2 (output_integer_quotient N colors c i Hrange Hmax Hi Hok)).
Qed.

(** In binary64, on a stack of at most 2^37 pixels within the range of
    [RGBA()], every channel of the pixel [meanColor] returns lies between
    the smallest and the largest value of that channel in the stack; so
    the pixel is within the range too, and the conversion to [uint16]
    never wraps. *)
Theorem binary64_output_between_inputs (N : float) (colors : list color.Color)
  (c : color.Color) :
  Forall color.in_range colors ->
  Z.of_nat (List.length colors) <= 2 ^ 37 ->
  meanColor N colors = Ok c ->
  color.in_range c
  /\ forall (i : nat) (lo hi : Z),
       (i < 4)%nat ->
       (forall c', In c' colors -> lo <= channel_value i c' <= hi) ->
       lo <= channel_value i c <= hi.
Proof.
  intros Hrange Hmax Hok.
  assert (Hbetween : forall (i : nat) (lo hi : Z),
       (i < 4)%nat ->
       (forall c', In c' colors -> lo <= channel_value i c' <= hi) ->
       lo <= channel_value i c <= hi).
  { intros i lo hi Hi Hall.
    destruct (output_integer_quotient N colors c i Hrange Hmax Hi Hok) as [Hne ->].
    set (surv := survivors N (stack_means colors) (stack_stddevs colors) colors) in *.
    assert (Hpos : 0 < Z.of_nat (List.length surv)) by (destruct surv; [congruence|cbn; lia]).
    assert (Hin : forall c', In c' surv -> lo <= channel_value i c' <= hi).
    { intros c' Hc'. unfold surv in Hc'. apply survivors_In in Hc'. apply Hall. tauto. }
    pose proof (channel_total_between i surv lo hi Hin) as Ht.
    split.
    - apply Z.div_le_lower_bound; lia.
    - apply Z.div_le_upper_bound; lia. }
  split; [|exact Hbetween].
  rewrite Forall_forall in Hrange.
  unfold color.in_range.
  pose proof (Hbetween 0%nat 0 65535) as H0.
  pose proof (Hbetween 1%nat 0 65535) as H1.
  pose proof (Hbetween 2%nat 0 65535) as H2.
  pose proof (Hbetween 3%nat 0 65535) as H3.
  cbn [channel_value] in H0, H1, H2, H3.
  repeat split;
    (apply H0 || apply H1 || apply H2 || apply H3); try lia;
    intros c' Hc'; destruct (Hrange c' Hc') as (? & ? & ? & ?); assumption.
Qed.

End Binary64Output.

(** * Stacks of two pixels, in binary64 *)

Section TwoValues.
Local Open Scope Z_scope.

(** Half of an integer below 2^53 is a float. *)
Lemma SFdiv_int_float_2 (T : Z) :
  0 < T < 2 ^ 53 -> SF64div (int_float T) (int_float 2) = of_units false (T * 2 ^ 1073).
Proof.
  intros HT. rewrite SFdiv_int_floats by lia. f_equal.
  replace (T * 2 ^ 1074) with (T * 2 ^ 1073 * 2)
    by (change 1074 with (1073 + 1); rewrite Z.pow_add_r by lia; change (2 ^ 1) with 2; ring).
  rewrite round_quot_exact by lia. apply round_units_on_grid; lia.
Qed.

Lemma of_signed_grid (c j : Z) :
  c <> 0 -> - 2 ^ 53 < c < 2 ^ 53 -> 52 <= j <= 1074 ->
  exists m e,
    of_signed (c * 2 ^ j) = S754_finite (c <? 0) m e
    /\ valid_binary (S754_finite (c <? 0) m e) = true
    /\ Zpos m * 2 ^ (e + 1074) = Z.abs c * 2 ^ j
    /\ digits (Zpos m) = 53
    /\ e = digits (Z.abs c) - 53 + j - 1074.
Proof.
  intros Hc0 Hc Hj. pose proof (pow2_pos j ltac:(lia)) as P.
  destruct (of_units_grid (c <? 0) (Z.abs c) j ltac:(lia) Hj) as (H1 & H2 & H3 & H4).
  eexists. eexists. split; [|split; [exact H2|split; [exact H3|split; [exact H4|reflexivity]]]].
  unfold of_signed. rewrite Z.abs_mul, (Z.abs_eq (2 ^ j)) by lia. rewrite <- H1.
  f_equal. destruct (Z.ltb_spec (c * 2 ^ j) 0), (Z.ltb_spec c 0); try reflexivity; nia.
Qed.

(** The deviation of an integer from a half-integer is exact. *)
Lemma SFsub_int_half (a T : Z) :
  0 <= a < 2 ^ 52 -> 0 < T < 2 ^ 53 -> 2 * a <> T ->
  SF64sub (int_float a) (of_units false (T * 2 ^ 1073))
  = of_signed ((2 * a - T) * 2 ^ 1073).
Proof.
  intros Ha HT Hne. pose proof (pow2_pos 1073 ltac:(lia)) as P.
  destruct (of_units_grid false T 1073 HT ltac:(lia)) as (HM & Hv & Hu & _).
  rewrite HM, SFsub_add. cbn [SFopp negb].
  set (m := Z.to_pos (T * 2 ^ (53 - digits T))) in *.
  set (e := digits T - 53 + 1073 - 1074) in *.
  assert (Hv' : valid_binary (S754_finite true m e) = true) by exact Hv.
  destruct (Z.eq_dec a 0) as [->|Ha0].
  - change (int_float 0) with (S754_zero false).
    change (SF64add (S754_zero false) (S754_finite true m e)) with (S754_finite true m e).
    destruct (of_signed_units true m e Hv') as [E _]. rewrite <- E at 1.
    f_equal. unfold units, cond_Zopp. rewrite Hu. ring.
  - destruct (int_float_pos a ltac:(lia)) as (HZ & _ & _ & Hva & Hrk).
    rewrite HZ in Hva, Hrk |- *.
    rewrite SFadd_finite by assumption. rewrite Hrk.
    unfold units at 1. unfold cond_Zopp. rewrite Hu.
    replace (a * 2 ^ 1074 + - (T * 2 ^ 1073)) with ((2 * a - T) * 2 ^ 1073)
      by (change 1074 with (1073 + 1); rewrite Z.pow_add_r by lia; change (2 ^ 1) with 2; ring).
    rewrite round_signed_grid by lia. reflexivity.
Qed.

(** The square of half an integer below 2^26 is exact. *)
Lemma SFmul_half_square (c : Z) :
  c <> 0 -> - 2 ^ 26 < c < 2 ^ 26 ->
  SF64mul (of_signed (c * 2 ^ 1073)) (of_signed (c * 2 ^ 1073))
  = of_units false (c * c * 2 ^ 1072).
Proof.
  intros Hc0 Hc.
  destruct (of_signed_grid c 1073 Hc0 ltac:(lia) ltac:(lia)) as (m & e & HF & Hv & Hu & _).
  rewrite HF, SFmul_finite by assumption. rewrite xorb_nilpotent, Hu.
  replace (Z.abs c * 2 ^ 1073 * (Z.abs c * 2 ^ 1073)) with (c * c * 2 ^ (1072 + 1074)).
  - rewrite round_units_deep; [reflexivity| |lia].
    assert (0 < c * c) by nia. assert (c * c < 2 ^ 26 * 2 ^ 26) by nia.
    change (2 ^ 26 * 2 ^ 26) with (2 ^ 52) in *. lia.
  - change (1072 + 1074) with (1073 + 1073). rewrite Z.pow_add_r by lia.
    destruct (Z.abs_spec c) as [[_ ->]|[_ ->]]; ring.
Qed.

Variables a b : Z.
Hypothesis Ha : 0 <= a <= 65535.
Hypothesis Hb : 0 <= b <= 65535.
Hypothesis Hab : a <> b.

(** The mean of two channel values is their half sum. *)
Lemma two_values_mean :
  Prim2SF (stats.mean [Binary64.of_int a; Binary64.of_int b])
  = of_units false ((a + b) * 2 ^ 1073).
Proof.
  unfold stats.mean, stats.sum. cbn [fold_left List.length of_int binary64 fdiv].
  rewrite !fadd_of_int by lia. rewrite Z.add_0_l.
  change (Z.of_nat 2) with 2.
  rewrite div_spec, !of_int_int_float by lia.
  apply SFdiv_int_float_2. lia.
Qed.

(** The sample variance of two channel values is half the square of
    their difference, without rounding. *)
Lemma two_values_variance :
  Prim2SF (stats.variance [Binary64.of_int a; Binary64.of_int b])
  = of_units false ((a - b) * (a - b) * 2 ^ 1073).
Proof.
  pose proof (pow2_pos 1072 ltac:(lia)) as P.
  assert (HK : 0 < (a - b) * (a - b) < 2 ^ 53).
  { split; [nia|]. assert ((a - b) * (a - b) <= 65535 * 65535) by nia. lia. }
  unfold stats.variance, stats.squares.
  cbn [fold_left List.length of_int binary64 fdiv fadd fsub fmul].
  change (Z.of_nat 2 - 1) with 1.
  rewrite div_spec, !add_spec, !mul_spec, !sub_spec, two_values_mean.
  rewrite !of_int_int_float by lia.
  rewrite !SFsub_int_half by lia.
  replace (2 * a - (a + b)) with (a - b) by lia.
  replace (2 * b - (a + b)) with (b - a) by lia.
  rewrite !SFmul_half_square by lia.
  replace ((b - a) * (b - a)) with ((a - b) * (a - b)) by ring.
  set (K := (a - b) * (a - b)) in *.
  destruct (of_units_grid false K 1072 HK ltac:(lia)) as (HF & Hv & Hu & _).
  rewrite HF.
  change (SF64add (int_float 0) ?x) with x.
  rewrite SFadd_finite by assumption.
  unfold units, cond_Zopp. rewrite Hu.
  replace (K * 2 ^ 1072 + K * 2 ^ 1072) with (K * 2 ^ 1073)
    by (change 1073 with (1072 + 1); rewrite Z.pow_add_r by lia; change (2 ^ 1) with 2; ring).
  rewrite round_signed_grid by lia.
  destruct (of_units_grid false K 1073 HK ltac:(lia)) as (HF' & Hv' & Hu' & Hd').
  pose proof (pow2_pos 1073 ltac:(lia)) as P'.
  assert (E : of_signed (K * 2 ^ 1073) = of_units false (K * 2 ^ 1073)).
  { unfold of_signed. rewrite Z.abs_eq by nia.
    destruct (Z.ltb_spec (K * 2 ^ 1073) 0); [nia|reflexivity]. }
  rewrite E, HF'. apply SFdiv_one; try assumption.
  pose proof (digits_pos K ltac:(lia)). lia.
Qed.

(** The standard deviation of two channel values is at least half their
    distance: the square root rounds, but not below that float. *)
Lemma two_values_stddev :
  SFleb (of_units false (Z.abs (a - b) * 2 ^ 1073))
        (Prim2SF (stats.stddev [Binary64.of_int a; Binary64.of_int b])) = true.
Proof.
  assert (HK : 0 < (a - b) * (a - b) < 2 ^ 32).
  { split; [nia|]. assert ((a - b) * (a - b) <= 65535 * 65535) by nia. lia. }
  unfold stats.stddev. cbn [fsqrt binary64]. rewrite sqrt_spec, two_values_variance.
  set (K := (a - b) * (a - b)) in *.
  destruct (of_units_grid false K 1073 ltac:(lia) ltac:(lia)) as (HF & Hv & Hu & Hd).
  rewrite HF.
  set (e := digits K - 53 + 1073 - 1074) in *.
  pose proof (digits_pos K ltac:(lia)) as Hdp.
  assert (Hd32 : digits K <= 32).
  { pose proof (digits_bounds K ltac:(lia)) as [L _].
    destruct (Z.le_gt_cases (digits K) 32); [assumption|].
    assert (2 ^ 32 <= 2 ^ (digits K - 1)) by (apply Z.pow_le_mono_r; lia). lia. }
  pose proof (Z.div2_odd e) as Hodd.
  assert (Hbz : 0 <= Z.b2z (Z.odd e) <= 1) by (destruct (Z.odd e); simpl; lia).
  assert (He2 : -27 <= Z.div2 e <= -11) by (unfold e in *; lia).
  pose proof (pow2_pos 1073 ltac:(lia)) as P.
  apply SFsqrt_lower; try assumption.
  - nia.
  - apply round_units_on_grid; lia.
  - exists (Z.abs (a - b) * 2 ^ (1073 - (Z.div2 e + 1074))).
    rewrite <- Z.mul_assoc, <- Z.pow_add_r by lia. f_equal. f_equal. lia.
  - rewrite Hu.
    replace (Z.abs (a - b) * 2 ^ 1073 * (Z.abs (a - b) * 2 ^ 1073))
      with (K * 2 ^ 1073 * 2 ^ 1073)
      by (unfold K; destruct (Z.abs_spec (a - b)) as [[_ ->]|[_ ->]]; ring).
    apply Z.mul_le_mono_nonneg_l; [nia|]. apply Z.pow_le_mono_r; lia.
Qed.

End TwoValues.

Section TwoPixels.
Local Open Scope Z_scope.

Lemma int_float_mono (v w : Z) :
  0 <= v -> v <= w -> w < 2 ^ 53 -> SFleb (int_float v) (int_float w) = true.
Proof.
  intros Hv Hvw Hw. pose proof (pow2_pos 1074 ltac:(lia)) as P.
  rewrite <- (round_int_float v), <- (round_int_float w) by lia.
  rewrite !round_signed_grid by lia.
  apply of_signed_mono. nia.
Qed.

(** Two different channel values and a threshold of 1 or more: both
    values, and every value between them, are inside the band. *)
Lemma two_values_kept (N : float) (a b v : Z) :
  0 <= a <= 65535 -> 0 <= b <= 65535 -> a <> b ->
  Z.min a b <= v <= Z.max a b ->
  (1 <=? N)%float = true ->
  outside N [stats.mean [Binary64.of_int a; Binary64.of_int b]]
            [stats.stddev [Binary64.of_int a; Binary64.of_int b]] 0 (Binary64.of_int v)
  = false.
Proof.
  intros Ha Hb Hab Hv HN.
  rewrite outside_binary64. unfold at_index. cbn [nth].
  rewrite !ltb_spec, add_spec, sub_spec, mul_spec, of_int_int_float by lia.
  rewrite leb_spec in HN. change (Prim2SF 1) with (int_float 1) in HN.
  pose proof (two_values_stddev a b Ha Hb Hab) as Hs.
  rewrite (two_values_mean a b Ha Hb Hab).
  set (l := [Binary64.of_int a; Binary64.of_int b]) in *.
  pose proof (Prim2SF_valid (stats.stddev l)) as VS.
  pose proof (Prim2SF_valid N) as VN.
  assert (NS : not_negative (Prim2SF (stats.stddev l)) = true).
  { unfold stats.stddev. cbn [fsqrt binary64]. rewrite sqrt_spec.
    apply SFsqrt_not_negative. }
  set (S := Prim2SF (stats.stddev l)) in *. set (Nn := Prim2SF N) in *.
  pose proof (pow2_pos 1073 ltac:(lia)) as P.
  destruct (of_units_grid false (a + b) 1073 ltac:(lia) ltac:(lia)) as (HM & VM & UM & _).
  destruct (of_units_grid false (Z.abs (a - b)) 1073 ltac:(lia) ltac:(lia))
    as (HH & VH & UH & _).
  rewrite HM. rewrite HH in Hs.
  set (mM := Z.to_pos ((a + b) * 2 ^ (53 - digits (a + b)))) in *.
  set (eM := digits (a + b) - 53 + 1073 - 1074) in *.
  set (mH := Z.to_pos (Z.abs (a - b) * 2 ^ (53 - digits (Z.abs (a - b))))) in *.
  set (eH := digits (Z.abs (a - b)) - 53 + 1073 - 1074) in *.
  assert (Hhi : SF64add (S754_finite false mM eM) (S754_finite false mH eH)
                = int_float (Z.max a b)).
  { rewrite SFadd_finite by assumption. unfold units, cond_Zopp. rewrite UM, UH.
    replace ((a + b) * 2 ^ 1073 + Z.abs (a - b) * 2 ^ 1073) with (Z.max a b * 2 ^ 1074)
      by (change 1074 with (1073 + 1); rewrite Z.pow_add_r by lia;
          change (2 ^ 1) with 2; lia).
    apply round_int_float. lia. }
  assert (Hlo : SF64add (S754_finite false mM eM) (S754_finite true mH eH)
                = int_float (Z.min a b)).
  { rewrite SFadd_finite by assumption. unfold units, cond_Zopp. rewrite UM, UH.
    replace ((a + b) * 2 ^ 1073 + - (Z.abs (a - b) * 2 ^ 1073)) with (Z.min a b * 2 ^ 1074)
      by (change 1074 with (1073 + 1); rewrite Z.pow_add_r by lia;
          change (2 ^ 1) with 2; lia).
    apply round_int_float. lia. }
  destruct (SFmul_mono (int_float 1) Nn S) as [Hnan | [Hle _]];
    try assumption; try reflexivity.
  - (* the product is a NaN: so are both bounds *)
    rewrite Hnan. destruct (int_float v); reflexivity.
  - rewrite SFmul_one_l in Hle by assumption.
    set (Pr := SF64mul Nn S) in *.
    assert (VP : valid_binary Pr = true).
    { unfold Pr, Nn, S. rewrite <- mul_spec. apply Prim2SF_valid. }
    assert (HP : SFleb (S754_finite false mH eH) Pr = true)
      by (eapply SFleb_trans; eassumption).
    apply orb_false_iff. split.
    + destruct (SFadd_mono (S754_finite false mM eM) (S754_finite false mH eH) Pr
                  VM VH VP HP) as [Hup _].
      destruct (Hup ltac:(discriminate)) as [E | E].
      * rewrite E. destruct (int_float v); reflexivity.
      * rewrite Hhi in E. apply SFleb_not_ltb.
        eapply SFleb_trans; [|exact E]. apply int_float_mono; lia.
    + rewrite SFsub_add.
      pose proof (SFopp_leb _ _ HP) as HP'. cbn [SFopp negb] in HP'.
      assert (VP' : valid_binary (SFopp Pr) = true) by (now rewrite valid_opp).
      assert (VH' : valid_binary (S754_finite true mH eH) = true) by exact VH.
      destruct (SFadd_mono (S754_finite false mM eM) (SFopp Pr) (S754_finite true mH eH)
                  VM VP' VH' HP') as [_ Hdn].
      destruct (Hdn ltac:(discriminate)) as [E | E].
      * rewrite E. destruct (int_float v); reflexivity.
      * rewrite Hlo in E. apply SFleb_not_ltb.
        eapply SFleb_trans; [exact E|]. apply int_float_mono; lia.
Qed.

Variables (N : float) (c1 c2 : color.Color).
Hypothesis HN : (1 <=? N)%float = true.
Hypothesis H1 : color.in_range c1.
Hypothesis H2 : color.in_range c2.

Lemma two_pixels_channel_kept (i : nat) (c : color.Color) :
  (i < 4)%nat -> In c [c1; c2] ->
  outside N (stack_means [c1; c2]) (stack_stddevs [c1; c2]) i (sample i c) = false.
Proof.
  intros Hi Hc.
  pose proof (channel_in_range i H1) as R1. pose proof (channel_in_range i H2) as R2.
  destruct (Z.eq_dec (channel_value i c1) (channel_value i c2)) as [E | E].
  - apply (constant_kept N i (channel_value i c1) [c1; c2] c); try assumption.
    + cbn. lia.
    + cbn. lia.
    + intros c' [<- | [<- | []]]; [reflexivity | now symmetry].
  - rewrite outside_at_index.
    rewrite (at_index_stack_means [c1; c2] Hi), (at_index_stack_stddevs [c1; c2] Hi).
    cbn [map]. unfold sample. cbn [of_int binary64].
    apply two_values_kept; try assumption.
    destruct Hc as [<- | [<- | []]]; lia.
Qed.

Lemma two_pixels_survive :
  survivors N (stack_means [c1; c2]) (stack_stddevs [c1; c2]) [c1; c2] = [c1; c2].
Proof.
  apply filter_all_true. intros c Hc. apply negb_true_iff, not_true_is_false.
  rewrite rejected_some_channel. intros [i [Hi Ho]].
  rewrite (two_pixels_channel_kept i c Hi Hc) in Ho. discriminate.
Qed.

Lemma two_pixels_output (i : nat) :
  Binary64.to_uint16 (stats.mean (map (sample i) [c1; c2]))
  = (channel_value i c1 + channel_value i c2) / 2.
Proof.
  pose proof (channel_in_range i H1) as R1. pose proof (channel_in_range i H2) as R2.
  unfold stats.mean, stats.sum. cbn [map fold_left List.length of_int binary64 fdiv].
  unfold sample. cbn [of_int binary64].
  rewrite !fadd_of_int by lia. rewrite Z.add_0_l.
  change (Z.of_nat 2) with 2. apply quotient_truncates; lia.
Qed.

End TwoPixels.

Section TwoPixelsTheorem.
Local Open Scope Z_scope.

(** X6: in binary64, on a stack of two pixels within the range of
    [RGBA()] and with [N >= 1] (the default 1.3, and +Inf, included), the
    filter rejects neither pixel, and [meanColor] returns on each channel
    the half sum of the two values, rounded down. *)
Theorem binary64_two_pixels_are_averaged (N : float) (c1 c2 : color.Color) :
  (1 <=? N)%float = true -> color.in_range c1 -> color.in_range c2 ->
  survivors N (stack_means [c1; c2]) (stack_stddevs [c1; c2]) [c1; c2] = [c1; c2]
  /\ meanColor N [c1; c2]
     = Ok (color.RGBA64 ((color.red c1 + color.red c2) / 2)
                        ((color.green c1 + color.green c2) / 2)
                        ((color.blue c1 + color.blue c2) / 2)
                        ((color.alpha c1 + color.alpha c2) / 2)).
Proof.
  intros HN H1 H2.
  pose proof (two_pixels_survive N c1 c2 HN H1 H2) as Hs.
  split; [assumption|].
  rewrite (meanColor_nonempty N (colors := [c1; c2])) by discriminate.
  rewrite Hs. cbv beta iota zeta. cbn [to_uint16 binary64].
  rewrite !(two_pixels_output c1 c2 H1 H2). reflexivity.
Qed.

End TwoPixelsTheorem.

Set Implicit Arguments.

(** ** Inputs for the theorems on the band *)

Module BandExamples.

(** A threshold at which a bound of the band is hit exactly. *)
Definition N : float := 0x1.c9f25c5bfedd8p+0%float.

(** Five opaque pixels of red value 0, 0, 0, 0 and 5. *)
Definition reds : list color.Color :=
  [color.mkColor 0 0 0 65535; color.mkColor 0 0 0 65535; color.mkColor 0 0 0 65535;
   color.mkColor 0 0 0 65535; color.mkColor 5 0 0 65535].

Definition four_black_one_white : list color.Color :=
  [Examples.black; Examples.black; Examples.black; Examples.black; Examples.white].

(** Three opaque pixels of red value 33, 33 and 31, and a threshold at
    which the last one is just outside its band. *)
Definition three_reds : list color.Color :=
  [color.mkColor 33 0 0 65535; color.mkColor 33 0 0 65535; color.mkColor 31 0 0 65535].

Definition N3 : float := 0x1.279a74590331dp+0%float.

End BandExamples.

(** * More theorems at concrete inputs *)

Module ExampleFiles.

Local Open Scope string_scope.

(** A directory with two files, of which the second cannot be opened. *)
Definition Glob (pattern : string) : result string (list string) :=
  Ok ["a.jpeg"; "b.jpeg"].
Definition Open (p : string) : option string :=
  if String.eqb p "b.jpeg" then Some "permission denied" else None.
Definition Decode (p : string) : result string image.Image :=
  Ok Examples.one_pixel_image.

(** A directory with one file, where everything succeeds. *)
Definition Glob_one (pattern : string) : result string (list string) :=
  Ok ["a.jpeg"].
Definition Open_all (p : string) : option string := None.
Definition Create (name : string) : option string := None.
Definition Encode (name : string) (out : list set_call) : option string := None.

End ExampleFiles.

Arguments OValue {F OSError} v.
Arguments OFile {F OSError} path.
Arguments OError {F OSError} e.
Arguments EFatalf {F OSError} format args.
Arguments EDone {F OSError}.

Section MoreInstances.

Local Open Scope string_scope.
Local Open Scope list_scope.

(** The error of the first mean is what [meanColor] returns on the empty
    slice, and on no other. *)
Theorem meanColor_mean_error_iff_empty (F : Type) (H : Float64Ops F)
  (nFlag : F) (colors : list color.Color) :
  meanColor nFlag colors
  = Err (Errorf "failed to compute mean for %v: %v"
           [VFloats []; VError (StatsError stats.EmptyInputErr)])
  <-> colors = [].
Proof.
  split; [|intros ->; reflexivity].
  destruct colors as [|c colors]; [reflexivity|].
  assert (Hne : c :: colors <> []) by discriminate.
  rewrite (meanColor_nonempty nFlag Hne).
  destruct (survivors nFlag (stack_means (c :: colors))
              (stack_stddevs (c :: colors)) (c :: colors));
    unfold removed_all; discriminate.
Qed.

Lemma run_stops_at_first_bad_file_witness :
  (ExampleFiles.Glob "Demo/Input/*.jpeg" = Ok (["a.jpeg"] ++ "b.jpeg" :: [])
   /\ Forall2 (loads ExampleFiles.Open ExampleFiles.Decode)
        ["a.jpeg"] [Examples.one_pixel_image])
  /\ run ExampleFiles.Glob ExampleFiles.Open ExampleFiles.Decode
       ExampleFiles.Create ExampleFiles.Encode
       "Demo/Input/*.jpeg" "out.jpeg" Examples.N_default
     = ([EGlob "Demo/Input/*.jpeg"; EOpen "a.jpeg"; EDecode "a.jpeg"; EOpen "b.jpeg"],
        EFatalf "failed opening %v: %v"
          [OValue (VString "b.jpeg"); OError "permission denied"]).
Proof.
  assert (Hg : ExampleFiles.Glob "Demo/Input/*.jpeg"
               = Ok (["a.jpeg"] ++ "b.jpeg" :: [])) by reflexivity.
  assert (Hl : Forall2 (loads ExampleFiles.Open ExampleFiles.Decode)
                 ["a.jpeg"] [Examples.one_pixel_image])
    by (repeat constructor).
  split; [split; assumption|].
  exact (proj1 (@run_stops_at_first_bad_file float binary64 string
                  ExampleFiles.Glob ExampleFiles.Open ExampleFiles.Decode
                  ExampleFiles.Create ExampleFiles.Encode
                  "Demo/Input/*.jpeg" "out.jpeg" Examples.N_default
                  ["a.jpeg"] [] "b.jpeg" [Examples.one_pixel_image] Hg Hl)
           "permission denied" eq_refl).
Defined.

Lemma run_creates_output_last_witness :
  In (ECreate "out.jpeg")
    (fst (run ExampleFiles.Glob_one ExampleFiles.Open_all ExampleFiles.Decode
            ExampleFiles.Create ExampleFiles.Encode
            "Demo/Input/*.jpeg" "out.jpeg" Examples.N_default))
  /\ ("out.jpeg" = "out.jpeg"
      /\ exists paths images sets,
           ExampleFiles.Glob_one "Demo/Input/*.jpeg" = Ok paths /\ paths <> []
           /\ Forall2 (loads ExampleFiles.Open_all ExampleFiles.Decode) paths images
           /\ main "Demo/Input/*.jpeg" Examples.N_default images = (sets, Saved)).
Proof.
  assert (Hin : In (ECreate "out.jpeg")
                  (fst (run ExampleFiles.Glob_one ExampleFiles.Open_all
                          ExampleFiles.Decode ExampleFiles.Create ExampleFiles.Encode
                          "Demo/Input/*.jpeg" "out.jpeg" Examples.N_default)))
    by (vm_compute; auto 10).
  split; [assumption|].
  exact (@run_creates_output_last float binary64 string
           ExampleFiles.Glob_one ExampleFiles.Open_all ExampleFiles.Decode
           ExampleFiles.Create ExampleFiles.Encode
           "Demo/Input/*.jpeg" "out.jpeg" Examples.N_default "out.jpeg" Hin).
Defined.

Lemma binary64_single_pixel_comes_back_witness :
  color.in_range Examples.grey
  /\ (Forall (fun s => Prim2SF s = S754_nan) (stack_stddevs (F:=float) [Examples.grey])
      /\ survivors 0.5%float (stack_means [Examples.grey])
           (stack_stddevs [Examples.grey]) [Examples.grey] = [Examples.grey]
      /\ meanColor 0.5%float [Examples.grey] = Ok Examples.grey).
Proof.
  assert (Hc : color.in_range Examples.grey) by (unfold color.in_range; simpl; lia).
  split; [assumption|].
  exact (@binary64_single_pixel_comes_back 0.5%float Examples.grey Hc).
Defined.

Lemma binary64_single_image_is_copied_witness :
  (forall x y, color.in_range (image.At Examples.two_pixel_image x y))
  /\ main "Demo/Input/*.jpeg" 0.5%float [Examples.two_pixel_image]
     = ([((0, 0)%Z, Examples.grey); ((1, 0)%Z, Examples.grey)], Saved).
Proof.
  assert (Hrange : forall x y, color.in_range (image.At Examples.two_pixel_image x y))
    by (intros x y; unfold color.in_range; simpl; lia).
  split; [assumption|].
  exact (@binary64_single_image_is_copied "Demo/Input/*.jpeg" 0.5%float
           Examples.two_pixel_image Hrange).
Defined.

Lemma binary64_identical_pair_comes_back_witness :
  color.in_range Examples.white
  /\ (survivors Examples.N_default (stack_means [Examples.white; Examples.white])
        (stack_stddevs [Examples.white; Examples.white])
        [Examples.white; Examples.white]
      = [Examples.white; Examples.white]
      /\ meanColor Examples.N_default [Examples.white; Examples.white]
         = Ok Examples.white).
Proof.
  assert (Hc : color.in_range Examples.white) by (unfold color.in_range; simpl; lia).
  split; [assumption|].
  exact (@binary64_identical_pair_comes_back Examples.white Hc).
Defined.


(** A band whose upper bound is hit exactly: red values 0, 0, 0, 0 and 5
    at [N = 0x1.c9f25c5bfedd8p+0].  The mean is 1, the standard deviation
    is the float nearest to the square root of 5, and [mean + N*stddev]
    rounds to 5: the pixel of red value 5 sits on the bound and is kept. *)
Lemma binary64_boundary_value_is_kept_witness :
  ((0 <? BandExamples.N)%float = true
   /\ (at_index (stack_stddevs BandExamples.reds) 0 <? 0)%float = false)
  /\ ((Binary64.of_int 5
       =? at_index (stack_means BandExamples.reds) 0
          + BandExamples.N * at_index (stack_stddevs BandExamples.reds) 0)%float = true
      /\ outside BandExamples.N (stack_means BandExamples.reds)
           (stack_stddevs BandExamples.reds) 0 (Binary64.of_int 5) = false
      /\ outside BandExamples.N (stack_means BandExamples.reds)
           (stack_stddevs BandExamples.reds) 0
           (at_index (stack_means BandExamples.reds) 0
            - BandExamples.N * at_index (stack_stddevs BandExamples.reds) 0)%float
         = false).
Proof.
  assert (HN : (0 <? BandExamples.N)%float = true) by reflexivity.
  assert (Hs : (at_index (stack_stddevs BandExamples.reds) 0 <? 0)%float = false)
    by reflexivity.
  split; [split; assumption|].
  destruct (binary64_boundary_value_is_kept BandExamples.N
              (@stack_means float binary64 BandExamples.reds)
              (@stack_stddevs float binary64 BandExamples.reds)
              0%nat (Binary64.of_int 5) HN Hs) as (_ & Hhi & _ & _ & Hlo).
  assert (He : (Binary64.of_int 5
                =? at_index (stack_means BandExamples.reds) 0
                   + BandExamples.N * at_index (stack_stddevs BandExamples.reds) 0)%float
               = true) by reflexivity.
  split; [exact He|]. split; [exact (Hhi He) | exact Hlo].
Defined.

(** Four black pixels and a white one, at the default [N = 1.3] and at
    [N = 2]: the white pixel is rejected at 1.3 and kept at 2. *)
Lemma binary64_filter_monotone_in_N_witness :
  ((0 <? Examples.N_default)%float = true /\ (Examples.N_default <=? 2)%float = true)
  /\ ((forall c, In c BandExamples.four_black_one_white ->
         rejected 2%float (stack_means BandExamples.four_black_one_white)
           (stack_stddevs BandExamples.four_black_one_white) c = true ->
         rejected Examples.N_default (stack_means BandExamples.four_black_one_white)
           (stack_stddevs BandExamples.four_black_one_white) c = true)
      /\ incl (survivors Examples.N_default
                 (stack_means BandExamples.four_black_one_white)
                 (stack_stddevs BandExamples.four_black_one_white)
                 BandExamples.four_black_one_white)
              (survivors 2%float
                 (stack_means BandExamples.four_black_one_white)
                 (stack_stddevs BandExamples.four_black_one_white)
                 BandExamples.four_black_one_white))
  /\ rejected Examples.N_default (stack_means BandExamples.four_black_one_white)
       (stack_stddevs BandExamples.four_black_one_white) Examples.white = true
  /\ rejected 2%float (stack_means BandExamples.four_black_one_white)
       (stack_stddevs BandExamples.four_black_one_white) Examples.white = false.
Proof.
  assert (H1 : (0 <? Examples.N_default)%float = true) by reflexivity.
  assert (H2 : (Examples.N_default <=? 2)%float = true) by reflexivity.
  split; [split; assumption|].
  split; [|split; vm_compute; reflexivity].
  exact (binary64_filter_monotone_in_N Examples.N_default 2%float
           BandExamples.four_black_one_white H1 H2).
Defined.

Lemma binary64_identical_stack_returns_the_pixel_witness :
  ((2 <= List.length [Examples.grey; Examples.grey; Examples.grey])%nat
   /\ (Z.of_nat (List.length [Examples.grey; Examples.grey; Examples.grey]) <= 2 ^ 37)%Z
   /\ (forall c', In c' [Examples.grey; Examples.grey; Examples.grey] -> c' = Examples.grey)
   /\ color.in_range Examples.grey)
  /\ (stack_stddevs [Examples.grey; Examples.grey; Examples.grey]
      = [Binary64.of_int 0; Binary64.of_int 0; Binary64.of_int 0; Binary64.of_int 0]
      /\ survivors Examples.N_default
           (stack_means [Examples.grey; Examples.grey; Examples.grey])
           (stack_stddevs [Examples.grey; Examples.grey; Examples.grey])
           [Examples.grey; Examples.grey; Examples.grey]
         = [Examples.grey; Examples.grey; Examples.grey]
      /\ meanColor Examples.N_default [Examples.grey; Examples.grey; Examples.grey]
         = Ok Examples.grey).
Proof.
  assert (Hlen : (2 <= List.length [Examples.grey; Examples.grey; Examples.grey])%nat)
    by (simpl; lia).
  assert (Hmax : (Z.of_nat (List.length [Examples.grey; Examples.grey; Examples.grey])
                  <= 2 ^ 37)%Z) by (simpl; lia).
  assert (Hsame : forall c', In c' [Examples.grey; Examples.grey; Examples.grey] ->
                             c' = Examples.grey)
    by (intros c' [<-|[<-|[<-|[]]]]; reflexivity).
  assert (Hrange : color.in_range Examples.grey)
    by (unfold color.in_range; simpl; lia).
  split; [repeat split; try assumption; apply Hrange|].
  exact (binary64_identical_stack_returns_the_pixel Examples.N_default Examples.grey
           [Examples.grey; Examples.grey; Examples.grey] Hlen Hmax Hsame Hrange).
Defined.

(** Two black pixels and a white one, all opaque: the alpha channel never
    rejects a pixel. *)
Lemma binary64_constant_channel_passes_witness :
  ((2 <= List.length Examples.two_black_one_white)%nat
   /\ (Z.of_nat (List.length Examples.two_black_one_white) <= 2 ^ 37)%Z
   /\ (3 < 4)%nat
   /\ (0 <= 65535 <= 65535)%Z
   /\ (forall c, In c Examples.two_black_one_white -> channel_value 3 c = 65535%Z))
  /\ ((forall c, In c Examples.two_black_one_white ->
         outside Examples.N_default (stack_means Examples.two_black_one_white)
           (stack_stddevs Examples.two_black_one_white) 3 (sample 3 c) = false)
      /\ (forall c, meanColor Examples.N_default Examples.two_black_one_white = Ok c ->
            channel_value 3 c = 65535%Z)).
Proof.
  assert (Hlen : (2 <= List.length Examples.two_black_one_white)%nat) by (simpl; lia).
  assert (Hmax : (Z.of_nat (List.length Examples.two_black_one_white) <= 2 ^ 37)%Z)
    by (simpl; lia).
  assert (Hi : (3 < 4)%nat) by lia.
  assert (Hv : (0 <= 65535 <= 65535)%Z) by lia.
  assert (Hconst : forall c, In c Examples.two_black_one_white ->
                             channel_value 3 c = 65535%Z)
    by (intros c [<-|[<-|[<-|[]]]]; reflexivity).
  split; [repeat split; try assumption; lia|].
  exact (binary64_constant_channel_passes Examples.N_default
           Examples.two_black_one_white 3%nat 65535%Z Hlen Hmax Hi Hv Hconst).
Defined.

(** A run on a directory of one 1x1 image where every call succeeds. *)
Lemma run_done_iff_witness :
  (ExampleFiles.Glob_one "Demo/Input/*.jpeg" = Ok ["a.jpeg"]
   /\ ["a.jpeg"] <> []
   /\ Forall2 (loads ExampleFiles.Open_all ExampleFiles.Decode)
        ["a.jpeg"] [Examples.one_pixel_image]
   /\ main "Demo/Input/*.jpeg" Examples.N_default [Examples.one_pixel_image]
      = ([((0, 0)%Z, Examples.grey)], Saved)
   /\ ExampleFiles.Create "out.jpeg" = None
   /\ ExampleFiles.Encode "out.jpeg" [((0, 0)%Z, Examples.grey)] = None)
  /\ run ExampleFiles.Glob_one ExampleFiles.Open_all ExampleFiles.Decode
       ExampleFiles.Create ExampleFiles.Encode
       "Demo/Input/*.jpeg" "out.jpeg" Examples.N_default
     = ([EGlob "Demo/Input/*.jpeg"; EOpen "a.jpeg"; EDecode "a.jpeg";
         ESet ((0, 0)%Z, Examples.grey); ECreate "out.jpeg";
         EEncode "out.jpeg" [((0, 0)%Z, Examples.grey)]],
        EDone).
Proof.
  assert (Hg : ExampleFiles.Glob_one "Demo/Input/*.jpeg" = Ok ["a.jpeg"]) by reflexivity.
  assert (Hne : ["a.jpeg"] <> []) by discriminate.
  assert (Hl : Forall2 (loads ExampleFiles.Open_all ExampleFiles.Decode)
                 ["a.jpeg"] [Examples.one_pixel_image])
    by (repeat constructor).
  assert (Hm : main "Demo/Input/*.jpeg" Examples.N_default [Examples.one_pixel_image]
               = ([((0, 0)%Z, Examples.grey)], Saved :> exit float))
    by (vm_compute; reflexivity).
  assert (Hc : ExampleFiles.Create "out.jpeg" = None) by reflexivity.
  assert (He : ExampleFiles.Encode "out.jpeg" [((0, 0)%Z, Examples.grey)] = None)
    by reflexivity.
  split; [repeat split; assumption|].
  exact (proj2 (@run_done_iff float binary64 string
                  ExampleFiles.Glob_one ExampleFiles.Open_all ExampleFiles.Decode
                  ExampleFiles.Create ExampleFiles.Encode
                  "Demo/Input/*.jpeg" "out.jpeg" Examples.N_default)
           ["a.jpeg"] [Examples.one_pixel_image] [((0, 0)%Z, Examples.grey)]
           Hg Hne Hl Hm Hc He).
Defined.

(** Red values 33, 33 and 31 at [N = 0x1.279a74590331dp+0]: the filter
    drops the pixel of red 31, and the red that comes out is 66 / 2. *)
Lemma binary64_output_is_integer_quotient_witness :
  (Forall color.in_range BandExamples.three_reds
   /\ (Z.of_nat (List.length BandExamples.three_reds) <= 2 ^ 37)%Z
   /\ (0 < 4)%nat
   /\ meanColor BandExamples.N3 BandExamples.three_reds
      = Ok (color.RGBA64 33 0 0 65535))
  /\ channel_value 0 (color.RGBA64 33 0 0 65535)
     = (channel_total 0
          (survivors BandExamples.N3 (stack_means BandExamples.three_reds)
             (stack_stddevs BandExamples.three_reds) BandExamples.three_reds)
        / Z.of_nat (List.length
            (survivors BandExamples.N3 (stack_means BandExamples.three_reds)
               (stack_stddevs BandExamples.three_reds) BandExamples.three_reds)))%Z
  /\ List.length
       (survivors BandExamples.N3 (stack_means BandExamples.three_reds)
          (stack_stddevs BandExamples.three_reds) BandExamples.three_reds) = 2%nat.
Proof.
  assert (Hrange : Forall color.in_range BandExamples.three_reds)
    by (repeat constructor; simpl; lia).
  assert (Hmax : (Z.of_nat (List.length BandExamples.three_reds) <= 2 ^ 37)%Z)
    by (simpl; lia).
  assert (Hi : (0 < 4)%nat) by lia.
  assert (Hok : meanColor BandExamples.N3 BandExamples.three_reds
                = Ok (color.RGBA64 33 0 0 65535) :> result (error float) _)
    by (vm_compute; reflexivity).
  split; [repeat split; assumption|].
  split; [|vm_compute; reflexivity].
  exact (binary64_output_is_integer_quotient BandExamples.N3
           BandExamples.three_reds (color.RGBA64 33 0 0 65535) 0%nat
           Hrange Hmax Hi Hok).
Defined.

Lemma binary64_output_between_inputs_witness :
  (Forall color.in_range Examples.two_black_one_white
   /\ (Z.of_nat (List.length Examples.two_black_one_white) <= 2 ^ 37)%Z
   /\ meanColor Examples.N_default Examples.two_black_one_white
      = Ok (color.RGBA64 21845 21845 21845 65535))
  /\ (color.in_range (color.RGBA64 21845 21845 21845 65535)
      /\ forall (i : nat) (lo hi : Z),
           (i < 4)%nat ->
           (forall c', In c' Examples.two_black_one_white ->
                       (lo <= channel_value i c' <= hi)%Z) ->
           (lo <= channel_value i (color.RGBA64 21845 21845 21845 65535) <= hi)%Z).
Proof.
  assert (Hrange : Forall color.in_range Examples.two_black_one_white)
    by (repeat constructor; simpl; lia).
  assert (Hmax : (Z.of_nat (List.length Examples.two_black_one_white) <= 2 ^ 37)%Z)
    by (simpl; lia).
  assert (Hok : meanColor Examples.N_default Examples.two_black_one_white
                = Ok (color.RGBA64 21845 21845 21845 65535) :> result (error float) _)
    by (vm_compute; reflexivity).
  split; [repeat split; assumption|].
  exact (binary64_output_between_inputs Examples.N_default
           Examples.two_black_one_white (color.RGBA64 21845 21845 21845 65535)
           Hrange Hmax Hok).
Defined.

(** A black and a grey pixel at [N = 1], the least threshold of the
    theorem: both are kept, and each channel is the half sum. *)
Lemma binary64_two_pixels_are_averaged_witness :
  ((1 <=? 1)%float = true /\ color.in_range Examples.black
   /\ color.in_range Examples.grey)
  /\ (survivors 1%float (stack_means [Examples.black; Examples.grey])
        (stack_stddevs [Examples.black; Examples.grey])
        [Examples.black; Examples.grey]
      = [Examples.black; Examples.grey]
      /\ meanColor 1%float [Examples.black; Examples.grey]
         = Ok (color.RGBA64 1285 1285 1285 65535)).
Proof.
  assert (HN : (1 <=? 1)%float = true) by reflexivity.
  assert (H1 : color.in_range Examples.black) by (unfold color.in_range; simpl; lia).
  assert (H2 : color.in_range Examples.grey) by (unfold color.in_range; simpl; lia).
  split; [repeat split; try assumption; try apply H1; apply H2|].
  exact (binary64_two_pixels_are_averaged 1%float Examples.black Examples.grey HN H1 H2).
Defined.

End MoreInstances.
